(** * ObjectGraph: a shallow embedding of src/ObjectGraph.es6.js and
    src/TaskQueue.js, and the properties of its capture, query and
    serialization operations.

    Identities ($UID values) and primitive-type sentinels are natural
    numbers ([N]); the stores [data], [metadata] and [protos] are finite
    maps keyed by identity; property names and paths are strings. *)

From Stdlib Require Import NArith Ascii DecimalString.
From stdpp Require Import gmap strings list sorting.

Set Warnings "-clear-no-such-hyp".

(** ** Outcomes of a call

    A call returns, throws, or (for the loops that the source does not
    bound) exhausts the fuel it was given. *)

Inductive error :=
| TypeError        (* property access on undefined *)
| AssertionError   (* a failed console.assert on a host where it throws *)
| NonNumericId.    (* a root that is not a number (left by the capture of a
                      function or of a primitive): its coercions are not
                      embedded *)

Inductive res (A : Type) :=
| Ret (a : A)
| Thrown (e : error)
| OutOfFuel.
Arguments Ret {A} a.
Arguments Thrown {A} e.
Arguments OutOfFuel {A}.

Definition res_bind {A B} (r : res A) (k : A → res B) : res B :=
  match r with
  | Ret a => k a
  | Thrown e => Thrown e
  | OutOfFuel => OutOfFuel
  end.

Notation "'try!' x := r 'in' k" := (res_bind r (λ x, k))
  (at level 10, x name, r at level 100, k at level 200, only parsing).

(** ** JavaScript values and the inspected heap *)

Definition addr := nat.

Inductive value :=
| VUndefined
| VNull
| VBool (b : bool)
| VNumber (n : N)
| VString (s : string)
| VSymbol
| VObj (a : addr).

Global Instance value_eq_dec : EqDecision value.
Proof. solve_decision. Defined.

(** Reading [o[name]] either yields a value or throws (hostile getter). *)
Inductive access :=
| Reads (v : value)
| Raises.

(** What [Object.getOwnPropertyDescriptor(o, name)] does: it returns a
    descriptor (the truthiness of its parts) or undefined, or throws. *)
Inductive described :=
| Descriptor (d : list (string * bool))
| NoDescriptor
| DescriptorRaises.

(** A property: its name, what reading it does, and what reading its
    descriptor does. *)
Record property := {
  pname : string;
  pget : access;
  pdesc : described;
}.

(** An object of the inspected program.  [UID] is the value of the
    [$UID] property that ya-stdlib-js attaches to every object. *)
Record jsobject := {
  UID : N;
  callable : bool;            (* typeof o === 'function' *)
  proto : value;              (* o.__proto__ *)
  props : list property;      (* own properties, in getOwnPropertyNames order *)
}.

Definition heap := addr → jsobject.

(** ** The graph object

    One record holds the fields of an ObjectGraph instance together with
    those of the TaskQueue it owns ([q], [maxDequeueSize], [onDone]). *)

Inductive task :=
| VisitPrototype (o : addr)
| VisitPropertyDescriptors (o : addr)
| VisitProperty (o : addr) (name : string).

Record captureOpts := {
  optKey : option string;
  optOnDone : option nat;   (* a user callback, named by a number *)
}.

(** The function values that the source stores in [q.onDone]. *)
Inductive callback :=
| CbNoop                                         (* TaskQueue.prototype.onDone *)
| CbUser (c : nat)                               (* opts.onDone of the constructor *)
| CbCaptureDone (prev : callback) (user : option nat)
      (* the closure of lines 266-272 *)
| CbRecapture (prev : callback) (o : value) (opts : captureOpts).
      (* the closure of lines 249-252 *)

Inductive event :=
| EvCapture                       (* capture replaced the stores by empty ones *)
| EvTick                          (* q.onTick() *)
| EvCallback (c : nat)            (* a user onDone callback ran *)
| EvStore (id : N)                (* storeObject(id) allocated data[id] *)
| EvAssert (msg : string)         (* a console.assert whose condition was false *)
| EvWarn (name : string) (id : N) (* console.warn: missing descriptor *)
| EvAsync.                        (* window.setTimeout(flush, 0) *)

Definition descriptor := gmap string N.

Record ObjectGraph := {
  q : list task;
  maxDequeueSize : nat;
  onDone : callback;
  busy : bool;
  blacklistedObjects : list value;
  blacklistedKeys : list string;
  keysCache : gmap N (list string);
  timestamp : option N;
  userAgent : string;
  key : string;
  root : value;
  data : gmap N (gmap string N);
  metadata : gmap N (gmap string descriptor);
  protos : gmap N N;
  functions : list N;
  clock : N;                 (* what (new Date()).getTime() returns next *)
  timers : nat;              (* flushes scheduled with window.setTimeout *)
  trace : list event;        (* observable effects, most recent first *)
}.

(** ** Identity and type registry (lines 51-61, 319-322, 477-479) *)

Definition FIRST_TYPE : N := 1.
Definition LAST_TYPE : N := 7.

Definition types (typeOf : string) : option N :=
  if String.eqb typeOf "undefined" then Some 1%N
  else if String.eqb typeOf "boolean" then Some 2%N
  else if String.eqb typeOf "number" then Some 3%N
  else if String.eqb typeOf "string" then Some 4%N
  else if String.eqb typeOf "symbol" then Some 5%N
  else if String.eqb typeOf "null" then Some 6%N
  else if String.eqb typeOf "exception" then Some 7%N
  else None.

Definition default_blacklistedKeys : list string :=
  ["$UID"; "$UID__"; "__proto__"].

Definition isType (id : N) : bool :=
  (FIRST_TYPE <=? id)%N && (id <=? LAST_TYPE)%N.

(** JavaScript truthiness of a number. *)
Definition truthy (n : N) : bool := negb (n =? 0)%N.

(** [this.protos[id] || this.types['null']] *)
Definition getPrototype (g : ObjectGraph) (id : N) : N :=
  match protos g !! id with
  | Some p => if truthy p then p else 6%N
  | None => 6%N
  end.

Definition isKeyBlacklisted (g : ObjectGraph) (name : string) : bool :=
  existsb (String.eqb name) (blacklistedKeys g).

(** ** Forward lookup (lines 483-507) *)

(** [key.split('.')]: the segments between dots; never the empty list. *)
Fixpoint split_dot (s : string) : list string :=
  match s with
  | EmptyString => [EmptyString]
  | String c s' =>
      if Ascii.eqb c "."%char then EmptyString :: split_dot s'
      else match split_dot s' with
           | seg :: segs => String c seg :: segs
           | [] => [String c EmptyString]
           end
  end.

(** The storage maps are object literals: a read of one of these names
    that is not an own entry finds the method of Object.prototype. *)
Definition inheritedNames : list string :=
  ["constructor"; "hasOwnProperty"; "isPrototypeOf"; "propertyIsEnumerable";
   "toLocaleString"; "toString"; "valueOf"; "__defineGetter__";
   "__defineSetter__"; "__lookupGetter__"; "__lookupSetter__"].

Definition isInherited (name : string) : bool :=
  existsb (String.eqb name) inheritedNames.

(** What the variables [id] and [nextId] of [lookup_] hold: a number (an
    identity or a sentinel), or the method of Object.prototype that a
    storage map has under an inherited name. *)
Inductive ident :=
| Num (n : N)
| Method (name : string).

(** The while loop of line 490,
    [while (!isType(id) && !(nextId = data[id][name])) id = getPrototype(id)],
    entered with a number in [id].  It ends at a sentinel ([Ret None]: line
    493 then returns null), or at an identity whose map has a truthy value
    under [name], an own entry or an inherited method ([Ret (Some
    nextId)]), or throws when [data[id]] is undefined. *)
Fixpoint lookup_while (fuel : nat) (g : ObjectGraph) (name : string) (id : N)
  : res (option ident) :=
  match fuel with
  | O => OutOfFuel
  | S fuel' =>
      if isType id then Ret None
      else match data g !! id with
           | None => Thrown TypeError
           | Some m =>
               match m !! name with
               | Some nextId =>
                   if truthy nextId then Ret (Some (Num nextId))
                   else lookup_while fuel' g name (getPrototype g id)
               | None =>
                   if isInherited name then Ret (Some (Method name))
                   else lookup_while fuel' g name (getPrototype g id)
               end
           end
  end.

(** The for loop of [lookup_]; [None] is JavaScript's null.  With a method
    in [id], [isType(id)] is false and no store has an entry under the
    string of the method: [getPrototype(id)] is the null sentinel, and
    [data[id][name]] reads a property of undefined. *)
Fixpoint lookup_ (fuel : nat) (g : ObjectGraph) (path : list string)
  (id : ident) : res (option ident) :=
  match path with
  | [] =>
      match id with
      | Num n => Ret (if truthy n then Some id else None)
      | Method _ => Ret (Some id)
      end
  | name :: path' =>
      match id with
      | Num n =>
          if String.eqb name "__proto__" then
            if isType n then Ret None
            else lookup_ fuel g path' (Num (getPrototype g n))
          else
            try! r := lookup_while fuel g name n in
            match r with
            | None => Ret None
            | Some nextId => lookup_ fuel g path' nextId
            end
      | Method _ =>
          if String.eqb name "__proto__" then lookup_ fuel g path' (Num 6)
          else Thrown TypeError
      end
  end.

(** [opt_root || this.root].  The optional argument is a number. *)
Definition lookup (fuel : nat) (g : ObjectGraph) (key : string)
  (opt_root : option N) : res (option ident) :=
  match opt_root with
  | Some r =>
      if truthy r then lookup_ fuel g (split_dot key) (Num r)
      else match root g with
           | VNumber r' => lookup_ fuel g (split_dot key) (Num r')
           | _ => Thrown NonNumericId
           end
  | None =>
      match root g with
      | VNumber r' => lookup_ fuel g (split_dot key) (Num r')
      | _ => Thrown NonNumericId
      end
  end.

(** ** Derived indices (lines 68-86)

    [initLazyData] makes the indices lazy values that are computed from
    the stores; it is called when a capture is done, after every removal
    and by [fromJSON], so that on a graph at rest an index is a function
    of the stores.

    [Object.getOwnPropertyNames] of a map keyed by identities lists them in
    ascending numeric order. *)
Definition ownIds {A} (m : gmap N A) : list N :=
  merge_sort N.le (elements (dom m)).

Definition ownNames {A} (m : gmap string A) : list string :=
  (map_to_list m).*1.

(** [String(n)] for an identity. *)
Definition toString (n : N) : string :=
  NilZero.string_of_uint (N.to_uint n).

(** [Array.prototype.sort()] without a comparator orders by the string
    form of the elements. *)
Definition sort_strings (l : list string) : list string :=
  merge_sort (λ a b, String.leb a b) l.

Definition sort_default (l : list N) : list N :=
  merge_sort (λ a b, String.leb (toString a) (toString b)) l.

(** Modelled from the spec: [remap['a:b:c=>c:b:[a]']] of ya-stdlib-js, which
    is not part of the sources; "inverse-data: identity → property name →
    set of identities that reference it under that name". *)
Definition remap_push (c : N) (b : string) (a : N)
  (acc : gmap N (gmap string (list N))) : gmap N (gmap string (list N)) :=
  let m := default ∅ (acc !! c) in
  <[c := <[b := default [] (m !! b) ++ [a]]> m]> acc.

Definition remap_abc (d : gmap N (gmap string N))
  : gmap N (gmap string (list N)) :=
  foldl (λ acc a,
           foldl (λ acc' bc, remap_push bc.2 bc.1 a acc') acc
                 (map_to_list (default ∅ (d !! a))))
        ∅ (ownIds d).

(** Modelled from the spec: [remap['a:b=>b:[a]']] of ya-stdlib-js;
    "inverse-protos: identity → set of identities whose delegation parent
    it is". *)
Definition remap_ab (p : gmap N N) : gmap N (list N) :=
  foldl (λ acc a,
           match p !! a with
           | Some b => <[b := default [] (acc !! b) ++ [a]]> acc
           | None => acc
           end)
        ∅ (ownIds p).

Definition invData (g : ObjectGraph) : gmap N (gmap string (list N)) :=
  remap_abc (data g).

Definition invProtos (g : ObjectGraph) : gmap N (list N) :=
  remap_ab (protos g).

Definition with_keysCache
  (f : gmap N (list string) → gmap N (list string)) (g : ObjectGraph)
  : ObjectGraph :=
  {| q := q g; maxDequeueSize := maxDequeueSize g; onDone := onDone g;
     busy := busy g; blacklistedObjects := blacklistedObjects g;
     blacklistedKeys := blacklistedKeys g; keysCache := f (keysCache g);
     timestamp := timestamp g; userAgent := userAgent g; key := key g;
     root := root g; data := data g; metadata := metadata g;
     protos := protos g; functions := functions g; clock := clock g;
     timers := timers g; trace := trace g |}.

(** ** Index queries (lines 352-360)

    The names of [data] are the decimal strings of its keys, which
    [parseInt] turns back into the keys; the final [ids.sort()] has no
    comparator. *)

Definition getAllIds_ (g : ObjectGraph) : list N :=
  sort_default
    (filter (λ i, isKeyBlacklisted g (toString i) = false) (ownIds (data g))).

(** ** Reverse lookup (lines 364-440) *)

Definition keys_result : Type := list string * gset N.

(** The loop over [ids] (lines 384-395 and 401-410): [rec] is the
    recursive call, [seen] the set that all calls share. *)
Fixpoint getKeys_via (rec : N → gset N → res keys_result) (name : string)
  (ids : list N) (allKeys : list string) (seen : gset N) : res keys_result :=
  match ids with
  | [] => Ret (allKeys, seen)
  | invId :: ids' =>
      if decide (invId ∈ seen) then getKeys_via rec name ids' allKeys seen
      else
        try! r := rec invId seen in
        getKeys_via rec name ids'
          (allKeys ++ map (λ prefix, prefix +:+ "." +:+ name) r.1) r.2
  end.

(** The loop over the sorted names of [invData[id]] (lines 379-396). *)
Fixpoint getKeys_names (rec : N → gset N → res keys_result) (g : ObjectGraph)
  (map : gmap string (list N)) (keys : list string)
  (allKeys : list string) (seen : gset N) : res keys_result :=
  match keys with
  | [] => Ret (allKeys, seen)
  | key :: keys' =>
      if isKeyBlacklisted g key then
        getKeys_names rec g map keys' allKeys seen
      else
        try! r := getKeys_via rec key (default [] (map !! key)) allKeys seen in
        getKeys_names rec g map keys' r.1 r.2
  end.

(** [getKeys_(id, seen)]; the mutated [seen] object is returned with the
    keys.  The assertion of line 365 only reports. *)
Fixpoint getKeys_ (fuel : nat) (g : ObjectGraph) (id : N) (seen : gset N)
  : res keys_result :=
  match fuel with
  | O => OutOfFuel
  | S fuel' =>
      let seen1 := {[id]} ∪ seen in
      if decide (VNumber id = root g) then Ret ([key g], seen1)
      else
        match invData g !! id with
        | None => Ret ([], seen1)
        | Some map =>
            try! r := getKeys_names (getKeys_ fuel' g) g map
                        (sort_strings (ownNames map)) [] seen1 in
            match invProtos g !! id with
            | None => Ret r
            | Some invs => getKeys_via (getKeys_ fuel' g) "__proto__" invs r.1 r.2
            end
        end
  end.

(** [Array.prototype.sort(comparefn)], as the insertion sort that places
    each element after the last earlier one that [comparefn] does not
    rank above it.  [comparefn] returns a number; the accumulator holds
    the sorted prefix, last element first. *)
Fixpoint sort_insert {A} (comparefn : A → A → Z) (x : A) (r : list A) : list A :=
  match r with
  | [] => [x]
  | y :: r' =>
      if (0 <? comparefn y x)%Z then y :: sort_insert comparefn x r'
      else x :: y :: r'
  end.

Definition sort_by {A} (comparefn : A → A → Z) (l : list A) : list A :=
  rev (foldl (λ r x, sort_insert comparefn x r) [] l).

(** The comparator of line 431,
    [a.length === b.length ? a > b : a.length - b.length];
    the boolean [a > b] counts as 1 or 0. *)
Definition keys_comparefn (a b : string) : Z :=
  if (String.length a =? String.length b)%nat
  then (if String.ltb b a then 1 else 0)%Z
  else (Z.of_nat (String.length a) - Z.of_nat (String.length b))%Z.

(** Every identity that a recursive call can reach is a key of [data] or
    of [protos]: one more call than there are such keys is never needed. *)
Definition universe (g : ObjectGraph) : gset N :=
  dom (data g) ∪ dom (protos g).

Definition getKeys_fuel (g : ObjectGraph) : nat := S (size (universe g)).

(** [getKeys(id)] returns the keys and the graph with its cache filled. *)
Definition getKeys (g : ObjectGraph) (id : N) : res (list string * ObjectGraph) :=
  match keysCache g !! id with
  | Some keys => Ret (keys, g)
  | None =>
      try! r := getKeys_ (getKeys_fuel g) g id ∅ in
      let keys := sort_by keys_comparefn r.1 in
      Ret (keys, with_keysCache (insert id keys) g)
  end.

(** [this.getKeys(id)[0] || null]: the empty string is falsy. *)
Definition getShortestKey (g : ObjectGraph) (id : N)
  : res (option string * ObjectGraph) :=
  try! r := getKeys g id in
  Ret (match r.1 with
       | k :: _ => if String.eqb k "" then None else Some k
       | [] => None
       end, r.2).

(** ** Field updates *)

Definition with_queue (f : list task → list task) (g : ObjectGraph) : ObjectGraph :=
  {| q := f (q g); maxDequeueSize := maxDequeueSize g; onDone := onDone g;
     busy := busy g; blacklistedObjects := blacklistedObjects g;
     blacklistedKeys := blacklistedKeys g; keysCache := keysCache g;
     timestamp := timestamp g;
     userAgent := userAgent g; key := key g; root := root g;
     data := data g; metadata := metadata g; protos := protos g;
     functions := functions g; clock := clock g; timers := timers g;
     trace := trace g |}.

Definition with_onDone (cb : callback) (g : ObjectGraph) : ObjectGraph :=
  {| q := q g; maxDequeueSize := maxDequeueSize g; onDone := cb;
     busy := busy g; blacklistedObjects := blacklistedObjects g;
     blacklistedKeys := blacklistedKeys g; keysCache := keysCache g;
     timestamp := timestamp g;
     userAgent := userAgent g; key := key g; root := root g;
     data := data g; metadata := metadata g; protos := protos g;
     functions := functions g; clock := clock g; timers := timers g;
     trace := trace g |}.

Definition with_busy (b : bool) (g : ObjectGraph) : ObjectGraph :=
  {| q := q g; maxDequeueSize := maxDequeueSize g; onDone := onDone g;
     busy := b; blacklistedObjects := blacklistedObjects g;
     blacklistedKeys := blacklistedKeys g; keysCache := keysCache g;
     timestamp := timestamp g;
     userAgent := userAgent g; key := key g; root := root g;
     data := data g; metadata := metadata g; protos := protos g;
     functions := functions g; clock := clock g; timers := timers g;
     trace := trace g |}.

Definition with_data (f : gmap N (gmap string N) → gmap N (gmap string N))
  (g : ObjectGraph) : ObjectGraph :=
  {| q := q g; maxDequeueSize := maxDequeueSize g; onDone := onDone g;
     busy := busy g; blacklistedObjects := blacklistedObjects g;
     blacklistedKeys := blacklistedKeys g; keysCache := keysCache g;
     timestamp := timestamp g;
     userAgent := userAgent g; key := key g; root := root g;
     data := f (data g); metadata := metadata g; protos := protos g;
     functions := functions g; clock := clock g; timers := timers g;
     trace := trace g |}.

Definition with_metadata
  (f : gmap N (gmap string descriptor) → gmap N (gmap string descriptor))
  (g : ObjectGraph) : ObjectGraph :=
  {| q := q g; maxDequeueSize := maxDequeueSize g; onDone := onDone g;
     busy := busy g; blacklistedObjects := blacklistedObjects g;
     blacklistedKeys := blacklistedKeys g; keysCache := keysCache g;
     timestamp := timestamp g;
     userAgent := userAgent g; key := key g; root := root g;
     data := data g; metadata := f (metadata g); protos := protos g;
     functions := functions g; clock := clock g; timers := timers g;
     trace := trace g |}.

Definition with_protos (f : gmap N N → gmap N N) (g : ObjectGraph) : ObjectGraph :=
  {| q := q g; maxDequeueSize := maxDequeueSize g; onDone := onDone g;
     busy := busy g; blacklistedObjects := blacklistedObjects g;
     blacklistedKeys := blacklistedKeys g; keysCache := keysCache g;
     timestamp := timestamp g;
     userAgent := userAgent g; key := key g; root := root g;
     data := data g; metadata := metadata g; protos := f (protos g);
     functions := functions g; clock := clock g; timers := timers g;
     trace := trace g |}.

Definition with_functions (f : list N → list N) (g : ObjectGraph) : ObjectGraph :=
  {| q := q g; maxDequeueSize := maxDequeueSize g; onDone := onDone g;
     busy := busy g; blacklistedObjects := blacklistedObjects g;
     blacklistedKeys := blacklistedKeys g; keysCache := keysCache g;
     timestamp := timestamp g;
     userAgent := userAgent g; key := key g; root := root g;
     data := data g; metadata := metadata g; protos := protos g;
     functions := f (functions g); clock := clock g; timers := timers g;
     trace := trace g |}.

Definition with_timers (n : nat) (g : ObjectGraph) : ObjectGraph :=
  {| q := q g; maxDequeueSize := maxDequeueSize g; onDone := onDone g;
     busy := busy g; blacklistedObjects := blacklistedObjects g;
     blacklistedKeys := blacklistedKeys g; keysCache := keysCache g;
     timestamp := timestamp g;
     userAgent := userAgent g; key := key g; root := root g;
     data := data g; metadata := metadata g; protos := protos g;
     functions := functions g; clock := clock g; timers := n;
     trace := trace g |}.

Definition log (e : event) (g : ObjectGraph) : ObjectGraph :=
  {| q := q g; maxDequeueSize := maxDequeueSize g; onDone := onDone g;
     busy := busy g; blacklistedObjects := blacklistedObjects g;
     blacklistedKeys := blacklistedKeys g; keysCache := keysCache g;
     timestamp := timestamp g;
     userAgent := userAgent g; key := key g; root := root g;
     data := data g; metadata := metadata g; protos := protos g;
     functions := functions g; clock := clock g; timers := timers g;
     trace := e :: trace g |}.

(** [this.timestamp = (new Date()).getTime()] *)
Definition stamp (g : ObjectGraph) : ObjectGraph :=
  {| q := q g; maxDequeueSize := maxDequeueSize g; onDone := onDone g;
     busy := busy g; blacklistedObjects := blacklistedObjects g;
     blacklistedKeys := blacklistedKeys g; keysCache := keysCache g;
     timestamp := Some (clock g);
     userAgent := userAgent g; key := key g; root := root g;
     data := data g; metadata := metadata g; protos := protos g;
     functions := functions g; clock := N.succ (clock g); timers := timers g;
     trace := trace g |}.

(** Lines 255-264 of [capture]: the stores are replaced by empty ones. *)
Definition reset (k : string) (r : value) (g : ObjectGraph) : ObjectGraph :=
  {| q := q g; maxDequeueSize := maxDequeueSize g; onDone := onDone g;
     busy := true; blacklistedObjects := blacklistedObjects g;
     blacklistedKeys := blacklistedKeys g; keysCache := ∅;
     timestamp := None; userAgent := userAgent g; key := k; root := r;
     data := ∅; metadata := ∅; protos := ∅;
     functions := []; clock := clock g; timers := timers g;
     trace := trace g |}.

(** [console.assert(cond, msg)] where it only reports. *)
Definition console_assert (cond : bool) (msg : string) (g : ObjectGraph)
  : ObjectGraph :=
  if cond then g else log (EvAssert msg) g.

(** ** Graph builder (lines 88-221) and capture (lines 245-287)

    The names are rewritten by the graph's NameRewriter, which the
    builder uses as a function on strings; the inspected heap does not
    change while a capture runs.  The assertions of the builder are
    calls of console.assert: a false condition is recorded in the trace
    and the call goes on (the invariant of a capture shows that none is
    ever recorded, so that a host where console.assert throws behaves
    the same). *)

Section Capture.

Variable rewriteName : string → string.
Variable h : heap.

Definition typeOf (o : value) : string :=
  match o with
  | VUndefined => "undefined"
  | VNull => "object"
  | VBool _ => "boolean"
  | VNumber _ => "number"
  | VString _ => "string"
  | VSymbol => "symbol"
  | VObj a => if callable (h a) then "function" else "object"
  end.

(** [maybeSkip(o)]: [inl id] is the identity or sentinel to return without
    a visit; [inr a] is the source's null, with the object that is then to
    be visited. *)
Definition maybeSkip (g : ObjectGraph) (o : value) : N + addr :=
  match o with
  | VNull => inl 6%N
  | VObj a =>
      match types (typeOf o) with
      | Some t => inl t
      | None =>
          match data g !! UID (h a) with
          | Some _ => inl (UID (h a))
          | None => inr a
          end
      end
  | _ => inl (default 0%N (types (typeOf o)))
  end.

(** [o[name]] for an own property name. *)
Definition getProperty (a : addr) (name : string) : access :=
  match find (λ p, String.eqb (pname p) name) (props (h a)) with
  | Some p => pget p
  | None => Reads VUndefined
  end.

Definition getOwnPropertyNames (a : addr) : list string :=
  map pname (props (h a)).

Definition getOwnPropertyDescriptor (a : addr) (name : string) : described :=
  match find (λ p, String.eqb (pname p) name) (props (h a)) with
  | Some p => pdesc p
  | None => NoDescriptor
  end.

Definition isPropertyBlacklisted (g : ObjectGraph) (a : addr) (name : string)
  : bool :=
  match getProperty a name with
  | Raises => false
  | Reads v => bool_decide (v ∈ blacklistedObjects g)
  end.

Definition storeObject (id : N) (g : ObjectGraph) : ObjectGraph :=
  let g := console_assert (bool_decide (data g !! id = None))
             "Repeated store-id" g in
  log (EvStore id) (with_data (insert id ∅) g).

Definition storeMetadata (id : N) (g : ObjectGraph) : ObjectGraph :=
  let g := console_assert (bool_decide (metadata g !! id = None))
             "Repeated store-metadata-id" g in
  with_metadata (insert id ∅) g.

Definition storeProto (oId protoId : N) (g : ObjectGraph) : ObjectGraph :=
  let g := console_assert
             (negb (truthy (default 0%N (protos g !! oId))))
             "Repeated store-proto" g in
  with_protos (insert oId protoId) g.

(** The names of [o] that are visited: neither a blacklisted key nor a
    property whose value is a blacklisted object. *)
Definition visitedNames (g : ObjectGraph) (a : addr) : list string :=
  filter (λ name, isKeyBlacklisted g name || isPropertyBlacklisted g a name = false)
         (getOwnPropertyNames a).

Definition visitObject (o : value) (g : ObjectGraph) : N * ObjectGraph :=
  match maybeSkip g o with
  | inl skip => (skip, g)
  | inr a =>
      let id := UID (h a) in
      let g := if callable (h a) then with_functions (λ fs, fs ++ [id]) g
               else g in
      let g := storeObject id g in
      let g := storeMetadata id g in
      let g := with_queue
                 (λ q, q ++ [VisitPrototype a; VisitPropertyDescriptors a]) g in
      let g := with_queue
                 (λ q, q ++ map (VisitProperty a) (visitedNames g a)) g in
      (id, g)
  end.

(** The tasks write through [dataMap] and [metadataMap], the maps that
    [visitObject] stored under the identity of [o]: a write to a map that
    is no longer in the store is not observable. *)
Definition visitPrototype (a : addr) (g : ObjectGraph) : ObjectGraph :=
  let '(protoId, g) := visitObject (proto (h a)) g in
  storeProto (UID (h a)) protoId g.

Definition visitProperty (a : addr) (propertyName : string) (g : ObjectGraph)
  : ObjectGraph :=
  let name := rewriteName propertyName in
  match getProperty a propertyName with
  | Reads v =>
      let '(id, g) := visitObject v g in
      with_data (alter (insert name id) (UID (h a))) g
  | Raises =>
      with_data (alter (insert name 7%N) (UID (h a))) g
  end.

Definition describe (d : list (string * bool)) : descriptor :=
  list_to_map
    (map (λ p : string * bool, (p.1, if p.2 then 1%N else 0%N)) d).

(** [try { descriptor = Object.getOwnPropertyDescriptor(o, name); }
    catch (e) {}]: the variable [descriptor] belongs to the function, not
    to the iteration, so that a read that throws leaves in it what the
    read before it returned. *)
Definition readDescriptor (a : addr) (name : string)
  (desc : option (list (string * bool))) : option (list (string * bool)) :=
  match getOwnPropertyDescriptor a name with
  | Descriptor d => Some d
  | NoDescriptor => None
  | DescriptorRaises => desc
  end.

(** The for loop of [visitPropertyDescriptors] over the names that are
    not skipped, with the value [desc] of [descriptor] on entry. *)
Fixpoint visitPropertyDescriptors_loop (a : addr) (names : list string)
  (desc : option (list (string * bool))) (g : ObjectGraph) : ObjectGraph :=
  match names with
  | [] => g
  | name :: names' =>
      let desc := readDescriptor a name desc in
      let g :=
        match desc with
        | Some d =>
            with_metadata (alter (insert name (describe d)) (UID (h a))) g
        | None => log (EvWarn name (UID (h a))) g
        end in
      visitPropertyDescriptors_loop a names' desc g
  end.

Definition visitPropertyDescriptors (a : addr) (g : ObjectGraph) : ObjectGraph :=
  visitPropertyDescriptors_loop a (visitedNames g a) None g.

Definition run_task (t : task) (g : ObjectGraph) : ObjectGraph :=
  match t with
  | VisitPrototype a => visitPrototype a g
  | VisitPropertyDescriptors a => visitPropertyDescriptors a g
  | VisitProperty a name => visitProperty a name g
  end.

(** The for loop of [TaskQueue.prototype.flush]: at most [n] tasks. *)
Fixpoint dequeue (n : nat) (g : ObjectGraph) : ObjectGraph :=
  match n with
  | O => g
  | S n' =>
      match q g with
      | [] => g
      | f :: rest => dequeue n' (run_task f (with_queue (λ _, rest) g))
      end
  end.

(** [opts.key || ''] *)
Definition rootKey (opts : captureOpts) : string :=
  default "" (optKey opts).

(** [typeof o === 'object' && o !== null ? o.$UID : o] *)
Definition rootOf (o : value) : value :=
  match o with
  | VObj a => if callable (h a) then o else VNumber (UID (h a))
  | _ => o
  end.

Definition fire (user : option nat) (g : ObjectGraph) : ObjectGraph :=
  match user with
  | Some c => log (EvCallback c) g
  | None => g
  end.

(** [capture], [flush] and the call of [q.onDone] call one another; a
    user callback is recorded in the trace and returns. *)
Fixpoint capture (fuel : nat) (o : value) (opts : captureOpts) (g : ObjectGraph)
  {struct fuel} : res ObjectGraph :=
  match fuel with
  | O => OutOfFuel
  | S fuel' =>
      let prevOnDone := onDone g in
      if busy g then Ret (with_onDone (CbRecapture prevOnDone o opts) g)
      else
        let g := log EvCapture (reset (rootKey opts) (rootOf o) g) in
        let g := with_onDone (CbCaptureDone prevOnDone (optOnDone opts)) g in
        if bool_decide (o ∈ blacklistedObjects g) then flush fuel' g
        else flush fuel' (visitObject o g).2
  end
with flush (fuel : nat) (g : ObjectGraph) {struct fuel} : res ObjectGraph :=
  match fuel with
  | O => OutOfFuel
  | S fuel' =>
      let g := log EvTick g in
      let g := dequeue (maxDequeueSize g) g in
      match q g with
      | _ :: _ => Ret (log EvAsync (with_timers (S (timers g)) g))
      | [] => call fuel' (onDone g) g
      end
  end
with call (fuel : nat) (cb : callback) (g : ObjectGraph) {struct fuel}
  : res ObjectGraph :=
  match fuel with
  | O => OutOfFuel
  | S fuel' =>
      match cb with
      | CbNoop => Ret g
      | CbUser c => Ret (log (EvCallback c) g)
      | CbCaptureDone prev user =>
          let g := stamp g in
          try! g := call fuel' prev g in
          Ret (with_busy false (fire user g))
      | CbRecapture prev o opts =>
          try! g := call fuel' prev g in
          capture fuel' o opts g
      end
  end.

(** The host runs a flush that [window.setTimeout] scheduled. *)
Definition timeout (fuel : nat) (g : ObjectGraph) : res ObjectGraph :=
  match timers g with
  | O => Ret g
  | S n => flush fuel (with_timers n g)
  end.

End Capture.

(** ** Mutation (lines 290-316) *)

(** [removeIds(ids)]; the keys cache is left as it is. *)
Definition removeIds (ids : list N) (g : ObjectGraph) : ObjectGraph :=
  let g := foldl (λ g id,
                    with_metadata (delete id)
                      (with_protos (delete id) (with_data (delete id) g)))
                 g ids in
  with_functions (filter (λ f, f ∉ ids)) g.

Record idKeyPair := { pair_id : N; pair_key : string }.

(** How a loop over pairs ended: the graph as it then is, and the
    exception if one was thrown. *)
Definition ended : Type := ObjectGraph * option error.

(** [this.data[id] && this.isType(this.data[id][key])] *)
Definition isPrimitiveEntry (g : ObjectGraph) (p : idKeyPair) : bool :=
  match data g !! pair_id p with
  | Some m =>
      match m !! pair_key p with
      | Some v => isType v
      | None => false
      end
  | None => false
  end.

(** [removePrimitives(idKeyPairs)].  [assertThrows] tells whether the
    host's console.assert throws on a false condition (Node.js before
    version 10) or only reports it (browsers, the console standard). *)
Fixpoint removePrimitives (assertThrows : bool) (idKeyPairs : list idKeyPair)
  (g : ObjectGraph) : ended :=
  match idKeyPairs with
  | [] => (g, None)
  | p :: rest =>
      if isPrimitiveEntry g p then
        removePrimitives assertThrows rest
          (with_data (alter (delete (pair_key p)) (pair_id p)) g)
      else if assertThrows then (g, Some AssertionError)
      else
        let g := log (EvAssert "Attempt to remove non-primitive") g in
        match data g !! pair_id p with
        | None => (g, Some TypeError)
        | Some _ =>
            removePrimitives assertThrows rest
              (with_data (alter (delete (pair_key p)) (pair_id p)) g)
        end
  end.

(** ** Serialization (lines 510-533) *)

(** The record that [toJSON] builds; [keys] is a field that no graph
    has. *)
Record json := {
  j_timestamp : option N;
  j_userAgent : string;
  j_root : value;
  j_key : string;
  j_data : gmap N (gmap string N);
  j_protos : gmap N N;
  j_types : string → option N;
  j_blacklistedKeys : list string;
  j_functions : list N;
  j_metadata : gmap N (gmap string descriptor);
}.

Definition toJSON (g : ObjectGraph) : json :=
  {| j_timestamp := timestamp g; j_userAgent := userAgent g;
     j_root := root g; j_key := key g; j_data := data g;
     j_protos := protos g; j_types := types;
     j_blacklistedKeys := blacklistedKeys g;
     j_functions := functions g; j_metadata := metadata g |}.

(** [new ObjectGraph()] followed by the copy of the listed fields.
    [classBlacklist] is [ObjectGraph.prototype.blacklistedObjects] and
    [now] the host's clock.  The constructor also puts the new instance
    on its own blacklist; the instance is not an object of the heaps
    considered here.  The [types] table that is read back is the one of
    the prototype. *)
Definition fromJSON (classBlacklist : list value) (now : N) (o : json)
  : ObjectGraph :=
  {| q := []; maxDequeueSize := 10; onDone := CbNoop; busy := false;
     blacklistedObjects := classBlacklist;
     blacklistedKeys := j_blacklistedKeys o; keysCache := ∅;
     timestamp := j_timestamp o; userAgent := j_userAgent o;
     key := j_key o; root := j_root o; data := j_data o;
     metadata := j_metadata o; protos := j_protos o;
     functions := j_functions o; clock := now; timers := 0; trace := [] |}.

(** [new ObjectGraph(opts)] *)
Definition newObjectGraph (classBlacklist : list value) (now : N) (ua : string)
  : ObjectGraph :=
  {| q := []; maxDequeueSize := 10; onDone := CbNoop; busy := false;
     blacklistedObjects := classBlacklist;
     blacklistedKeys := default_blacklistedKeys; keysCache := ∅;
     timestamp := None; userAgent := ua; key := ""; root := VUndefined;
     data := ∅; metadata := ∅; protos := ∅; functions := [];
     clock := now; timers := 0; trace := [] |}.

(** ** Well-formed stores

    The sentinels occupy 1..7 and 0 is falsy: the queries rely on
    identities that are neither (line 49 of the source asks it of
    [$UID]). *)

Definition identity (id : N) : Prop := (7 < id)%N.

Record well_formed (g : ObjectGraph) : Prop := {
  wf_data_key : ∀ id m, data g !! id = Some m → identity id;
  wf_data_value : ∀ id m name v,
      data g !! id = Some m → m !! name = Some v → v ≠ 0%N;
  wf_protos_key : ∀ id p, protos g !! id = Some p → identity id;
  wf_protos_value : ∀ id p, protos g !! id = Some p → p ≠ 0%N;
  wf_blacklist : isKeyBlacklisted g "__proto__" = true;
  wf_root : ∀ rt, root g = VNumber rt → rt ≠ 0%N;
}.

(** The same, as a check that evaluates. *)
Definition well_formedb (g : ObjectGraph) : bool :=
  bool_decide
    (map_Forall (λ id (m : gmap string N),
                   identity id ∧ map_Forall (λ _ v, v ≠ 0%N) m) (data g))
  && bool_decide (map_Forall (λ id p, identity id ∧ p ≠ 0%N) (protos g))
  && isKeyBlacklisted g "__proto__"
  && match root g with
     | VNumber rt => truthy rt
     | _ => true
     end.

(** [id] and the [n] delegation parents above it are stored, none has
    an entry for [name], and the chain then reaches a sentinel. *)
Inductive lacks_on_chain (g : ObjectGraph) (name : string) : N → nat → Prop :=
| lacks_sentinel id :
    isType id = true → lacks_on_chain g name id 0
| lacks_parent id m n :
    isType id = false →
    data g !! id = Some m →
    m !! name = None →
    lacks_on_chain g name (getPrototype g id) n →
    lacks_on_chain g name id (S n).

(** ** An example: a heap with a shared node and a cycle *)

Definition object (id : N) (fn : bool) (parent : value)
  (ps : list (string * value)) : jsobject :=
  {| UID := id; callable := fn; proto := parent;
     props := map (λ p : string * value,
                     {| pname := p.1; pget := Reads p.2;
                        pdesc := Descriptor [("value", true);
                                             ("writable", true)] |})
                  ps |}.

(** Object 0 is the root; 2 and 3 both refer to 4 (a diamond), 4 refers
    back to the root (a cycle); 4 delegates to 6, which has "x", the
    others to 1, which has not. *)
Definition diamond : heap := λ a,
  match a with
  | 0 => object 100 false (VObj 1)
           [("a", VNumber 1); ("self", VObj 0); ("l", VObj 2); ("r", VObj 3)]
  | 1 => object 101 false VNull []
  | 2 => object 102 false (VObj 1) [("d", VObj 4)]
  | 3 => object 103 false (VObj 1) [("d", VObj 4)]
  | 4 => object 104 true (VObj 6) [("up", VObj 0)]
  | 6 => object 106 false (VObj 1) [("x", VString "inherited")]
  | _ => object 105 false VNull []
  end.

Definition no_opts : captureOpts := {| optKey := None; optOnDone := None |}.

Definition or_else (g : ObjectGraph) (r : res ObjectGraph) : ObjectGraph :=
  match r with
  | Ret g' => g'
  | _ => g
  end.

Definition fresh_graph : ObjectGraph := newObjectGraph [VObj 5] 0 "NodeJS/v6".

(** The capture of the root of [diamond]: the first flush runs ten
    tasks, the flush that the host then runs the rest. *)
Definition diamond_started : ObjectGraph :=
  or_else fresh_graph (capture id diamond 8 (VObj 0) no_opts fresh_graph).

Definition diamond_graph : ObjectGraph :=
  or_else diamond_started (timeout id diamond 8 diamond_started).

(** Two objects whose identities straddle a power of ten. *)
Definition pair_heap : heap := λ a,
  match a with
  | 0 => object 99 false VNull [("next", VObj 1)]
  | _ => object 100 false VNull []
  end.

Definition pair_graph : ObjectGraph :=
  or_else fresh_graph (capture id pair_heap 8 (VObj 0) no_opts fresh_graph).

(** A function with a property that refers to an object. *)
Definition function_heap : heap := λ a,
  match a with
  | 0 => object 200 true VNull [("prototype", VObj 1)]
  | _ => object 201 false VNull []
  end.

Definition function_graph : ObjectGraph :=
  or_else fresh_graph
    (capture id function_heap 8 (VObj 0) no_opts fresh_graph).

(** The diamond graph after [getKeys(104)], which caches the key ".l.d",
    and then [removeIds([102])], which removes the object that "l"
    refers to. *)
Definition diamond_queried : ObjectGraph :=
  match getKeys diamond_graph 104 with
  | Ret (_, g) => g
  | _ => diamond_graph
  end.

Definition diamond_removed : ObjectGraph := removeIds [102%N] diamond_queried.

(** An object with two properties; the read of the descriptor of the
    second throws. *)
Definition stale_heap : heap := λ _,
  {| UID := 100; callable := false; proto := VNull;
     props := [ {| pname := "a"; pget := Reads (VNumber 1);
                   pdesc := Descriptor [("value", true);
                                        ("writable", false)] |};
                {| pname := "b"; pget := Reads VNull;
                   pdesc := DescriptorRaises |} ] |}.

Definition stale_graph : ObjectGraph :=
  or_else fresh_graph (capture id stale_heap 8 (VObj 0) no_opts fresh_graph).

(** A plain object whose delegation parent has the own property
    "toString", a function. *)
Definition literal_heap : heap := λ a,
  match a with
  | 0 => object 100 false (VObj 1) [("x", VNumber 1)]
  | 1 => object 101 false VNull [("toString", VObj 2)]
  | _ => object 102 true VNull []
  end.

Definition literal_graph : ObjectGraph :=
  or_else fresh_graph
    (capture id literal_heap 8 (VObj 0) no_opts fresh_graph).

(** ** The keys cache

    What [getKeys] finds in the cache is what it would compute. *)
Definition cache_ok (g : ObjectGraph) : Prop :=
  ∀ id ks, keysCache g !! id = Some ks →
    ∃ r, getKeys_ (getKeys_fuel g) g id ∅ = Ret r
         ∧ ks = sort_by keys_comparefn r.1.

(** The fields that the queries read. *)
Definition same_stores (g g' : ObjectGraph) : Prop :=
  root g = root g' ∧ key g = key g' ∧ data g = data g'
  ∧ protos g = protos g' ∧ blacklistedKeys g = blacklistedKeys g'.

(** [a] has the entry [b] with the value [c]. *)
Definition refers_by_data (d : gmap N (gmap string N)) (a : N) (b : string)
  (c : N) : Prop :=
  ∃ ma, d !! a = Some ma ∧ ma !! b = Some c.

(** What a recursive call of [getKeys_] is relied on for: called on an
    identity of the universe that is not yet seen, it returns, and keeps
    what was seen. *)
Definition rec_returns (g : ObjectGraph) (lower : gset N)
  (rec : N → gset N → res keys_result) : Prop :=
  ∀ i s, i ∈ universe g → i ∉ s → lower ⊆ s →
         ∃ r, rec i s = Ret r ∧ s ⊆ r.2.

(** The root is a number that the reconstruction has already seen. *)
Definition root_seen (g : ObjectGraph) (seen : gset N) : Prop :=
  ∃ rt, root g = VNumber rt ∧ rt ∈ seen.

Definition rec_single (g : ObjectGraph) (rec : N → gset N → res keys_result)
  : Prop :=
  ∀ i s r, i ∉ s → rec i s = Ret r →
    s ⊆ r.2 ∧ length r.1 ≤ 1 ∧ (r.1 ≠ [] → root_seen g r.2)
    ∧ (root_seen g s → r.1 = []).

Definition acc_single (g : ObjectGraph) (allKeys : list string) (seen : gset N)
  : Prop :=
  length allKeys ≤ 1 ∧ (allKeys ≠ [] → root_seen g seen).

(** The order that the spec gives the keys: shorter first, and among
    keys of one length the lexicographically smaller first. *)
Definition key_le (a b : string) : Prop :=
  String.length a < String.length b
  ∨ (String.length a = String.length b ∧ String.leb a b = true).

(** The path that [getKeys_] builds for the segments [segs] below the
    root key [k]. *)
Definition path_of (k : string) (segs : list string) : string :=
  foldl (λ prefix name, prefix +:+ "." +:+ name) k segs.

(** A segment of a reconstructed path: the delegation link, or the name
    of a stored entry. *)
Definition seg_ok (g : ObjectGraph) (name : string) : Prop :=
  name = "__proto__" ∨ ∃ a c, refers_by_data (data g) a name c.

(** [p] is the root key followed by segments that [lookup_] resolves
    from the root [rt] to [id]. *)
Definition resolves (g : ObjectGraph) (rt id : N) (p : string) : Prop :=
  ∃ segs, p = path_of (key g) segs ∧ Forall (seg_ok g) segs
          ∧ ∀ f, lookup_ (S f) g segs (Num rt) = Ret (Some (Num id)).

(** No stored property name contains a dot. *)
Fixpoint dot_free (s : string) : bool :=
  match s with
  | EmptyString => true
  | String c s' => negb (Ascii.eqb c ".") && dot_free s'
  end.

Definition names_dot_free (g : ObjectGraph) : Prop :=
  ∀ a name c, refers_by_data (data g) a name c → dot_free name = true.

(** The path that [lookup] is given for the segments: they are joined
    by dots. *)
Definition relative (segs : list string) : string :=
  match segs with
  | [] => ""
  | name :: segs' => path_of name segs'
  end.

(** Pairs for [removePrimitives] on the diamond graph: a reference, a
    sentinel, and an identity that is not stored. *)
Definition root_l : idKeyPair := {| pair_id := 100; pair_key := "l" |}.
Definition root_a : idKeyPair := {| pair_id := 100; pair_key := "a" |}.
Definition gone_a : idKeyPair := {| pair_id := 55; pair_key := "a" |}.

(** ** Idle graphs

    No capture is waiting behind another one in [q.onDone]; [depth] is
    the number of nested calls that running the callback takes. *)
Fixpoint no_recapture (cb : callback) : bool :=
  match cb with
  | CbNoop | CbUser _ => true
  | CbCaptureDone prev _ => no_recapture prev
  | CbRecapture _ _ _ => false
  end.

Fixpoint depth (cb : callback) : nat :=
  match cb with
  | CbCaptureDone prev _ => S (depth prev)
  | CbRecapture prev _ _ => S (depth prev)
  | _ => 1
  end.

Record idle (g : ObjectGraph) : Prop := {
  idle_busy : busy g = false;
  idle_queue : q g = [];
  idle_onDone : no_recapture (onDone g) = true;
}.

(** What a callback without a queued capture leaves as it is. *)
Definition same_capture (g g' : ObjectGraph) : Prop :=
  data g' = data g ∧ metadata g' = metadata g ∧ protos g' = protos g
  ∧ functions g' = functions g ∧ root g' = root g ∧ key g' = key g
  ∧ q g' = q g ∧ timers g' = timers g ∧ onDone g' = onDone g
  ∧ keysCache g' = keysCache g
  ∧ blacklistedObjects g' = blacklistedObjects g
  ∧ blacklistedKeys g' = blacklistedKeys g
  ∧ maxDequeueSize g' = maxDequeueSize g
  ∧ ∃ evs, trace g' = evs ++ trace g.

Definition with_callback : captureOpts := {| optKey := None; optOnDone := Some 1 |}.

(** The diamond captured once more, on the graph that holds it. *)
Definition diamond_again_started : ObjectGraph :=
  or_else diamond_graph
    (capture id diamond 8 (VObj 0) with_callback diamond_graph).

Definition diamond_again : ObjectGraph :=
  or_else diamond_again_started (timeout id diamond 8 diamond_again_started).

(** ** The states of a capture

    [objs] lists the objects of the inspected heap: it is closed under
    the delegation link and the property values, and the $UID values of
    its objects are distinct and above the sentinels. *)

Definition live_value (objs : list addr) (v : value) : bool :=
  match v with
  | VObj b => bool_decide (b ∈ objs)
  | _ => true
  end.

Definition live_access (objs : list addr) (x : access) : bool :=
  match x with
  | Reads v => live_value objs v
  | Raises => true
  end.

Definition heap_ok (h : heap) (objs : list addr) : bool :=
  bool_decide (NoDup (map (λ a, UID (h a)) objs))
  && forallb (λ a, bool_decide (identity (UID (h a)))
                   && live_value objs (proto (h a))
                   && forallb (λ p, live_access objs (pget p)) (props (h a)))
             objs.

(** The identities stored since the capture began, latest first, and
    the assertions that failed since then. *)
Fixpoint visits (tr : list event) : list N :=
  match tr with
  | [] => []
  | EvCapture :: _ => []
  | EvStore id :: tr' => id :: visits tr'
  | _ :: tr' => visits tr'
  end.

Fixpoint failed (tr : list event) : list string :=
  match tr with
  | [] => []
  | EvCapture :: _ => []
  | EvAssert msg :: tr' => msg :: failed tr'
  | _ :: tr' => failed tr'
  end.

Definition task_obj (t : task) : addr :=
  match t with
  | VisitPrototype a | VisitPropertyDescriptors a | VisitProperty a _ => a
  end.

Definition proto_tasks (ts : list task) : list addr :=
  omap (λ t, match t with VisitPrototype a => Some a | _ => None end) ts.

(** The first visit of an object: what [visitObject] does after
    [maybeSkip] has returned null. *)
Definition first_visit (h : heap) (a : addr) (g : ObjectGraph) : ObjectGraph :=
  with_queue
    (λ q, q ++ [VisitPrototype a; VisitPropertyDescriptors a]
            ++ map (VisitProperty a) (visitedNames h g a))
    (with_metadata (insert (UID (h a)) ∅)
       (log (EvStore (UID (h a)))
          (with_data (insert (UID (h a)) ∅)
             (if callable (h a)
              then with_functions (λ fs, fs ++ [UID (h a)]) g else g)))).

Section CaptureStates.

Variable h : heap.
Variable objs : list addr.

Definition stored (g : ObjectGraph) (a : addr) : Prop :=
  is_Some (data g !! UID (h a)).

(** The value needs no visit any more: it is a primitive, or an object
    that has its identity. *)
Definition visited_value (g : ObjectGraph) (v : value) : Prop :=
  match v with
  | VObj b => stored g b
  | _ => True
  end.

Definition visited_access (g : ObjectGraph) (x : access) : Prop :=
  match x with
  | Reads v => visited_value g v
  | Raises => True
  end.

(** The task has done what the invariant expects of it. *)
Definition task_done (g : ObjectGraph) (t : task) : Prop :=
  match t with
  | VisitPrototype a => visited_value g (proto (h a))
  | VisitProperty a name => visited_access g (getProperty h a name)
  | VisitPropertyDescriptors _ => True
  end.

(** The invariant of a capture in flight; [running] holds the task that
    has been taken from the queue and is being run. *)
Record capture_inv (running : list task) (g : ObjectGraph) : Prop := {
  inv_visits : ∀ id, id ∈ visits (trace g) ↔ id ∈ dom (data g);
  inv_nodup : NoDup (visits (trace g));
  inv_failed : failed (trace g) = [];
  inv_metadata : dom (metadata g) = dom (data g);
  inv_protos : dom (protos g) ⊆ dom (data g);
  inv_live : ∀ id, id ∈ dom (data g) → ∃ a, a ∈ objs ∧ UID (h a) = id;
  inv_tasks : ∀ t, t ∈ running ++ q g →
                   task_obj t ∈ objs ∧ stored g (task_obj t);
  inv_proto_once : NoDup (proto_tasks (running ++ q g));
  inv_proto_none : ∀ a, VisitPrototype a ∈ running ++ q g →
                        protos g !! UID (h a) = None;
  inv_closed : ∀ a, a ∈ objs → stored g a →
      (VisitPrototype a ∈ running ++ q g ∨ visited_value g (proto (h a)))
      ∧ ∀ name, name ∈ visitedNames h g a →
          VisitProperty a name ∈ running ++ q g
          ∨ visited_access g (getProperty h a name);
  inv_values : ∀ id m name v,
      data g !! id = Some m → m !! name = Some v → v ≠ 0%N;
  inv_parents : ∀ id p, protos g !! id = Some p → p ≠ 0%N;
  inv_onDone : no_recapture (onDone g) = true;
}.

(** The state of the capture of [o] that was called on [g0] with [opts],
    between the calls of the host: the invariant holds, the root is
    visited, and either the graph is busy and one flush is scheduled, or
    it is not and the queue is empty. *)
Definition run_ok (o : value) (opts : captureOpts) (g0 g : ObjectGraph)
  : Prop :=
  capture_inv [] g ∧ visited_value g o
  ∧ blacklistedKeys g = blacklistedKeys g0
  ∧ blacklistedObjects g = blacklistedObjects g0
  ∧ maxDequeueSize g = maxDequeueSize g0
  ∧ onDone g = CbCaptureDone (onDone g0) (optOnDone opts)
  ∧ if busy g then timers g = 1 else timers g = 0 ∧ q g = [].

(** The objects that the capture of [o] is to visit: [o] itself, the
    delegation parents, and the values of the properties that are not
    blacklisted. *)
Inductive reachable (g : ObjectGraph) (o : value) : addr → Prop :=
| reach_root a : o = VObj a → reachable g o a
| reach_proto a b :
    reachable g o a → proto (h a) = VObj b → reachable g o b
| reach_property a name b :
    reachable g o a → name ∈ visitedNames h g a →
    getProperty h a name = Reads (VObj b) → reachable g o b.

(** What is left to do: the tasks of the queue, and for every object
    not yet stored the tasks that its visit will add, and one more. *)
Definition pending (stored_ids : gset N) : nat :=
  sum_list (map (λ a, 3 + length (props (h a)))
                (filter (λ a, UID (h a) ∉ stored_ids) objs)).

Definition work (g : ObjectGraph) : nat :=
  length (q g) + pending (dom (data g)).

End CaptureStates.

(** What running tasks leaves as it is, and the growth of the store. *)
Definition task_frame (g g' : ObjectGraph) : Prop :=
  dom (data g) ⊆ dom (data g') ∧ busy g' = busy g ∧ timers g' = timers g
  ∧ maxDequeueSize g' = maxDequeueSize g ∧ onDone g' = onDone g
  ∧ blacklistedKeys g' = blacklistedKeys g
  ∧ blacklistedObjects g' = blacklistedObjects g.

(** The fields that only [capture] itself sets. *)
Definition query_frame (g g' : ObjectGraph) : Prop :=
  root g' = root g ∧ key g' = key g ∧ keysCache g' = keysCache g.

Section CaptureRuns.

Variable rewriteName : string → string.
Variable h : heap.

(** [n] flushes that the host runs after their timeouts. *)
Fixpoint timeouts (n : nat) (fuel : nat) (g : ObjectGraph) : res ObjectGraph :=
  match n with
  | O => Ret g
  | S n' =>
      try! g' := timeout rewriteName h fuel g in
      timeouts n' fuel g'
  end.

(** The states that the capture of [o] on [g0] goes through: the one
    that the call of [capture] returns, and those after each flush that
    the host runs. *)
Inductive capturing (g0 : ObjectGraph) (o : value) (opts : captureOpts)
  : ObjectGraph → Prop :=
| capturing_call fuel g :
    capture rewriteName h fuel o opts g0 = Ret g → capturing g0 o opts g
| capturing_timeout fuel g g' :
    capturing g0 o opts g → timeout rewriteName h fuel g = Ret g' →
    capturing g0 o opts g'.

End CaptureRuns.

(** ** What a capture records

    [isFunction] and [getFunctions] (lines 331-345). *)

Definition isFunction (g : ObjectGraph) (id : N) : bool :=
  truthy id && existsb (N.eqb id) (functions g).

Definition getFunctions (g : ObjectGraph) : list N := functions g.

Section Recorded.

Variable rewriteName : string → string.
Variable h : heap.
Variable objs : list addr.

(** The identity or sentinel that [visitObject] returns for a value, and
    what [visitProperty] stores for a property. *)
Definition id_of (v : value) : N :=
  match v with
  | VObj a => UID (h a)
  | VNull => 6%N
  | _ => default 0%N (types (typeOf h v))
  end.

Definition id_of_access (x : access) : N :=
  match x with
  | Reads v => id_of v
  | Raises => 7%N
  end.

(** [id] is the $UID of a callable object. *)
Definition is_function_id (id : N) : bool :=
  existsb (λ a, (UID (h a) =? id)%N && callable (h a)) objs.

(** What the stores hold while a capture runs: the callable objects in
    the order of their visits, for every stored object its delegation
    link and the value of each visited property (of one of them, where
    two names are rewritten to the same one) unless the task that records
    it is still to run, and nothing else. *)
Record record_inv (running : list task) (g : ObjectGraph) : Prop := {
  rec_functions :
    functions g
    = rev (filter (λ id, is_function_id id = true) (visits (trace g)));
  rec_tasks : ∀ a name, VisitProperty a name ∈ running ++ q g →
      name ∈ visitedNames h g a;
  rec_proto : ∀ a, a ∈ objs → stored h g a →
      VisitPrototype a ∈ running ++ q g
      ∨ protos g !! UID (h a) = Some (id_of (proto (h a)));
  rec_protos : ∀ id p, protos g !! id = Some p →
      ∃ a, a ∈ objs ∧ UID (h a) = id ∧ p = id_of (proto (h a));
  rec_property : ∀ a name, a ∈ objs → stored h g a →
      name ∈ visitedNames h g a →
      VisitProperty a name ∈ running ++ q g
      ∨ ∃ name', name' ∈ visitedNames h g a
                 ∧ rewriteName name' = rewriteName name
                 ∧ (data g !! UID (h a)) ≫= (.!! rewriteName name)
                   = Some (id_of_access (getProperty h a name'));
  rec_entries : ∀ id m k v, data g !! id = Some m → m !! k = Some v →
      ∃ a name, a ∈ objs ∧ UID (h a) = id ∧ name ∈ visitedNames h g a
                ∧ k = rewriteName name
                ∧ v = id_of_access (getProperty h a name);
  rec_values : ∀ id m k v, data g !! id = Some m → m !! k = Some v →
      isType v = true ∨ v ∈ dom (data g);
  rec_parents : ∀ id p, protos g !! id = Some p →
      isType p = true ∨ p ∈ dom (data g);
}.

(** The map of descriptors that [visitPropertyDescriptors] fills for an
    object, and what [metadata] holds while a capture runs: for every
    stored object the empty map while that task is still to run, and the
    filled one from then on. *)
Fixpoint descriptors_loop (a : addr) (names : list string)
  (desc : option (list (string * bool))) (m : gmap string descriptor)
  : gmap string descriptor :=
  match names with
  | [] => m
  | name :: names' =>
      let desc := readDescriptor h a name desc in
      descriptors_loop a names' desc
        (match desc with
         | Some d => <[name := describe d]> m
         | None => m
         end)
  end.

Definition descriptors_of (g : ObjectGraph) (a : addr)
  : gmap string descriptor :=
  descriptors_loop a (visitedNames h g a) None ∅.

(** The value of the variable [descriptor] of [visitPropertyDescriptors]
    after the names [names]: what the latest read that did not throw
    returned, and undefined when there is none. *)
Definition descriptor_after (a : addr) (names : list string)
  : option (list (string * bool)) :=
  foldl (λ desc name, readDescriptor h a name desc) None names.

Definition metadata_inv (running : list task) (g : ObjectGraph) : Prop :=
  ∀ a, a ∈ objs → stored h g a →
    (VisitPropertyDescriptors a ∈ running ++ q g
     ∧ metadata g !! UID (h a) = Some ∅)
    ∨ metadata g !! UID (h a) = Some (descriptors_of g a).

(** The objects that the capture of [o] has reached: the root, and the
    delegation parents and the values of the visited properties of the
    stored objects that it has reached.  Nothing else is stored. *)
Inductive reached (o : value) (g : ObjectGraph) : addr → Prop :=
| reached_root a : o = VObj a → reached o g a
| reached_proto a b :
    reached o g a → a ∈ objs → stored h g a → proto (h a) = VObj b →
    reached o g b
| reached_property a name b :
    reached o g a → a ∈ objs → stored h g a → name ∈ visitedNames h g a →
    getProperty h a name = Reads (VObj b) → reached o g b.

Definition only_reachable (o : value) (g : ObjectGraph) : Prop :=
  ∀ a, a ∈ objs → stored h g a → reached o g a.

End Recorded.

(** A path in the heap from the object [a]: each segment is the
    rewritten name of a visited own property of the object, or of the
    nearest object on its delegation chain that has one of that name
    (for a segment that is not a name of a method of Object.prototype:
    an object without such an own property is not passed under that
    name), or "__proto__" for the delegation link; the path leads to the
    identity of an object, or ends at the sentinel of a value that is
    none. *)
Inductive heap_path (rewriteName : string → string) (h : heap)
  (g : ObjectGraph) : addr → list string → N → Prop :=
| path_here a : heap_path rewriteName h g a [] (UID (h a))
| path_property_end a name :
    name ∈ visitedNames h g a →
    (∀ b, getProperty h a name ≠ Reads (VObj b)) →
    heap_path rewriteName h g a [rewriteName name]
      (id_of_access h (getProperty h a name))
| path_property a name b segs id :
    name ∈ visitedNames h g a → getProperty h a name = Reads (VObj b) →
    heap_path rewriteName h g b segs id →
    heap_path rewriteName h g a (rewriteName name :: segs) id
| path_proto_end a :
    (∀ b, proto (h a) ≠ VObj b) →
    heap_path rewriteName h g a ["__proto__"] (id_of h (proto (h a)))
| path_proto a b segs id :
    proto (h a) = VObj b → heap_path rewriteName h g b segs id →
    heap_path rewriteName h g a ("__proto__" :: segs) id
| path_inherited a b seg segs id :
    (∀ name, name ∈ visitedNames h g a → rewriteName name ≠ seg) →
    seg ≠ "__proto__" → isInherited seg = false →
    proto (h a) = VObj b → heap_path rewriteName h g b (seg :: segs) id →
    heap_path rewriteName h g a (seg :: segs) id.

(** ** Type names (lines 69-73, 325-328)

    Modelled from the spec: [remap['a:b=>b:[a]']] of ya-stdlib-js on
    [types] lists under each sentinel the type names that map to it, in
    the order of the names of [types]; [invTypes] keeps the first. *)
Definition types_names : list string :=
  ["undefined"; "boolean"; "number"; "string"; "symbol"; "null"; "exception"].

Definition invTypes (id : N) : option string :=
  head (filter (λ name, types name = Some id) types_names).

(** [getType(id)]; [None] is undefined. *)
Definition getType (id : N) : option string :=
  if isType id then invTypes id else Some "object".

(** ** Names of an object (lines 417-425)

    [getObjectKeys(id, opt_predicate)]; the predicate is a function that
    returns and has no effect. *)
Definition getObjectKeys (g : ObjectGraph) (id : N)
  (opt_predicate : option (N → string → bool)) : list string :=
  match data g !! id with
  | None => []
  | Some m =>
      match opt_predicate with
      | None => sort_strings (ownNames m)
      | Some p =>
          sort_strings
            (filter (λ key, p (default 0%N (m !! key)) key = true) (ownNames m))
      end
  end.

(** ** All keys (lines 444-474)

    The loops of [getAllKeys_] and [getAllKeysMap_] over [getAllIds()];
    each call of [getKeys] may fill the cache.  The object that
    [getAllKeysMap_] builds maps each key to 1: it is a set of keys. *)
Fixpoint getAllKeys_loop (ids : list N) (map : gmap N (list string))
  (g : ObjectGraph) : res (gmap N (list string) * ObjectGraph) :=
  match ids with
  | [] => Ret (map, g)
  | id :: ids' =>
      try! r := getKeys g id in
      getAllKeys_loop ids' (<[id := r.1]> map) r.2
  end.

Definition getAllKeys_ (g : ObjectGraph)
  : res (gmap N (list string) * ObjectGraph) :=
  getAllKeys_loop (getAllIds_ g) ∅ g.

Fixpoint getAllKeysMap_loop (ids : list N) (map : gset string)
  (g : ObjectGraph) : res (gset string * ObjectGraph) :=
  match ids with
  | [] => Ret (map, g)
  | id :: ids' =>
      try! r := getKeys g id in
      getAllKeysMap_loop ids' (foldl (λ map key, {[key]} ∪ map) map r.1) r.2
  end.

Definition getAllKeysMap_ (g : ObjectGraph) : res (gset string * ObjectGraph) :=
  getAllKeysMap_loop (getAllIds_ g) ∅ g.

(** ** Clones (lines 224-238)

    [new ObjectGraph(this)] reads of the graph that it is given as
    options only [blacklistedObjects], [nameRewriter] and [keysCache]:
    the clone has a queue of its own with the default settings, and
    neither root nor key nor timestamp (the key is undefined, which no
    query of a graph without a root reads), and the user agent [ua] and
    the blacklisted keys of the prototype.  The constructor also puts
    the clone on the blacklist, which it shares with the original; the
    clone is not an object of the heaps considered here.  The stores
    are then copied and the identities removed; the copies are shallow,
    so that the map of an identity is the one of the original. *)
Definition cloneWithout (now : N) (ua : string) (withoutIds : list N)
  (g : ObjectGraph) : ObjectGraph :=
  removeIds withoutIds
    {| q := []; maxDequeueSize := 10; onDone := CbNoop; busy := false;
       blacklistedObjects := blacklistedObjects g;
       blacklistedKeys := default_blacklistedKeys;
       keysCache := keysCache g;
       timestamp := None; userAgent := ua; key := ""; root := VUndefined;
       data := data g; metadata := metadata g; protos := protos g;
       functions := functions g; clock := now; timers := 0; trace := [] |}.

Definition clone (now : N) (ua : string) (g : ObjectGraph) : ObjectGraph :=
  cloneWithout now ua [] g.

(** [blacklistObject(o)] of an instance. *)
Definition blacklistObject (o : value) (g : ObjectGraph) : ObjectGraph :=
  {| q := q g; maxDequeueSize := maxDequeueSize g; onDone := onDone g;
     busy := busy g; blacklistedObjects := blacklistedObjects g ++ [o];
     blacklistedKeys := blacklistedKeys g; keysCache := keysCache g;
     timestamp := timestamp g; userAgent := userAgent g; key := key g;
     root := root g; data := data g; metadata := metadata g;
     protos := protos g; functions := functions g; clock := clock g;
     timers := timers g; trace := trace g |}.

(** The identity and the key of a pair. *)
Definition pair_of (p : idKeyPair) : N * string := (pair_id p, pair_key p).

(** ** Hidden names of style declarations (BrowserObjectGraph)

    The branch of [getOwnPropertyNames] for an object that
    [isCSSStyleDecl_] accepts.  [propNames] are the own names of the
    object and [get] reads a property of it by name, through its
    prototypes and the host; [toUpperCase] is the host's. *)
Module BrowserObjectGraph.

Section Names.

Variable toUpperCase : string → string.
Variable get : string → access.

Definition charAt0 (s : string) : string :=
  match s with
  | String c _ => String c EmptyString
  | EmptyString => EmptyString
  end.

Definition substr1 (s : string) : string :=
  match s with
  | String _ s' => s'
  | EmptyString => EmptyString
  end.

Definition webkitName (propName : string) : string :=
  "webkit" +:+ toUpperCase (charAt0 propName) +:+ substr1 propName.

(** One round of the loop over [propNames]. *)
Definition probe (propNames newPropNames : list string) (propName : string)
  : list string :=
  if String.prefix "webkit" propName then newPropNames
  else if bool_decide (webkitName propName ∈ propNames) then newPropNames
  else if bool_decide (webkitName propName ∈ newPropNames) then newPropNames
  else match get (webkitName propName) with
       | Reads VUndefined => newPropNames
       | _ => newPropNames ++ [webkitName propName]
       end.

Definition getOwnPropertyNames (propNames : list string) : list string :=
  propNames ++ foldl (probe propNames) [] propNames.

(** A hidden name: the webkit-prefixed form of an own name that does
    not start with 'webkit'; it is no own name, and reads as a value
    other than undefined or throws. *)
Definition hidden (propNames : list string) (w : string) : Prop :=
  (w ∉ propNames) ∧ get w ≠ Reads VUndefined
  ∧ ∃ p, p ∈ propNames ∧ String.prefix "webkit" p = false ∧ w = webkitName p.

End Names.

End BrowserObjectGraph.

(** ** A capture that was requested while the graph was busy

    The callbacks that lead to the capture of [o] that waits behind a
    capture in flight: the one that [capture] then puts in [q.onDone],
    and the completion callbacks of the captures that wrap it. *)
Inductive recaptures (o : value) (opts : captureOpts) : callback → Prop :=
| recaptures_queued prev user :
    no_recapture prev = true →
    recaptures o opts (CbRecapture (CbCaptureDone prev user) o opts)
| recaptures_done cb user :
    recaptures o opts cb → recaptures o opts (CbCaptureDone cb user).

(** ** Completion

    The user callbacks that were called since the capture began, latest
    first, and those that running a completion callback calls. *)
Fixpoint callbacks (tr : list event) : list nat :=
  match tr with
  | [] => []
  | EvCapture :: _ => []
  | EvCallback c :: tr' => c :: callbacks tr'
  | _ :: tr' => callbacks tr'
  end.

Fixpoint fired (cb : callback) : list nat :=
  match cb with
  | CbNoop => []
  | CbUser c => [c]
  | CbCaptureDone prev user =>
      match user with
      | Some c => c :: fired prev
      | None => fired prev
      end
  | CbRecapture _ _ _ => []
  end.

(** ** A blacklisted delegation parent

    A heap whose root refers to its delegation parent by a property
    too, and its capture by a graph that has the parent on its
    blacklist. *)
Definition guarded_heap : heap := λ a,
  match a with
  | 0 => object 300 false (VObj 1) [("secret", VObj 1); ("open", VObj 2)]
  | 1 => object 301 false VNull [("inner", VNumber 7)]
  | _ => object 302 false VNull []
  end.

Definition guarded_graph : ObjectGraph :=
  or_else fresh_graph
    (capture id guarded_heap 8 (VObj 0) no_opts
       (blacklistObject (VObj 1) fresh_graph)).

(** ** Identities that have a key

    [id] is referred to from [rt] through entries of [data] whose names
    are not blacklisted. *)
Inductive refers_from (g : ObjectGraph) (rt : N) : N → Prop :=
| refers_here : refers_from g rt rt
| refers_step a b c :
    refers_from g rt a → refers_by_data (data g) a b c →
    isKeyBlacklisted g b = false → refers_from g rt c.

(** The identities that were seen after [old], the root apart, have
    their referrers in [new]. *)
Definition referrers_seen (g : ObjectGraph) (old new : gset N) : Prop :=
  ∀ y, y ∈ new → y ∉ old → VNumber y ≠ root g →
    ∀ z name, refers_by_data (data g) z name y →
              isKeyBlacklisted g name = false → z ∈ new.

(** What a recursive call of [getKeys_] is relied on for, on an
    identity that is not yet seen: it sees the identity and the
    referrers of what it sees, and it returns a key when it sees the
    root. *)
Definition rec_searches (g : ObjectGraph)
  (rec : N → gset N → res keys_result) : Prop :=
  ∀ i s r, i ∉ s → rec i s = Ret r →
    {[i]} ∪ s ⊆ r.2 ∧ referrers_seen g s r.2
    ∧ ∀ rt, root g = VNumber rt → rt ∉ s → rt ∈ r.2 → r.1 ≠ [].

(** The objects that the root owns: those that a path of visited
    properties leads to. *)
Inductive owns (h : heap) (g : ObjectGraph) (a : addr) : addr → Prop :=
| owns_self : owns h g a a
| owns_step b name c :
    owns h g a b → name ∈ visitedNames h g b →
    getProperty h b name = Reads (VObj c) → owns h g a c.

(** * Properties *)

(** ** Forward lookup *)

Lemma truthy_ne0 (n : N) : n ≠ 0%N → truthy n = true.
Proof. intros Hn. unfold truthy. by destruct (N.eqb_spec n 0). Qed.

Lemma identity_truthy (id : N) : identity id → truthy id = true.
Proof. unfold identity. intros Hid. apply truthy_ne0. lia. Qed.

Lemma identity_not_type (id : N) : identity id → isType id = false.
Proof.
  unfold identity, isType, FIRST_TYPE, LAST_TYPE. intros Hid.
  apply andb_false_iff. right. apply N.leb_gt. lia.
Qed.

(** Resolution of a path continues from the identity that its first part
    resolves to. *)
Lemma lookup__app (fuel : nat) (g : ObjectGraph) (pre rest : list string)
  (r id : ident) :
  lookup_ fuel g pre r = Ret (Some id) →
  lookup_ fuel g (pre ++ rest) r = lookup_ fuel g rest id.
Proof.
  revert r. induction pre as [|name pre IH]; intros [r|r]; simpl.
  - destruct (truthy r); congruence.
  - congruence.
  - destruct (String.eqb name "__proto__").
    + destruct (isType r); [discriminate | apply IH].
    + destruct (lookup_while fuel g name r) as [[nextId|] | e |]; simpl;
        try discriminate.
      apply IH.
  - destruct (String.eqb name "__proto__"); [apply IH | discriminate].
Qed.

Lemma lookup_while_found (fuel : nat) (g : ObjectGraph) (name : string)
  (id v : N) (m : gmap string N) :
  isType id = false → data g !! id = Some m → m !! name = Some v →
  v ≠ 0%N →
  lookup_while (S fuel) g name id = Ret (Some (Num v)).
Proof.
  intros Hty Hm Hv Hne. simpl. rewrite Hty, Hm, Hv.
  by rewrite (truthy_ne0 _ Hne).
Qed.

Lemma lookup_while_lacks (g : ObjectGraph) (name : string) (id : N) (n : nat) :
  isInherited name = false →
  lacks_on_chain g name id n →
  ∀ fuel, n < fuel → lookup_while fuel g name id = Ret None.
Proof.
  intros Hinh. induction 1 as [id Hty | id m n Hty Hm Hname _ IH];
    intros [|fuel] Hfuel; try lia; simpl.
  - by rewrite Hty.
  - rewrite Hty, Hm, Hname, Hinh. apply IH. lia.
Qed.

Lemma well_formedb_correct (g : ObjectGraph) :
  well_formedb g = true → well_formed g.
Proof.
  unfold well_formedb. intros H.
  apply andb_true_iff in H as [H Hrt].
  apply andb_true_iff in H as [H Hbl]. apply andb_true_iff in H as [Hd Hp].
  apply bool_decide_eq_true in Hd, Hp.
  split; [| | | |exact Hbl|].
  - intros id m Hm. by destruct (Hd id m Hm).
  - intros id m name v Hm Hv. destruct (Hd id m Hm) as [_ Hall].
    exact (Hall name v Hv).
  - intros id p' Hid. by destruct (Hp id p' Hid).
  - intros id p' Hid. by destruct (Hp id p' Hid).
  - intros rt Hroot ->. by rewrite Hroot in Hrt.
Qed.

(** C10: a path whose next ordinary segment is reached at an identity
    that is neither a sentinel nor a key of [data] makes [lookup_] throw
    a TypeError: at the first segment, and after any resolved prefix. *)
Theorem lookup_missing_identity_throws (fuel : nat) (g : ObjectGraph)
  (name : string) (rest : list string) (id : N) :
  name ≠ "__proto__" → isType id = false → data g !! id = None →
  lookup_ (S fuel) g (name :: rest) (Num id) = Thrown TypeError
  ∧ ∀ pre r, lookup_ (S fuel) g pre r = Ret (Some (Num id)) →
             lookup_ (S fuel) g (pre ++ name :: rest) r = Thrown TypeError.
Proof.
  intros Hname Hty Hdata.
  assert (Hfirst : lookup_ (S fuel) g (name :: rest) (Num id)
                   = Thrown TypeError).
  { cbn [lookup_]. destruct (String.eqb_spec name "__proto__") as [|_]; [done|].
    cbn [lookup_while]. by rewrite Hty, Hdata. }
  split; [done|]. intros pre r Hpre.
  by rewrite (lookup__app _ _ _ _ _ _ Hpre).
Qed.

(** The identity 102 of the diamond graph, once removed by [removeIds],
    is still the value of the root's entry "l". *)
Lemma lookup_missing_identity_throws_witness :
  lookup_ 3 (removeIds [102%N] diamond_graph) ["d"] (Num 102)
  = Thrown TypeError
  ∧ lookup 3 (removeIds [102%N] diamond_graph) "l.d" None = Thrown TypeError.
Proof.
  pose proof (lookup_missing_identity_throws 2 (removeIds [102%N] diamond_graph)
                "d" [] 102) as H.
  destruct H as [H1 H2]; [discriminate | reflexivity | by vm_compute |].
  split; [exact H1|].
  exact (H2 ["l"] (Num 100) ltac:(by vm_compute)).
Defined.

Lemma split_dot_nonempty (s : string) : split_dot s ≠ [].
Proof.
  induction s as [|c s IH]; simpl; [done|].
  destruct (Ascii.eqb c "."); [done|]. by destruct (split_dot s).
Qed.

Lemma split_dot_free (s : string) : dot_free s = true → split_dot s = [s].
Proof.
  induction s as [|c s IH]; simpl; [done|].
  intros [Hc Hs]%andb_true_iff. apply negb_true_iff in Hc. rewrite Hc.
  by rewrite (IH Hs).
Qed.

(** Delegation fallback for a segment [x] that is not a name of a method
    of Object.prototype: when [A] has no entry for [x] and its recorded
    delegation parent [B] has one, [lookup(x, A)] and [lookup(x, B)] return
    the same identity, the value of that entry; when no identity on the
    chain of [A] has an entry before a sentinel is reached, the result is
    null. *)
Lemma lookup_delegation_fallback (g : ObjectGraph) (x : string) (A : N) :
  well_formed g →
  dot_free x = true → x ≠ "__proto__" → isInherited x = false →
  (∀ (B v : N) (mA mB : gmap string N) (fuel : nat),
      data g !! A = Some mA → mA !! x = None →
      protos g !! A = Some B →
      data g !! B = Some mB → mB !! x = Some v →
      lookup (S (S fuel)) g x (Some A) = lookup (S (S fuel)) g x (Some B)
      ∧ lookup (S (S fuel)) g x (Some B) = Ret (Some (Num v)))
  ∧ (∀ (n fuel : nat),
      A ≠ 0%N → lacks_on_chain g x A n → n < fuel →
      lookup fuel g x (Some A) = Ret None).
Proof.
  intros Hwf Hdot Hx Hinh.
  assert (Hseg : ∀ f id, lookup_ f g [x] (Num id)
                         = try! r := lookup_while f g x id in
                           match r with
                           | None => Ret None
                           | Some nextId => lookup_ f g [] nextId
                           end).
  { intros f id. cbn [lookup_].
    by destruct (String.eqb_spec x "__proto__") as [|_]. }
  split.
  - intros B v mA mB fuel HA HAx HB HmB HBx.
    pose proof (wf_data_key g Hwf _ _ HA) as HidA.
    pose proof (wf_data_key g Hwf _ _ HmB) as HidB.
    pose proof (wf_data_value g Hwf _ _ _ _ HmB HBx) as Hv.
    assert (HlB : ∀ f, lookup_ (S f) g [x] (Num B) = Ret (Some (Num v))).
    { intros f. rewrite Hseg.
      rewrite (lookup_while_found f g x B v mB);
        auto using identity_not_type.
      simpl. by rewrite (truthy_ne0 _ Hv). }
    assert (HlA : lookup_ (S (S fuel)) g [x] (Num A) = Ret (Some (Num v))).
    { rewrite Hseg.
      assert (Hw : lookup_while (S (S fuel)) g x A = Ret (Some (Num v))).
      { cbn [lookup_while]. rewrite (identity_not_type _ HidA), HA, HAx, Hinh.
        assert (Hp : getPrototype g A = B).
        { unfold getPrototype. rewrite HB.
          by rewrite (identity_truthy _ HidB). }
        rewrite Hp. rewrite (identity_not_type _ HidB), HmB, HBx.
        by rewrite (truthy_ne0 _ Hv). }
      rewrite Hw. simpl. by rewrite (truthy_ne0 _ Hv). }
    unfold lookup. rewrite (identity_truthy _ HidA), (identity_truthy _ HidB).
    rewrite (split_dot_free x Hdot). rewrite HlA. by rewrite HlB.
  - intros n fuel HA Hchain Hfuel.
    unfold lookup. rewrite (truthy_ne0 _ HA).
    rewrite (split_dot_free x Hdot), Hseg.
    by rewrite (lookup_while_lacks g x A n Hinh Hchain fuel Hfuel).
Qed.

Lemma lookup_delegation_fallback_diamond :
  lookup 2 diamond_graph "x" (Some 104%N)
    = lookup 2 diamond_graph "x" (Some 106%N)
  ∧ lookup 3 diamond_graph "x" (Some 102%N) = Ret None.
Proof.
  assert (Hwf : well_formed diamond_graph).
  { apply well_formedb_correct. by vm_compute. }
  split.
  - destruct (lookup_delegation_fallback diamond_graph "x" 104 Hwf)
      as [H _]; [done | done | done |].
    refine (proj1 (H 106%N 4%N {["up" := 100%N]} {["x" := 4%N]} 0 _ _ _ _ _));
      by vm_compute.
  - destruct (lookup_delegation_fallback diamond_graph "x" 102 Hwf)
      as [_ H]; [done | done | done |].
    apply (H 2); [discriminate | | lia].
    eapply lacks_parent; [reflexivity | by vm_compute | by vm_compute |].
    eapply lacks_parent; [reflexivity | by vm_compute | by vm_compute |].
    apply lacks_sentinel. by vm_compute.
Defined.

(** C8: the maps of [data] are object literals, so that under a name of a
    method of Object.prototype a map without an own entry has that method:
    in the graph captured from a plain object (100) whose delegation
    parent (101) has the own property "toString" (102),
    [lookup("toString", 100)] stops at 100 and returns the method of the
    storage map, not the identity that [lookup("toString", 101)] returns;
    and [lookup("valueOf", 100)], a name that no identity on the chain
    has, returns a method where a lookup without match returns null. *)
Theorem lookup_delegation_inherited_method :
  data literal_graph !! 100%N = Some {["x" := 3%N]}
  ∧ protos literal_graph !! 100%N = Some 101%N
  ∧ data literal_graph !! 101%N = Some {["toString" := 102%N]}
  ∧ lacks_on_chain literal_graph "valueOf" 100 2
  ∧ ∀ fuel,
      lookup (S fuel) literal_graph "toString" (Some 100%N)
      = Ret (Some (Method "toString"))
      ∧ lookup (S fuel) literal_graph "toString" (Some 101%N)
        = Ret (Some (Num 102))
      ∧ lookup (S fuel) literal_graph "valueOf" (Some 100%N)
        = Ret (Some (Method "valueOf")).
Proof.
  assert (H100 : data literal_graph !! 100%N = Some {["x" := 3%N]})
    by (by vm_compute).
  assert (H101 : data literal_graph !! 101%N = Some {["toString" := 102%N]})
    by (by vm_compute).
  split; [exact H100|]. split; [by vm_compute|]. split; [exact H101|]. split.
  { eapply lacks_parent; [reflexivity | exact H100 | by vm_compute |].
    eapply lacks_parent; [reflexivity | by vm_compute | by vm_compute |].
    apply lacks_sentinel. by vm_compute. }
  intros fuel. unfold lookup.
  change (truthy 100) with true. change (truthy 101) with true.
  change (split_dot "toString") with ["toString"].
  change (split_dot "valueOf") with ["valueOf"].
  cbn [lookup_ lookup_while String.eqb Ascii.eqb Bool.eqb res_bind].
  change (isType 100) with false. change (isType 101) with false.
  rewrite H100, H101. repeat split; by vm_compute.
Qed.

(** ** Index queries *)

Lemma getAllIds__permutation (g : ObjectGraph) :
  getAllIds_ g ≡ₚ
    filter (λ i, isKeyBlacklisted g (toString i) = false)
           (elements (dom (data g))).
Proof.
  unfold getAllIds_, sort_default, ownIds.
  rewrite merge_sort_Permutation. by rewrite merge_sort_Permutation.
Qed.

(** C3: [getAllIds_] orders the identities by [Array.prototype.sort()]
    without a comparator, that is by their decimal strings: on the graph
    with the identities 99 and 100 it returns 100 before 99, which is not
    the ascending numeric order. *)
Theorem getAllIds__string_order :
  dom (data pair_graph) = {[99%N; 100%N]}
  ∧ getAllIds_ pair_graph = [100%N; 99%N]
  ∧ ¬ Sorted N.le (getAllIds_ pair_graph).
Proof.
  assert (H : getAllIds_ pair_graph = [100%N; 99%N]) by (by vm_compute).
  split; [by vm_compute|]. split; [exact H|].
  rewrite H. intros Hs. inversion Hs as [|? ? _ Hhd]; subst.
  inversion Hhd as [|? ? Hle]; subst. by apply Hle.
Qed.

(** ** Reverse lookup *)

Lemma getKeys_via_ext (rec rec' : N → gset N → res keys_result)
  (name : string) (ids : list N) (allKeys : list string) (seen : gset N) :
  (∀ i s, rec i s = rec' i s) →
  getKeys_via rec name ids allKeys seen = getKeys_via rec' name ids allKeys seen.
Proof.
  intros Hrec. revert allKeys seen.
  induction ids as [|invId ids IH]; intros allKeys seen; simpl; [done|].
  destruct (decide (invId ∈ seen)); [apply IH|].
  rewrite Hrec. destruct (rec' invId seen) as [r | e |]; simpl; auto.
Qed.

Lemma getKeys_names_ext (rec rec' : N → gset N → res keys_result)
  (g g' : ObjectGraph) (m : gmap string (list N)) (keys : list string)
  (allKeys : list string) (seen : gset N) :
  (∀ i s, rec i s = rec' i s) →
  blacklistedKeys g = blacklistedKeys g' →
  getKeys_names rec g m keys allKeys seen
  = getKeys_names rec' g' m keys allKeys seen.
Proof.
  intros Hrec Hbl. revert allKeys seen.
  induction keys as [|k keys IH]; intros allKeys seen; simpl; [done|].
  unfold isKeyBlacklisted. rewrite <- Hbl.
  destruct (existsb (String.eqb k) (blacklistedKeys g)); [apply IH|].
  rewrite (getKeys_via_ext rec rec' _ _ _ _ Hrec).
  destruct (getKeys_via rec' k (default [] (m !! k)) allKeys seen)
    as [r | e |]; simpl; auto.
Qed.

Lemma getKeys__ext (g g' : ObjectGraph) (fuel : nat) (id : N) (seen : gset N) :
  same_stores g g' → getKeys_ fuel g id seen = getKeys_ fuel g' id seen.
Proof.
  intros (Hroot & Hkey & Hdata & Hprotos & Hbl). revert id seen.
  induction fuel as [|fuel IH]; intros id seen; simpl; [done|].
  unfold invData, invProtos. rewrite <- Hroot, <- Hkey, <- Hdata, <- Hprotos.
  destruct (decide (VNumber id = root g)); [done|].
  destruct (remap_abc (data g) !! id) as [m|]; [|done].
  rewrite (getKeys_names_ext _ (getKeys_ fuel g') g g' _ _ _ _ IH Hbl).
  destruct (getKeys_names _ g' m _ [] _) as [r | e |]; simpl; auto.
  destruct (remap_ab (protos g) !! id); [|done].
  by apply getKeys_via_ext.
Qed.

Lemma getKeys_fuel_ext (g g' : ObjectGraph) :
  same_stores g g' → getKeys_fuel g = getKeys_fuel g'.
Proof.
  intros (_ & _ & Hdata & Hprotos & _). unfold getKeys_fuel, universe.
  by rewrite Hdata, Hprotos.
Qed.

Lemma same_stores_keysCache (f : gmap N (list string) → gmap N (list string))
  (g : ObjectGraph) : same_stores (with_keysCache f g) g.
Proof. by repeat split. Qed.

(** Filling the cache with a computed list keeps it right. *)
Lemma getKeys_cache_ok (g g' : ObjectGraph) (id : N) (ks : list string) :
  cache_ok g → getKeys g id = Ret (ks, g') →
  cache_ok g' ∧ same_stores g' g.
Proof.
  intros Hok. unfold getKeys.
  destruct (keysCache g !! id) as [cached|] eqn:Hc.
  - intros [= <- <-]. by repeat split.
  - destruct (getKeys_ (getKeys_fuel g) g id ∅) as [r | e |] eqn:Hr;
      simpl; try discriminate.
    intros [= <- <-]. split; [|apply same_stores_keysCache].
    intros id' ks' Hid'.
    rewrite (getKeys_fuel_ext _ g (same_stores_keysCache _ g)).
    rewrite (getKeys__ext _ g _ _ _ (same_stores_keysCache _ g)).
    cbn in Hid'. destruct (decide (id = id')) as [<-|Hne].
    + rewrite lookup_insert_eq in Hid'. injection Hid' as <-. eauto.
    + rewrite lookup_insert_ne in Hid' by done. by apply Hok.
Qed.

Lemma sort_by_singleton {A} (comparefn : A → A → Z) (x : A) :
  sort_by comparefn [x] = [x].
Proof. reflexivity. Qed.


Lemma cache_ok_empty (g : ObjectGraph) : keysCache g = ∅ → cache_ok g.
Proof. intros He id ks. by rewrite He, lookup_empty. Qed.


(** *** The inverse indices hold referrers only *)

Lemma foldl_invariant {A B} (P : A → Prop) (f : A → B → A) (l : list B)
  (init : A) :
  P init → (∀ acc x, x ∈ l → P acc → P (f acc x)) → P (foldl f init l).
Proof.
  revert init. induction l as [|x l IH]; intros init Hinit Hstep; simpl.
  - exact Hinit.
  - apply IH.
    + apply Hstep; [left | exact Hinit].
    + intros acc y Hy. apply Hstep. by right.
Qed.

(** What every step of the loop of [visitPropertyDescriptors] keeps
    holds after it. *)
Lemma visitPropertyDescriptors_loop_invariant (h : heap) (a : addr)
  (P : ObjectGraph → Prop) (names : list string)
  (desc : option (list (string * bool))) (g : ObjectGraph) :
  P g →
  (∀ acc name (d : option (list (string * bool))), name ∈ names → P acc →
     P (match d with
        | Some d =>
            with_metadata (alter (insert name (describe d)) (UID (h a))) acc
        | None => log (EvWarn name (UID (h a))) acc
        end)) →
  P (visitPropertyDescriptors_loop h a names desc g).
Proof.
  revert desc g. induction names as [|name names IH]; intros desc g Hg Hstep;
    simpl; [exact Hg|].
  apply IH.
  - apply Hstep; [left | exact Hg].
  - intros acc y d Hy. apply Hstep. by right.
Qed.

Lemma ownIds_elem {A} (m : gmap N A) (a : N) : a ∈ ownIds m ↔ a ∈ dom m.
Proof. unfold ownIds. by rewrite merge_sort_Permutation, elem_of_elements. Qed.

Lemma remap_push_referrers (d : gmap N (gmap string N))
  (acc : gmap N (gmap string (list N))) (a c : N) (b : string) :
  refers_by_data d a b c →
  (∀ c' m b' l a', acc !! c' = Some m → m !! b' = Some l → a' ∈ l →
                   refers_by_data d a' b' c') →
  ∀ c' m b' l a', remap_push c b a acc !! c' = Some m → m !! b' = Some l →
                  a' ∈ l → refers_by_data d a' b' c'.
Proof.
  intros Hnew Hacc c' m b' l a'. unfold remap_push.
  destruct (decide (c = c')) as [<-|Hc].
  - rewrite lookup_insert_eq. intros [= <-].
    destruct (decide (b = b')) as [<-|Hb].
    + rewrite lookup_insert_eq. intros [= <-].
      rewrite elem_of_app, list_elem_of_singleton. intros [Hold | ->]; [|done].
      destruct (acc !! c) as [m0|] eqn:Hm0; simpl in Hold.
      * destruct (m0 !! b) as [l0|] eqn:Hl0; simpl in Hold.
        -- by eapply Hacc.
        -- by apply elem_of_nil in Hold.
      * rewrite lookup_empty in Hold. by apply elem_of_nil in Hold.
    + rewrite lookup_insert_ne by done. intros Hl Ha'.
      destruct (acc !! c) as [m0|] eqn:Hm0; simpl in Hl.
      * by eapply Hacc.
      * by rewrite lookup_empty in Hl.
  - rewrite lookup_insert_ne by done. apply Hacc.
Qed.

Lemma remap_abc_referrers (d : gmap N (gmap string N)) (c : N)
  (m : gmap string (list N)) (b : string) (l : list N) (a : N) :
  remap_abc d !! c = Some m → m !! b = Some l → a ∈ l →
  refers_by_data d a b c.
Proof.
  revert c m b l a. unfold remap_abc.
  apply (foldl_invariant
           (λ acc, ∀ c m b l a, acc !! c = Some m → m !! b = Some l → a ∈ l →
                                refers_by_data d a b c)).
  - intros c m b l a. by rewrite lookup_empty.
  - intros acc a Ha Hacc. apply ownIds_elem, elem_of_dom in Ha as [ma Hma].
    rewrite Hma. simpl.
    apply (foldl_invariant
           (λ acc, ∀ c m b l a, acc !! c = Some m → m !! b = Some l → a ∈ l →
                                refers_by_data d a b c)); [exact Hacc|].
    intros acc' [b c] Hbc Hacc'. simpl.
    apply remap_push_referrers; [|exact Hacc'].
    apply elem_of_map_to_list in Hbc. by exists ma.
Qed.

Lemma remap_ab_referrers (p : gmap N N) (b : N) (l : list N) (a : N) :
  remap_ab p !! b = Some l → a ∈ l → p !! a = Some b.
Proof.
  revert b l a. unfold remap_ab.
  apply (foldl_invariant
           (λ acc, ∀ b l a, acc !! b = Some l → a ∈ l → p !! a = Some b)).
  - intros b l a. by rewrite lookup_empty.
  - intros acc a Ha Hacc b l a'.
    apply ownIds_elem, elem_of_dom in Ha as [b0 Hb0]. rewrite Hb0.
    destruct (decide (b0 = b)) as [<-|Hb].
    + rewrite lookup_insert_eq. intros [= <-].
      rewrite elem_of_app, list_elem_of_singleton. intros [Hold | ->]; [|done].
      destruct (acc !! b0) as [l0|] eqn:Hl0; simpl in Hold.
      * by eapply Hacc.
      * by apply elem_of_nil in Hold.
    + rewrite lookup_insert_ne by done. apply Hacc.
Qed.

(** *** [getKeys_] returns *)

Lemma getKeys_via_returns (g : ObjectGraph) (lower : gset N)
  (rec : N → gset N → res keys_result) (name : string) (ids : list N)
  (allKeys : list string) (seen : gset N) :
  rec_returns g lower rec → (∀ i, i ∈ ids → i ∈ universe g) → lower ⊆ seen →
  ∃ r, getKeys_via rec name ids allKeys seen = Ret r ∧ seen ⊆ r.2.
Proof.
  intros Hrec. revert allKeys seen.
  induction ids as [|invId ids IH]; intros allKeys seen Hids Hlow; simpl.
  - by eexists.
  - assert (Hids' : ∀ i, i ∈ ids → i ∈ universe g).
    { intros i Hi. apply Hids. by right. }
    destruct (decide (invId ∈ seen)) as [|Hnew]; [by apply IH|].
    destruct (Hrec invId seen) as (r1 & -> & Hsub); [apply Hids; left|done..|].
    simpl. destruct (IH (allKeys ++ map (λ prefix, prefix +:+ "." +:+ name) r1.1)
                        r1.2 Hids') as (r & Hr & Hsub'); [set_solver|].
    exists r. split; [done | set_solver].
Qed.

Lemma getKeys_names_returns (g : ObjectGraph) (lower : gset N)
  (rec : N → gset N → res keys_result) (m : gmap string (list N))
  (keys : list string) (allKeys : list string) (seen : gset N) :
  rec_returns g lower rec →
  (∀ k l i, m !! k = Some l → i ∈ l → i ∈ universe g) → lower ⊆ seen →
  ∃ r, getKeys_names rec g m keys allKeys seen = Ret r ∧ seen ⊆ r.2.
Proof.
  intros Hrec Hm. revert allKeys seen.
  induction keys as [|k keys IH]; intros allKeys seen Hlow; simpl.
  - by eexists.
  - destruct (isKeyBlacklisted g k); [by apply IH|].
    destruct (getKeys_via_returns g lower rec k (default [] (m !! k))
                allKeys seen Hrec) as (r1 & -> & Hsub); [|done|].
    { intros i. destruct (m !! k) as [l|] eqn:Hl; simpl.
      - by apply (Hm k l).
      - by intros ?%elem_of_nil. }
    simpl. destruct (IH r1.1 r1.2) as (r & Hr & Hsub'); [set_solver|].
    exists r. split; [done | set_solver].
Qed.

Lemma getKeys__returns (g : ObjectGraph) (fuel : nat) (id : N) (seen : gset N) :
  size (universe g ∖ ({[id]} ∪ seen)) < fuel →
  ∃ r, getKeys_ fuel g id seen = Ret r ∧ {[id]} ∪ seen ⊆ r.2.
Proof.
  revert id seen. induction fuel as [|fuel IH]; intros id seen Hfuel; [lia|].
  simpl. destruct (decide (VNumber id = root g)); [by eexists|].
  assert (Hrec : rec_returns g ({[id]} ∪ seen) (getKeys_ fuel g)).
  { intros i s Hi Hs Hlow. destruct (IH i s) as (r & Hr & Hsub).
    - assert (Hlt : universe g ∖ ({[i]} ∪ s) ⊂ universe g ∖ ({[id]} ∪ seen)).
      { split; [set_solver|]. intros Hsub. specialize (Hsub i). set_solver. }
      apply subset_size in Hlt. lia.
    - exists r. split; [done | set_solver]. }
  destruct (invData g !! id) as [m|] eqn:Hm; [|by eexists].
  destruct (getKeys_names_returns g ({[id]} ∪ seen) (getKeys_ fuel g) m
              (sort_strings (ownNames m)) [] ({[id]} ∪ seen) Hrec)
    as (r1 & -> & Hsub); [|done|].
  { intros k l i Hk Hi.
    destruct (remap_abc_referrers _ _ _ _ _ _ Hm Hk Hi) as (ma & Hma & _).
    apply elem_of_union_l, elem_of_dom. eauto. }
  simpl. destruct (invProtos g !! id) as [invs|] eqn:Hinvs; [|by eexists].
  destruct (getKeys_via_returns g ({[id]} ∪ seen) (getKeys_ fuel g)
              "__proto__" invs r1.1 r1.2 Hrec) as (r & -> & Hsub'); [|done|].
  { intros i Hi. pose proof (remap_ab_referrers _ _ _ _ Hinvs Hi).
    apply elem_of_union_r, elem_of_dom. eauto. }
  exists r. split; [done | set_solver].
Qed.

(** [getKeys] never exhausts the fuel it gives itself. *)
Lemma getKeys_returns (g : ObjectGraph) (id : N) :
  ∃ ks g', getKeys g id = Ret (ks, g').
Proof.
  unfold getKeys. destruct (keysCache g !! id); [by eauto|].
  destruct (getKeys__returns g (getKeys_fuel g) id ∅) as (r & -> & _).
  - unfold getKeys_fuel.
    assert (size (universe g ∖ ({[id]} ∪ ∅)) ≤ size (universe g)).
    { apply subseteq_size. set_solver. }
    lia.
  - simpl. eauto.
Qed.

(** *** [getKeys_] returns at most one key

    A key is produced only by the call on the root, and the shared
    [seen] set lets that call happen once. *)

Lemma getKeys_via_single (g : ObjectGraph)
  (rec : N → gset N → res keys_result) (name : string) (ids : list N)
  (allKeys : list string) (seen : gset N) (r : keys_result) :
  rec_single g rec → acc_single g allKeys seen →
  getKeys_via rec name ids allKeys seen = Ret r →
  seen ⊆ r.2 ∧ acc_single g r.1 r.2 ∧ (root_seen g seen → r.1 = allKeys).
Proof.
  intros Hrec. revert allKeys seen.
  induction ids as [|invId ids IH]; intros allKeys seen Hacc; simpl.
  - intros [= <-]. simpl. auto.
  - destruct (decide (invId ∈ seen)) as [|Hnew]; [by apply IH|].
    destruct (rec invId seen) as [r1 | e |] eqn:Hr1; simpl; try discriminate.
    destruct (Hrec _ _ _ Hnew Hr1) as (Hsub & Hlen & Hroot & Hnil).
    intros Hr. destruct Hacc as [Hacc1 Hacc2].
    assert (Hseen : ∀ sn, root_seen g seen → seen ⊆ sn → root_seen g sn).
    { intros sn (rt & ? & ?) ?. exists rt. set_solver. }
    destruct allKeys as [|k allKeys].
    + apply IH in Hr as (Hsub' & Hacc' & Hsame).
      * split; [set_solver|]. split; [done|].
        intros Hs. rewrite Hsame by eauto. by rewrite (Hnil Hs).
      * split; [by rewrite length_app, length_map | ].
        intros Hne. apply Hroot. destruct r1.1; [done | discriminate].
    + rewrite (Hnil (Hacc2 ltac:(done))) in Hr. simpl in Hr.
      rewrite app_nil_r in Hr.
      apply IH in Hr as (Hsub' & Hacc' & Hsame).
      * split; [set_solver|]. split; [done|]. eauto.
      * split; [done|]. eauto.
Qed.

Lemma getKeys_names_single (g : ObjectGraph)
  (rec : N → gset N → res keys_result) (m : gmap string (list N))
  (keys : list string) (allKeys : list string) (seen : gset N)
  (r : keys_result) :
  rec_single g rec → acc_single g allKeys seen →
  getKeys_names rec g m keys allKeys seen = Ret r →
  seen ⊆ r.2 ∧ acc_single g r.1 r.2 ∧ (root_seen g seen → r.1 = allKeys).
Proof.
  intros Hrec. revert allKeys seen.
  induction keys as [|k keys IH]; intros allKeys seen Hacc; simpl.
  - intros [= <-]. simpl. auto.
  - destruct (isKeyBlacklisted g k); [by apply IH|].
    destruct (getKeys_via rec k (default [] (m !! k)) allKeys seen)
      as [r1 | e |] eqn:Hr1; simpl; try discriminate.
    destruct (getKeys_via_single g _ _ _ _ _ _ Hrec Hacc Hr1)
      as (Hsub & Hacc' & Hsame).
    intros Hr. apply IH in Hr as (Hsub' & Hacc'' & Hsame'); [|done].
    split; [set_solver|]. split; [done|].
    intros Hs. rewrite Hsame'; [by apply Hsame|].
    destruct Hs as (rt & ? & ?). exists rt. set_solver.
Qed.

Lemma getKeys__single (g : ObjectGraph) (fuel : nat) :
  rec_single g (getKeys_ fuel g).
Proof.
  induction fuel as [|fuel IH]; intros id seen r Hnew; simpl; [done|].
  destruct (decide (VNumber id = root g)) as [Hroot|Hroot].
  - intros [= <-]. simpl. split; [set_solver|]. split; [done|]. split.
    + intros _. exists id. split; [done | set_solver].
    + intros (rt & Hrt & Hin). congruence.
  - assert (Hup : root_seen g seen → root_seen g ({[id]} ∪ seen)).
    { intros (rt & ? & ?). exists rt. set_solver. }
    destruct (invData g !! id) as [m|].
    2:{ intros [= <-]. simpl. split; [set_solver|]. split; [lia|].
        split; [done | auto]. }
    destruct (getKeys_names _ g m _ [] _) as [r1 | e |] eqn:Hr1; simpl;
      try discriminate.
    assert (Hacc0 : acc_single g [] ({[id]} ∪ seen)).
    { split; [simpl; lia | done]. }
    destruct (getKeys_names_single g _ _ _ _ _ _ IH Hacc0 Hr1)
      as (Hsub & Hacc & Hsame).
    destruct (invProtos g !! id) as [invs|].
    + intros Hr.
      destruct (getKeys_via_single g _ _ _ _ _ _ IH Hacc Hr)
        as (Hsub' & Hacc' & Hsame').
      split; [set_solver|]. destruct Hacc' as [? ?]. repeat split; [done..|].
      intros Hs. rewrite Hsame'; [by auto|].
      destruct (Hup Hs) as (rt & ? & ?). exists rt. set_solver.
    + intros [= <-]. split; [set_solver|]. destruct Hacc as [? ?].
      repeat split; [done..|]. auto.
Qed.

Lemma getKeys__at_most_one (g : ObjectGraph) (fuel : nat) (id : N)
  (r : keys_result) :
  getKeys_ fuel g id ∅ = Ret r → length r.1 ≤ 1.
Proof.
  intros Hr. by destruct (getKeys__single g fuel id ∅ r ltac:(set_solver) Hr)
    as (_ & ? & _).
Qed.

(** *** The keys resolve, segment by segment *)

Lemma path_of_snoc (k : string) (segs : list string) (name : string) :
  path_of k (segs ++ [name]) = path_of k segs +:+ "." +:+ name.
Proof. unfold path_of. by rewrite foldl_app. Qed.

Lemma resolves_step (g : ObjectGraph) (rt i id : N) (p name : string) :
  resolves g rt i p → seg_ok g name →
  (∀ f, lookup_ (S f) g [name] (Num i) = Ret (Some (Num id))) →
  resolves g rt id (p +:+ "." +:+ name).
Proof.
  intros (segs & -> & Hsegs & Hres) Hname Hstep. exists (segs ++ [name]).
  split; [by rewrite path_of_snoc|]. split.
  - apply Forall_app. split; [done|]. by apply Forall_singleton.
  - intros f. by rewrite (lookup__app _ _ _ _ _ _ (Hres f)).
Qed.

Lemma blacklisted_proto (g : ObjectGraph) (name : string) :
  well_formed g → isKeyBlacklisted g name = false → name ≠ "__proto__".
Proof. intros Hwf Hbl ->. by rewrite (wf_blacklist g Hwf) in Hbl. Qed.

Lemma lookup__property_step (g : ObjectGraph) (f : nat) (name : string)
  (i id : N) :
  well_formed g → refers_by_data (data g) i name id →
  isKeyBlacklisted g name = false →
  lookup_ (S f) g [name] (Num i) = Ret (Some (Num id)).
Proof.
  intros Hwf (m & Hm & Hname) Hbl. cbn [lookup_].
  destruct (String.eqb_spec name "__proto__") as [Heq|_].
  { by destruct (blacklisted_proto g name Hwf Hbl). }
  pose proof (wf_data_value g Hwf _ _ _ _ Hm Hname) as Hid.
  rewrite (lookup_while_found f g name i id m);
    eauto using identity_not_type, wf_data_key.
  simpl. by rewrite (truthy_ne0 _ Hid).
Qed.

Lemma lookup__proto_step (g : ObjectGraph) (f : nat) (i id : N) :
  well_formed g → protos g !! i = Some id →
  lookup_ (S f) g ["__proto__"] (Num i) = Ret (Some (Num id)).
Proof.
  intros Hwf Hp. cbn [lookup_ String.eqb Ascii.eqb Bool.eqb].
  rewrite (identity_not_type i) by eauto using wf_protos_key.
  pose proof (wf_protos_value g Hwf _ _ Hp) as Hid.
  unfold getPrototype. rewrite Hp. by rewrite !(truthy_ne0 _ Hid).
Qed.

Lemma getKeys_via_sound (g : ObjectGraph) (rt id : N)
  (rec : N → gset N → res keys_result) (name : string) (ids : list N)
  (allKeys : list string) (seen : gset N) (r : keys_result) :
  (∀ i s r, rec i s = Ret r → ∀ p, p ∈ r.1 → resolves g rt i p) →
  (∀ i, i ∈ ids →
        seg_ok g name
        ∧ ∀ f, lookup_ (S f) g [name] (Num i) = Ret (Some (Num id))) →
  (∀ p, p ∈ allKeys → resolves g rt id p) →
  getKeys_via rec name ids allKeys seen = Ret r →
  ∀ p, p ∈ r.1 → resolves g rt id p.
Proof.
  intros Hrec. revert allKeys seen.
  induction ids as [|invId ids IH]; intros allKeys seen Hids Hall; simpl.
  - by intros [= <-].
  - assert (Hids' : ∀ i, i ∈ ids →
        seg_ok g name
        ∧ ∀ f, lookup_ (S f) g [name] (Num i) = Ret (Some (Num id))).
    { intros i Hi. apply Hids. by right. }
    destruct (decide (invId ∈ seen)); [by apply IH|].
    destruct (rec invId seen) as [r1 | e |] eqn:Hr1; simpl; try discriminate.
    apply IH; [done|]. intros p [Hp|Hp]%elem_of_app; [by apply Hall|].
    apply list_elem_of_fmap in Hp as (prefix & -> & Hprefix).
    destruct (Hids invId) as [Hname Hstep]; [by left|].
    apply (resolves_step g rt invId); [by eapply Hrec | done | done].
Qed.

Lemma getKeys_names_sound (g : ObjectGraph) (rt id : N)
  (rec : N → gset N → res keys_result) (m : gmap string (list N))
  (keys : list string) (allKeys : list string) (seen : gset N)
  (r : keys_result) :
  well_formed g → invData g !! id = Some m →
  (∀ i s r, rec i s = Ret r → ∀ p, p ∈ r.1 → resolves g rt i p) →
  (∀ p, p ∈ allKeys → resolves g rt id p) →
  getKeys_names rec g m keys allKeys seen = Ret r →
  ∀ p, p ∈ r.1 → resolves g rt id p.
Proof.
  intros Hwf Hm Hrec. revert allKeys seen.
  induction keys as [|k keys IH]; intros allKeys seen Hall; simpl.
  - by intros [= <-].
  - destruct (isKeyBlacklisted g k) eqn:Hbl; [by apply IH|].
    destruct (getKeys_via rec k (default [] (m !! k)) allKeys seen)
      as [r1 | e |] eqn:Hr1; simpl; try discriminate.
    apply IH.
    apply (getKeys_via_sound g rt id rec k (default [] (m !! k))
             allKeys seen r1); try done.
    intros i Hi. destruct (m !! k) as [l|] eqn:Hl; simpl in Hi.
    2:{ by apply elem_of_nil in Hi. }
    pose proof (remap_abc_referrers _ _ _ _ _ _ Hm Hl Hi) as Href.
    split; [right; by exists i, id|].
    intros f. by apply lookup__property_step.
Qed.

Lemma getKeys__sound (g : ObjectGraph) (rt : N) (fuel : nat) (id : N)
  (seen : gset N) (r : keys_result) :
  well_formed g → root g = VNumber rt →
  getKeys_ fuel g id seen = Ret r → ∀ p, p ∈ r.1 → resolves g rt id p.
Proof.
  intros Hwf Hroot. revert id seen r.
  induction fuel as [|fuel IH]; intros id seen r; simpl; [done|].
  destruct (decide (VNumber id = root g)) as [Hid|Hid].
  - intros [= <-] p ->%list_elem_of_singleton.
    rewrite Hroot in Hid. injection Hid as ->.
    exists []. split; [done|]. split; [done|]. intros f. simpl.
    by rewrite (truthy_ne0 _ (wf_root g Hwf _ Hroot)).
  - destruct (invData g !! id) as [m|] eqn:Hm.
    2:{ intros [= <-] p Hp. by apply elem_of_nil in Hp. }
    destruct (getKeys_names _ g m _ [] _) as [r1 | e |] eqn:Hr1; simpl;
      try discriminate.
    assert (H1 : ∀ p, p ∈ r1.1 → resolves g rt id p).
    { eapply (getKeys_names_sound g rt id _ m _ []); [done..| |exact Hr1].
      intros p Hp. by apply elem_of_nil in Hp. }
    destruct (invProtos g !! id) as [invs|] eqn:Hinvs.
    + eapply (getKeys_via_sound g rt id _ "__proto__" invs); [done| |done].
      intros i Hi. split; [by left|]. intros f.
      apply lookup__proto_step; [done|]. by eapply remap_ab_referrers.
    + by intros [= <-].
Qed.

(** *** Splitting a reconstructed path *)

Lemma append_cons (x : ascii) (a b : string) :
  String x a +:+ b = String x (a +:+ b).
Proof. reflexivity. Qed.

Lemma append_assoc (a b c : string) : (a +:+ b) +:+ c = a +:+ (b +:+ c).
Proof.
  induction a as [|x a IH]; [done|]. by rewrite !append_cons, IH.
Qed.

Lemma split_dot_append (a x : string) :
  dot_free x = true → split_dot (a +:+ "." +:+ x) = split_dot a ++ [x].
Proof.
  intros Hx. induction a as [|c a IH].
  - change ("" +:+ "." +:+ x) with (String "." x). simpl.
    by rewrite (split_dot_free x Hx).
  - rewrite append_cons. simpl. rewrite IH. destruct (Ascii.eqb c "."); [done|].
    pose proof (split_dot_nonempty a). by destruct (split_dot a).
Qed.

Lemma split_dot_path_of (name : string) (segs : list string) :
  dot_free name = true → Forall (λ s, dot_free s = true) segs →
  split_dot (path_of name segs) = name :: segs.
Proof.
  intros Hname. induction segs as [|x segs IH] using rev_ind; intros Hsegs.
  - by apply split_dot_free.
  - apply Forall_app in Hsegs as [Hsegs Hx]. rewrite Forall_singleton in Hx.
    rewrite path_of_snoc. rewrite split_dot_append by exact Hx.
    by rewrite IH.
Qed.

Lemma path_of_cons (k name : string) (segs : list string) :
  path_of k (name :: segs) = k +:+ "." +:+ path_of name segs.
Proof.
  induction segs as [|x segs IH] using rev_ind; [done|].
  rewrite app_comm_cons, !path_of_snoc, IH. by rewrite !append_assoc.
Qed.

Lemma seg_ok_dot_free (g : ObjectGraph) (name : string) :
  names_dot_free g → seg_ok g name → dot_free name = true.
Proof. intros Hg [-> | (a & c & Href)]; [done | by eapply Hg]. Qed.

Lemma sort_by_short {A} (comparefn : A → A → Z) (l : list A) :
  length l ≤ 1 → sort_by comparefn l = l.
Proof. destruct l as [|x [|y l]]; simpl; [done | done | lia]. Qed.

(** What [getKeys] returns is what [getKeys_] computes, with at most one
    key. *)
Lemma getKeys_computes (g : ObjectGraph) (id : N) :
  cache_ok g →
  ∃ r g', getKeys g id = Ret (r.1, g')
          ∧ getKeys_ (getKeys_fuel g) g id ∅ = Ret r ∧ length r.1 ≤ 1.
Proof.
  intros Hok. unfold getKeys.
  destruct (keysCache g !! id) as [ks|] eqn:Hc.
  - destruct (Hok id ks Hc) as (r & Hr & ->).
    pose proof (getKeys__at_most_one g _ id r Hr) as Hlen.
    exists r, g. by rewrite sort_by_short.
  - destruct (getKeys_returns g id) as (ks & g' & Hg). unfold getKeys in Hg.
    rewrite Hc in Hg.
    destruct (getKeys_ (getKeys_fuel g) g id ∅) as [r | e |] eqn:Hr;
      simpl in Hg; try discriminate.
    pose proof (getKeys__at_most_one g _ id r Hr) as Hlen.
    exists r. eexists. simpl. by rewrite sort_by_short.
Qed.

(** C1, as amended: on a graph whose keys cache holds what [getKeys]
    computes from the stores, every key that [getKeys(id)] returns is the
    root key followed by one ".name" per segment, and [lookup_] resolves
    these segments from the root to [id]; when [id] is not the root and
    no stored name contains a dot, the key is the root key, a dot, and a
    path on which [lookup] returns [id]. *)
Theorem getKeys_paths_resolve (g : ObjectGraph) (id : N) :
  well_formed g → cache_ok g →
  ∃ ks g', getKeys g id = Ret (ks, g')
    ∧ ∀ p, p ∈ ks →
        ∃ rt segs, root g = VNumber rt ∧ p = path_of (key g) segs
          ∧ (∀ f, lookup_ (S f) g segs (Num rt) = Ret (Some (Num id)))
          ∧ (names_dot_free g → id ≠ rt →
             p = key g +:+ "." +:+ relative segs
             ∧ ∀ f, lookup (S f) g (relative segs) None
                    = Ret (Some (Num id))).
Proof.
  intros Hwf Hok.
  destruct (getKeys_computes g id Hok) as (r & g' & Hg & Hr & Hlen).
  exists r.1, g'. split; [done|]. intros p Hp.
  destruct (getKeys__single g _ id ∅ r ltac:(set_solver) Hr)
    as (_ & _ & Hseen & _).
  destruct Hseen as (rt & Hroot & _).
  { intros Hnil. rewrite Hnil in Hp. by apply elem_of_nil in Hp. }
  destruct (getKeys__sound g rt _ id ∅ r Hwf Hroot Hr p Hp)
    as (segs & -> & Hsegs & Hres).
  exists rt, segs. split; [done|]. split; [done|]. split; [done|].
  intros Hdots Hne. destruct segs as [|name segs].
  { specialize (Hres 0). simpl in Hres.
    rewrite (truthy_ne0 _ (wf_root g Hwf _ Hroot)) in Hres. congruence. }
  split; [apply path_of_cons|]. intros f.
  unfold lookup. rewrite Hroot. simpl relative.
  apply Forall_cons in Hsegs as [Hname Hsegs].
  rewrite split_dot_path_of; [apply Hres | by eapply seg_ok_dot_free |].
  eapply Forall_impl; [exact Hsegs|]. intros s. by apply seg_ok_dot_free.
Qed.

Lemma getKeys_paths_resolve_witness :
  ∃ ks g', getKeys diamond_graph 104 = Ret (ks, g')
    ∧ ∀ p, p ∈ ks →
        ∃ rt segs, root diamond_graph = VNumber rt
          ∧ p = path_of (key diamond_graph) segs
          ∧ (∀ f, lookup_ (S f) diamond_graph segs (Num rt)
                  = Ret (Some (Num 104)))
          ∧ (names_dot_free diamond_graph → 104%N ≠ rt →
             p = key diamond_graph +:+ "." +:+ relative segs
             ∧ ∀ f, lookup (S f) diamond_graph (relative segs) None
                    = Ret (Some (Num 104))).
Proof.
  apply (getKeys_paths_resolve diamond_graph 104).
  - apply well_formedb_correct. by vm_compute.
  - apply cache_ok_empty. by vm_compute.
Defined.

(** The key of identity 102 in the diamond graph is ".l"; [lookup]
    reads its first segment, the root key, as a property name and
    returns null whatever fuel it has. *)
Lemma getKeys_lookup_mismatch :
  (∃ g', getKeys diamond_graph 102 = Ret ([".l"], g'))
  ∧ ∀ fuel, lookup fuel diamond_graph ".l" None ≠ Ret (Some (Num 102)).
Proof.
  split; [eexists; by vm_compute|].
  intros [|[|[|fuel]]]; by vm_compute.
Qed.

Lemma leb_refl (s : string) : String.leb s s = true.
Proof. by destruct (String.leb_total s s). Qed.

(** C4, as amended: [getKeys(id)] returns a list sorted by length and
    then lexicographically (it has at most one key); [getShortestKey(id)]
    is null when the list is empty and is its first key, the least one,
    when that key is not the empty string. *)
Theorem getKeys_sorted_shortest (g : ObjectGraph) (id : N) :
  cache_ok g →
  ∃ ks g', getKeys g id = Ret (ks, g')
    ∧ Sorted key_le ks ∧ length ks ≤ 1
    ∧ (ks = [] → getShortestKey g id = Ret (None, g'))
    ∧ ∀ k rest, ks = k :: rest → k ≠ "" →
        getShortestKey g id = Ret (Some k, g') ∧ Forall (key_le k) ks.
Proof.
  intros Hok.
  destruct (getKeys_computes g id Hok) as (r & g' & Hg & _ & Hlen).
  exists r.1, g'. split; [done|].
  unfold getShortestKey. rewrite Hg. simpl.
  destruct r.1 as [|k [|k' rest]]; simpl in *; [| |lia].
  - repeat split; [constructor | lia | done | done..].
  - split; [repeat constructor|]. split; [lia|]. split; [done|].
    intros ? ? [= <- <-] Hk. destruct (String.eqb_spec k ""); [done|].
    split; [done|]. apply Forall_singleton. right. split; [done|].
    apply leb_refl.
Qed.

Lemma getKeys_sorted_shortest_witness :
  ∃ ks g', getKeys diamond_graph 104 = Ret (ks, g')
    ∧ Sorted key_le ks ∧ length ks ≤ 1
    ∧ (ks = [] → getShortestKey diamond_graph 104 = Ret (None, g'))
    ∧ ∀ k rest, ks = k :: rest → k ≠ "" →
        getShortestKey diamond_graph 104 = Ret (Some k, g')
        ∧ Forall (key_le k) ks.
Proof.
  apply (getKeys_sorted_shortest diamond_graph 104).
  apply cache_ok_empty. by vm_compute.
Defined.

(** On the root of the diamond graph [getKeys] returns the empty string
    alone, and [getShortestKey] returns null, not that first element. *)
Lemma getShortestKey_not_first :
  ∃ g', getKeys diamond_graph 100 = Ret ([""], g')
        ∧ getShortestKey diamond_graph 100 = Ret (None, g')
        ∧ getShortestKey diamond_graph 100 ≠ Ret (head [""], g').
Proof.
  eexists. split; [by vm_compute|]. split; [by vm_compute|]. by vm_compute.
Qed.

(** ** Removal of primitives *)

(** C2, as amended: [removePrimitives] deletes an entry that is a
    sentinel and goes on; on an entry that is not, a host whose
    console.assert throws stops there with the graph unchanged, while a
    host whose console.assert only reports deletes the entry all the
    same (and a TypeError ends the call when [data[id]] is undefined). *)
Theorem removePrimitives_precondition (assertThrows : bool)
  (g : ObjectGraph) (p : idKeyPair) (rest : list idKeyPair) :
  (isPrimitiveEntry g p = true →
     removePrimitives assertThrows (p :: rest) g
     = removePrimitives assertThrows rest
         (with_data (alter (delete (pair_key p)) (pair_id p)) g))
  ∧ (isPrimitiveEntry g p = false → assertThrows = true →
     removePrimitives assertThrows (p :: rest) g = (g, Some AssertionError))
  ∧ (isPrimitiveEntry g p = false → assertThrows = false →
     data g !! pair_id p = None →
     ∃ g', removePrimitives assertThrows (p :: rest) g = (g', Some TypeError)
           ∧ data g' = data g)
  ∧ (isPrimitiveEntry g p = false → assertThrows = false →
     is_Some (data g !! pair_id p) →
     ∃ g', removePrimitives assertThrows (p :: rest) g
           = removePrimitives assertThrows rest g'
           ∧ data g' = alter (delete (pair_key p)) (pair_id p) (data g)
           ∧ (data g' !! pair_id p) ≫= (.!! pair_key p) = None).
Proof.
  repeat split.
  - intros Hp. simpl. by rewrite Hp.
  - intros Hp ->. simpl. by rewrite Hp.
  - intros Hp -> Hd. simpl. rewrite Hp. simpl. rewrite Hd. by eexists.
  - intros Hp -> [m Hm]. simpl. rewrite Hp. simpl. rewrite Hm.
    eexists. split; [done|]. split; [done|]. simpl.
    rewrite lookup_alter_eq, Hm. simpl. apply lookup_delete_eq.
Qed.

Lemma removePrimitives_precondition_witness :
  removePrimitives true [root_a] diamond_graph
  = removePrimitives true []
      (with_data (alter (delete "a") 100%N) diamond_graph)
  ∧ removePrimitives true [root_l] diamond_graph
    = (diamond_graph, Some AssertionError)
  ∧ (∃ g', removePrimitives false [gone_a] diamond_graph
           = (g', Some TypeError) ∧ data g' = data diamond_graph)
  ∧ (∃ g', removePrimitives false [root_l] diamond_graph
           = removePrimitives false [] g'
           ∧ data g' = alter (delete "l") 100%N (data diamond_graph)
           ∧ (data g' !! 100%N) ≫= (.!! "l") = None).
Proof.
  split; [|split; [|split]].
  - apply (removePrimitives_precondition true diamond_graph root_a []).
    by vm_compute.
  - apply (removePrimitives_precondition true diamond_graph root_l []);
      [by vm_compute | reflexivity].
  - apply (removePrimitives_precondition false diamond_graph gone_a []);
      [by vm_compute | reflexivity | by vm_compute].
  - apply (removePrimitives_precondition false diamond_graph root_l []);
      [by vm_compute | reflexivity | eexists; by vm_compute].
Defined.

(** The entry "l" of the root of the diamond graph is the identity 102,
    not a sentinel; where console.assert only reports, the call returns
    normally and the entry is gone. *)
Lemma removePrimitives_deletes_reference :
  (data diamond_graph !! 100%N) ≫= (.!! "l") = Some 102%N
  ∧ isType 102 = false
  ∧ ∃ g', removePrimitives false [root_l] diamond_graph = (g', None)
          ∧ (data g' !! 100%N) ≫= (.!! "l") = None.
Proof.
  split; [by vm_compute|]. split; [done|]. eexists.
  split; [by vm_compute | by vm_compute].
Qed.

(** ** Serialization *)

Lemma lookup_while_ext (g g' : ObjectGraph) (fuel : nat) (name : string)
  (id : N) :
  same_stores g g' → lookup_while fuel g name id = lookup_while fuel g' name id.
Proof.
  intros (_ & _ & Hdata & Hprotos & _). revert id.
  induction fuel as [|fuel IH]; intros id; simpl; [done|].
  unfold getPrototype. rewrite <- Hdata, <- Hprotos.
  destruct (isType id); [done|]. destruct (data g !! id) as [m|]; [|done].
  destruct (m !! name) as [nextId|].
  - destruct (truthy nextId); [done | apply IH].
  - destruct (isInherited name); [done | apply IH].
Qed.

Lemma lookup__ext (g g' : ObjectGraph) (fuel : nat) (path : list string)
  (id : ident) :
  same_stores g g' → lookup_ fuel g path id = lookup_ fuel g' path id.
Proof.
  intros Hsame. revert id.
  induction path as [|name path IH]; intros [id|id]; simpl; [done | done | |].
  - rewrite (lookup_while_ext g g' fuel name id Hsame).
    destruct Hsame as (_ & _ & _ & Hprotos & _).
    unfold getPrototype. rewrite <- Hprotos.
    destruct (String.eqb name "__proto__").
    + destruct (isType id); [done | apply IH].
    + destruct (lookup_while fuel g' name id) as [[nextId|] | e |]; simpl;
        auto.
  - destruct (String.eqb name "__proto__"); [apply IH | done].
Qed.

Lemma lookup_ext (g g' : ObjectGraph) (fuel : nat) (path : string)
  (opt_root : option N) :
  same_stores g g' → lookup fuel g path opt_root = lookup fuel g' path opt_root.
Proof.
  intros Hsame. unfold lookup.
  pose proof Hsame as (Hroot & _). rewrite <- Hroot.
  destruct opt_root as [r|]; [destruct (truthy r)|];
    try apply (lookup__ext g g' _ _ _ Hsame);
    destruct (root g); try done; apply (lookup__ext g g' _ _ _ Hsame).
Qed.

Lemma same_stores_roundtrip (classBlacklist : list value) (now : N)
  (g : ObjectGraph) :
  same_stores (fromJSON classBlacklist now (toJSON g)) g.
Proof. by repeat split. Qed.

(** The round trip on a graph whose keys cache holds what [getKeys]
    computes from the stores: the graph read back from [toJSON] has the
    identities of the original, the same keys for every identity, and
    [lookup] returns the same on it for every path. *)
Lemma fromJSON_toJSON_roundtrip (classBlacklist : list value) (now : N)
  (g : ObjectGraph) :
  cache_ok g →
  getAllIds_ (fromJSON classBlacklist now (toJSON g)) = getAllIds_ g
  ∧ (∀ id, ∃ ks g1 g2,
        getKeys g id = Ret (ks, g1)
        ∧ getKeys (fromJSON classBlacklist now (toJSON g)) id = Ret (ks, g2))
  ∧ (∀ fuel path opt_root,
        lookup fuel (fromJSON classBlacklist now (toJSON g)) path opt_root
        = lookup fuel g path opt_root).
Proof.
  intros Hok. pose proof (same_stores_roundtrip classBlacklist now g) as Hsame.
  split; [done|]. split.
  - intros id.
    destruct (getKeys_computes g id Hok) as (r & g1 & Hg & Hr & _).
    destruct (getKeys_computes (fromJSON classBlacklist now (toJSON g)) id)
      as (r' & g2 & Hg' & Hr' & _); [by apply cache_ok_empty|].
    rewrite (getKeys_fuel_ext _ g Hsame), (getKeys__ext _ g _ _ _ Hsame) in Hr'.
    rewrite Hr in Hr'. injection Hr' as <-. eauto.
  - intros fuel path opt_root. by apply lookup_ext.
Qed.

Lemma fromJSON_toJSON_roundtrip_diamond :
  getAllIds_ (fromJSON [] 7 (toJSON diamond_graph)) = getAllIds_ diamond_graph
  ∧ (∀ id, ∃ ks g1 g2,
        getKeys diamond_graph id = Ret (ks, g1)
        ∧ getKeys (fromJSON [] 7 (toJSON diamond_graph)) id = Ret (ks, g2))
  ∧ (∀ fuel path opt_root,
        lookup fuel (fromJSON [] 7 (toJSON diamond_graph)) path opt_root
        = lookup fuel diamond_graph path opt_root).
Proof.
  apply (fromJSON_toJSON_roundtrip [] 7 diamond_graph).
  apply cache_ok_empty. by vm_compute.
Defined.

(** C5: [removeIds] leaves the keys cache as it is, and [toJSON] does
    not write the cache: on the diamond graph after [getKeys(104)] and
    [removeIds([102])], [getKeys(104)] returns the cached key ".l.d",
    through the removed identity, while the graph read back from
    [toJSON] computes ".r.d"; the stores of the two graphs are the
    same. *)
Theorem fromJSON_toJSON_stale_keys :
  keysCache diamond_graph = ∅
  ∧ data diamond_removed !! 102%N = None
  ∧ same_stores (fromJSON [] 7 (toJSON diamond_removed)) diamond_removed
  ∧ (∃ g1, getKeys diamond_removed 104 = Ret ([".l.d"], g1))
  ∧ (∃ g2, getKeys (fromJSON [] 7 (toJSON diamond_removed)) 104
           = Ret ([".r.d"], g2)).
Proof.
  split; [by vm_compute|]. split; [by vm_compute|].
  split; [apply same_stores_roundtrip|].
  split; eexists; by vm_compute.
Qed.

(** The cached key does not resolve any more: its segments lead through
    the removed identity. *)
Lemma removeIds_stale_key :
  (∃ g1, getKeys diamond_removed 104 = Ret ([".l.d"], g1))
  ∧ ∀ fuel, lookup_ (S fuel) diamond_removed ["l"; "d"] (Num 100)
            = Thrown TypeError.
Proof.
  split; [eexists; by vm_compute|]. intros fuel.
  assert (H100 : data diamond_removed !! 100%N
                 = Some {["a" := 3%N; "self" := 100%N; "l" := 102%N;
                          "r" := 103%N]}) by (by vm_compute).
  assert (H102 : data diamond_removed !! 102%N = None) by (by vm_compute).
  cbn [lookup_ lookup_while String.eqb Ascii.eqb Bool.eqb].
  change (isType 100) with false. rewrite H100.
  replace (({["a" := 3%N; "self" := 100%N; "l" := 102%N; "r" := 103%N]}
            : gmap string N) !! "l") with (Some 102%N) by (by vm_compute).
  cbn [truthy N.eqb negb res_bind lookup_ lookup_while String.eqb Ascii.eqb
       Bool.eqb].
  change (isType 102) with false. by rewrite H102.
Qed.

(** ** Capture of a blacklisted root *)

Lemma same_capture_refl (g : ObjectGraph) : same_capture g g.
Proof. repeat split; try done. by exists []. Qed.

Lemma same_capture_trans (g1 g2 g3 : ObjectGraph) :
  same_capture g1 g2 → same_capture g2 g3 → same_capture g1 g3.
Proof.
  intros (?&?&?&?&?&?&?&?&?&?&?&?&?&evs&He) (?&?&?&?&?&?&?&?&?&?&?&?&?&evs'&He').
  repeat split; try congruence.
  exists (evs' ++ evs). rewrite He', He. by rewrite app_assoc.
Qed.

(** The equations of the three mutually recursive functions. *)
Lemma capture_eq (rewriteName : string → string) (h : heap) (fuel : nat)
  (o : value) (opts : captureOpts) (g : ObjectGraph) :
  capture rewriteName h (S fuel) o opts g =
    if busy g then Ret (with_onDone (CbRecapture (onDone g) o opts) g)
    else
      let g' := with_onDone (CbCaptureDone (onDone g) (optOnDone opts))
                  (log EvCapture (reset (rootKey opts) (rootOf h o) g)) in
      if bool_decide (o ∈ blacklistedObjects g')
      then flush rewriteName h fuel g'
      else flush rewriteName h fuel (visitObject h o g').2.
Proof. reflexivity. Qed.

Lemma flush_eq (rewriteName : string → string) (h : heap) (fuel : nat)
  (g : ObjectGraph) :
  flush rewriteName h (S fuel) g =
    let g' := dequeue rewriteName h (maxDequeueSize g) (log EvTick g) in
    match q g' with
    | _ :: _ => Ret (log EvAsync (with_timers (S (timers g')) g'))
    | [] => call rewriteName h fuel (onDone g') g'
    end.
Proof. reflexivity. Qed.

Lemma call_eq (rewriteName : string → string) (h : heap) (fuel : nat)
  (cb : callback) (g : ObjectGraph) :
  call rewriteName h (S fuel) cb g =
    match cb with
    | CbNoop => Ret g
    | CbUser c => Ret (log (EvCallback c) g)
    | CbCaptureDone prev user =>
        try! g' := call rewriteName h fuel prev (stamp g) in
        Ret (with_busy false (fire user g'))
    | CbRecapture prev o opts =>
        try! g' := call rewriteName h fuel prev g in
        capture rewriteName h fuel o opts g'
    end.
Proof. reflexivity. Qed.

(** A callback chain without a queued capture returns, given fuel for
    its depth, and changes only [busy], the clock and the trace. *)
Lemma call_no_recapture (rewriteName : string → string) (h : heap)
  (cb : callback) :
  no_recapture cb = true →
  ∀ fuel g, depth cb ≤ fuel →
    ∃ g', call rewriteName h fuel cb g = Ret g' ∧ same_capture g g'.
Proof.
  induction cb as [|c|prev IH user|prev IH o opts]; intros Hcb fuel g Hfuel;
    simpl in *; try discriminate.
  - destruct fuel as [|fuel]; [lia|]. simpl. eauto using same_capture_refl.
  - destruct fuel as [|fuel]; [lia|]. simpl. eexists. split; [done|].
    repeat split; try done. by exists [EvCallback c].
  - destruct fuel as [|fuel]; [lia|]. rewrite call_eq.
    destruct (IH Hcb fuel (stamp g)) as (g1 & -> & Hsame); [lia|]. simpl.
    eexists. split; [done|].
    apply (same_capture_trans _ (stamp g));
      [repeat split; try done; by exists []|].
    apply (same_capture_trans _ g1); [done|].
    destruct user as [c|]; repeat split; try done;
      [by exists [EvCallback c] | by exists []].
Qed.

Lemma dequeue_empty (rewriteName : string → string) (h : heap) (n : nat)
  (g : ObjectGraph) : q g = [] → dequeue rewriteName h n g = g.
Proof. intros Hq. destruct n; simpl; [done | by rewrite Hq]. Qed.

(** C6, as amended: on an idle graph, the capture of an object of the
    blacklist returns in the same call with empty stores, with [root]
    set to the $UID of the object when its typeof is 'object' and to
    the object itself otherwise, with no flush left to the host, and
    with the onDone callback of the options run last. *)
Theorem capture_blacklisted_root (rewriteName : string → string) (h : heap)
  (g : ObjectGraph) (o : value) (opts : captureOpts) (fuel : nat) :
  idle g → o ∈ blacklistedObjects g → depth (onDone g) + 3 ≤ fuel →
  ∃ g', capture rewriteName h fuel o opts g = Ret g'
    ∧ data g' = ∅ ∧ metadata g' = ∅ ∧ protos g' = ∅ ∧ functions g' = []
    ∧ root g' = rootOf h o ∧ busy g' = false ∧ q g' = []
    ∧ timers g' = timers g
    ∧ ∀ c, optOnDone opts = Some c →
           ∃ evs, trace g' = EvCallback c :: evs ++ trace g.
Proof.
  intros [Hbusy Hq Hcb] Hin Hfuel.
  destruct fuel as [|[|[|fuel]]]; try lia.
  rewrite capture_eq, Hbusy. cbv zeta.
  rewrite bool_decide_eq_true_2 by done.
  rewrite flush_eq. cbv zeta. rewrite dequeue_empty by done.
  simpl q. rewrite Hq. simpl onDone. rewrite call_eq.
  match goal with
  | |- context [call _ _ fuel (onDone g) ?g0] =>
      destruct (call_no_recapture rewriteName h (onDone g) Hcb fuel g0)
        as (g1 & -> & Hsame); [lia|]
  end.
  destruct Hsame as (Hd&Hm&Hp&Hf&Hr&_&Hq1&Ht&_&_&_&_&_&evs&He).
  eexists. split; [reflexivity|].
  destruct (optOnDone opts) as [c|] eqn:Hc; simpl;
    rewrite ?Hd, ?Hm, ?Hp, ?Hf, ?Hr, ?Hq1, ?Ht; simpl;
    repeat (split; [done|]).
  - intros c' [= <-]. rewrite He. simpl.
    exists (evs ++ [EvTick; EvCapture]). by rewrite <- app_assoc.
  - by intros c' [=].
Qed.

Lemma capture_blacklisted_root_witness :
  ∃ g', capture id diamond 4 (VObj 5) with_callback fresh_graph = Ret g'
    ∧ data g' = ∅ ∧ metadata g' = ∅ ∧ protos g' = ∅ ∧ functions g' = []
    ∧ root g' = rootOf diamond (VObj 5) ∧ busy g' = false ∧ q g' = []
    ∧ timers g' = timers fresh_graph
    ∧ ∀ c, optOnDone with_callback = Some c →
           ∃ evs, trace g' = EvCallback c :: evs ++ trace fresh_graph.
Proof.
  apply (capture_blacklisted_root id diamond fresh_graph (VObj 5)
           with_callback 4).
  - split; reflexivity.
  - apply list_elem_of_here.
  - vm_compute. lia.
Defined.

(** While the capture of the diamond is in flight, the capture of the
    blacklisted object 5 returns at once: the stores still hold the
    first capture, and the callback has not run. *)
Lemma capture_blacklisted_while_busy :
  VObj 5 ∈ blacklistedObjects diamond_started
  ∧ ∀ fuel, ∃ g',
      capture id diamond (S fuel) (VObj 5) with_callback diamond_started
      = Ret g'
      ∧ data g' = data diamond_started ∧ data g' ≠ ∅
      ∧ busy g' = true ∧ trace g' = trace diamond_started.
Proof.
  split; [vm_compute; apply list_elem_of_here|].
  intros fuel. rewrite capture_eq.
  replace (busy diamond_started) with true by (vm_compute; reflexivity).
  eexists. split; [reflexivity|].
  split; [vm_compute; reflexivity|]. split; [vm_compute; discriminate|].
  split; vm_compute; reflexivity.
Qed.

(** ** Capture *)

Lemma NoDup_map_inj {A B} (f : A → B) (l : list A) (a b : A) :
  NoDup (map f l) → a ∈ l → b ∈ l → f a = f b → a = b.
Proof.
  induction l as [|x l IH]; simpl; [by intros _ ?%elem_of_nil|].
  intros [Hx Hl]%NoDup_cons [->|Ha]%elem_of_cons [->|Hb]%elem_of_cons Hab;
    [done | | | by apply IH].
  - destruct Hx. rewrite Hab. by apply (list_elem_of_fmap_2 f).
  - destruct Hx. rewrite <- Hab. by apply (list_elem_of_fmap_2 f).
Qed.

Section HeapFacts.

Variable h : heap.
Variable objs : list addr.
Hypothesis Hok : heap_ok h objs = true.

Lemma heap_ok_inj (a b : addr) :
  a ∈ objs → b ∈ objs → UID (h a) = UID (h b) → a = b.
Proof.
  unfold heap_ok in Hok. apply andb_true_iff in Hok as [Hnd _].
  apply bool_decide_eq_true in Hnd.
  apply (NoDup_map_inj (λ a, UID (h a)) objs a b Hnd).
Qed.

Lemma heap_ok_object (a : addr) :
  a ∈ objs →
  identity (UID (h a)) ∧ live_value objs (proto (h a)) = true
  ∧ ∀ p, p ∈ props (h a) → live_access objs (pget p) = true.
Proof.
  intros Ha. unfold heap_ok in Hok. apply andb_true_iff in Hok as [_ Hall].
  rewrite forallb_forall in Hall. apply list_elem_of_In in Ha.
  specialize (Hall a Ha).
  apply andb_true_iff in Hall as [Hall Hprops].
  apply andb_true_iff in Hall as [Hid Hproto].
  apply bool_decide_eq_true in Hid. split; [done|]. split; [done|].
  intros p Hp. rewrite forallb_forall in Hprops.
  apply Hprops. by apply list_elem_of_In.
Qed.

Lemma getProperty_live (a : addr) (name : string) :
  a ∈ objs → live_access objs (getProperty h a name) = true.
Proof.
  intros Ha. unfold getProperty.
  destruct (find _ (props (h a))) as [p|] eqn:Hp; [|done].
  apply find_some in Hp as [Hp _].
  destruct (heap_ok_object a Ha) as (_ & _ & Hprops).
  apply Hprops. by apply list_elem_of_In.
Qed.

End HeapFacts.

(** *** One visit *)

Lemma maybeSkip_object (h : heap) (g : ObjectGraph) (a : addr) :
  maybeSkip h g (VObj a)
  = match data g !! UID (h a) with
    | Some _ => inl (UID (h a))
    | None => inr a
    end.
Proof. unfold maybeSkip, typeOf. by destruct (callable (h a)). Qed.

Lemma maybeSkip_primitive (h : heap) (g : ObjectGraph) (o : value) :
  (∀ a, o ≠ VObj a) → ∃ t, maybeSkip h g o = inl t ∧ t ≠ 0%N.
Proof.
  intros Ho. destruct o; simpl; try (by eexists); by destruct (Ho a).
Qed.

(** A visit of an object that has its identity changes nothing. *)
Lemma visitObject_stored (h : heap) (g : ObjectGraph) (a : addr) :
  stored h g a → visitObject h (VObj a) g = (UID (h a), g).
Proof.
  intros [m Hm]. unfold visitObject. by rewrite maybeSkip_object, Hm.
Qed.

Lemma visitedNames_blacklists (h : heap) (g g' : ObjectGraph) (a : addr) :
  blacklistedKeys g' = blacklistedKeys g →
  blacklistedObjects g' = blacklistedObjects g →
  visitedNames h g' a = visitedNames h g a.
Proof.
  intros Hk Ho. unfold visitedNames, isKeyBlacklisted, isPropertyBlacklisted.
  by rewrite Hk, Ho.
Qed.

Lemma visitObject_first (h : heap) (g : ObjectGraph) (a : addr) :
  data g !! UID (h a) = None → metadata g !! UID (h a) = None →
  visitObject h (VObj a) g = (UID (h a), first_visit h a g).
Proof.
  intros Hd Hm. unfold visitObject. rewrite maybeSkip_object, Hd.
  unfold storeObject, storeMetadata, console_assert, first_visit.
  destruct (callable (h a)); cbn -[visitedNames];
    rewrite (bool_decide_eq_true_2 _ Hd); cbn -[visitedNames];
    rewrite (bool_decide_eq_true_2 _ Hm);
    (erewrite visitedNames_blacklists; [|reflexivity..]);
    unfold with_queue; cbn -[visitedNames]; by rewrite <- app_assoc.
Qed.

Section FirstVisit.

Variable h : heap.
Variable a : addr.
Variable g : ObjectGraph.

Lemma first_visit_data :
  data (first_visit h a g) = <[UID (h a) := ∅]> (data g).
Proof. unfold first_visit. by destruct (callable (h a)). Qed.

Lemma first_visit_metadata :
  metadata (first_visit h a g) = <[UID (h a) := ∅]> (metadata g).
Proof. unfold first_visit. by destruct (callable (h a)). Qed.

Lemma first_visit_protos : protos (first_visit h a g) = protos g.
Proof. unfold first_visit. by destruct (callable (h a)). Qed.

Lemma first_visit_q :
  q (first_visit h a g)
  = q g ++ [VisitPrototype a; VisitPropertyDescriptors a]
        ++ map (VisitProperty a) (visitedNames h g a).
Proof. unfold first_visit. by destruct (callable (h a)). Qed.

Lemma first_visit_trace :
  trace (first_visit h a g) = EvStore (UID (h a)) :: trace g.
Proof. unfold first_visit. by destruct (callable (h a)). Qed.

Lemma first_visit_onDone : onDone (first_visit h a g) = onDone g.
Proof. unfold first_visit. by destruct (callable (h a)). Qed.

Lemma first_visit_blacklistedKeys :
  blacklistedKeys (first_visit h a g) = blacklistedKeys g.
Proof. unfold first_visit. by destruct (callable (h a)). Qed.

Lemma first_visit_blacklistedObjects :
  blacklistedObjects (first_visit h a g) = blacklistedObjects g.
Proof. unfold first_visit. by destruct (callable (h a)). Qed.

Lemma first_visit_busy : busy (first_visit h a g) = busy g.
Proof. unfold first_visit. by destruct (callable (h a)). Qed.

Lemma first_visit_timers : timers (first_visit h a g) = timers g.
Proof. unfold first_visit. by destruct (callable (h a)). Qed.

Lemma first_visit_maxDequeueSize :
  maxDequeueSize (first_visit h a g) = maxDequeueSize g.
Proof. unfold first_visit. by destruct (callable (h a)). Qed.

Lemma first_visit_root : root (first_visit h a g) = root g.
Proof. unfold first_visit. by destruct (callable (h a)). Qed.

End FirstVisit.

Lemma stored_dom (h : heap) (g : ObjectGraph) (a : addr) :
  stored h g a ↔ UID (h a) ∈ dom (data g).
Proof. unfold stored. by rewrite elem_of_dom. Qed.

Lemma proto_tasks_elem (ts : list task) (a : addr) :
  a ∈ proto_tasks ts ↔ VisitPrototype a ∈ ts.
Proof.
  unfold proto_tasks. rewrite list_elem_of_omap. split.
  - intros ([] & Ht & Ha); simplify_eq. done.
  - intros Ht. by exists (VisitPrototype a).
Qed.

Lemma proto_tasks_app (ts ts' : list task) :
  proto_tasks (ts ++ ts') = proto_tasks ts ++ proto_tasks ts'.
Proof. apply omap_app. Qed.

Lemma proto_tasks_properties (a : addr) (names : list string) :
  proto_tasks (map (VisitProperty a) names) = [].
Proof. by induction names. Qed.

Lemma proto_tasks_first_visit (ts : list task) (a : addr)
  (names : list string) :
  proto_tasks (ts ++ [VisitPrototype a; VisitPropertyDescriptors a]
                  ++ map (VisitProperty a) names)
  = proto_tasks ts ++ [a].
Proof.
  rewrite proto_tasks_app. f_equal.
  change (a :: proto_tasks (map (VisitProperty a) names) = [a]).
  by rewrite proto_tasks_properties.
Qed.

Lemma visited_value_mono (h : heap) (g g' : ObjectGraph) (v : value) :
  dom (data g) ⊆ dom (data g') → visited_value h g v → visited_value h g' v.
Proof.
  intros Hsub. destruct v; simpl; try done. rewrite !stored_dom. set_solver.
Qed.

Lemma visited_access_mono (h : heap) (g g' : ObjectGraph) (x : access) :
  dom (data g) ⊆ dom (data g') → visited_access h g x → visited_access h g' x.
Proof. destruct x; simpl; [apply visited_value_mono | done]. Qed.

Section Invariant.

Variable h : heap.
Variable objs : list addr.
Hypothesis Hok : heap_ok h objs = true.

Lemma inv_first_visit (running : list task) (g : ObjectGraph) (a : addr) :
  capture_inv h objs running g → a ∈ objs → data g !! UID (h a) = None →
  capture_inv h objs running (first_visit h a g).
Proof.
  intros Hinv Ha Hnew.
  assert (Hfresh : UID (h a) ∉ dom (data g)) by (by apply not_elem_of_dom).
  assert (Hdom : dom (data (first_visit h a g)) = {[UID (h a)]} ∪ dom (data g)).
  { by rewrite first_visit_data, dom_insert_L. }
  assert (Hnames : ∀ b, visitedNames h (first_visit h a g) b
                        = visitedNames h g b).
  { intros b. apply visitedNames_blacklists;
      [apply first_visit_blacklistedKeys | apply first_visit_blacklistedObjects]. }
  assert (Hq : ∀ t, t ∈ running ++ q g → t ∈ running ++ q (first_visit h a g)).
  { intros t. rewrite first_visit_q, !elem_of_app. tauto. }
  split.
  - intros id. rewrite first_visit_trace, Hdom. simpl.
    rewrite elem_of_cons, elem_of_union, elem_of_singleton.
    by rewrite (inv_visits _ _ _ _ Hinv).
  - rewrite first_visit_trace. simpl. apply NoDup_cons. split.
    + by rewrite (inv_visits _ _ _ _ Hinv).
    + apply (inv_nodup _ _ _ _ Hinv).
  - rewrite first_visit_trace. simpl. apply (inv_failed _ _ _ _ Hinv).
  - rewrite first_visit_metadata, Hdom, dom_insert_L.
    by rewrite (inv_metadata _ _ _ _ Hinv).
  - rewrite first_visit_protos, Hdom.
    pose proof (inv_protos _ _ _ _ Hinv). set_solver.
  - intros id. rewrite Hdom, elem_of_union, elem_of_singleton.
    intros [-> | Hid]; [by exists a | by apply (inv_live _ _ _ _ Hinv)].
  - intros t Ht. rewrite first_visit_q, app_assoc, elem_of_app in Ht.
    rewrite stored_dom, Hdom. destruct Ht as [Ht | Ht].
    + destruct (inv_tasks _ _ _ _ Hinv t Ht) as [? ?%stored_dom].
      split; [done | set_solver].
    + assert (task_obj t = a) as ->; [|split; [done | set_solver]].
      simpl in Ht. rewrite !elem_of_cons in Ht. destruct Ht as [-> | [-> | Ht]]; [done..|].
      apply list_elem_of_fmap in Ht as (name & -> & _). done.
  - rewrite first_visit_q, app_assoc, proto_tasks_first_visit.
    apply NoDup_app. split; [|split].
    + apply (inv_proto_once _ _ _ _ Hinv).
    + intros b Hb ->%list_elem_of_singleton.
      apply proto_tasks_elem in Hb.
      destruct (inv_tasks _ _ _ _ Hinv _ Hb) as [_ Hst%stored_dom]. done.
    + apply NoDup_singleton.
  - intros b Hb. rewrite first_visit_q, app_assoc, elem_of_app in Hb.
    rewrite first_visit_protos.
    destruct Hb as [Hb | Hb]; [by apply (inv_proto_none _ _ _ _ Hinv)|].
    assert (b = a) as ->.
    { simpl in Hb. rewrite !elem_of_cons in Hb. destruct Hb as [[= ->] | [[=] | Hb]]; [done|].
      by apply list_elem_of_fmap in Hb as (name & [=] & _). }
    apply not_elem_of_dom. pose proof (inv_protos _ _ _ _ Hinv). set_solver.
  - intros b Hb. rewrite stored_dom, Hdom, elem_of_union, elem_of_singleton.
    assert (Hmono : dom (data g) ⊆ dom (data (first_visit h a g)))
      by set_solver.
    intros [Hba | Hst].
    + apply (heap_ok_inj h objs Hok) in Hba as ->; [|done..]. split.
      * left. rewrite first_visit_q, !elem_of_app. right. right. left.
        by left.
      * intros name. rewrite Hnames. intros Hname. left.
        rewrite first_visit_q, !elem_of_app. right. right. right.
        by apply list_elem_of_fmap_2.
    + apply stored_dom in Hst.
      destruct (inv_closed _ _ _ _ Hinv b Hb Hst) as [Hp Hn]. split.
      * destruct Hp as [? | ?]; [left; auto | right].
        by eapply visited_value_mono.
      * intros name. rewrite Hnames. intros Hname.
        destruct (Hn name Hname) as [? | ?]; [left; auto | right].
        by eapply visited_access_mono.
  - intros id m name v. rewrite first_visit_data.
    destruct (decide (UID (h a) = id)) as [<-|Hne].
    + rewrite lookup_insert_eq. intros [= <-]. by rewrite lookup_empty.
    + rewrite lookup_insert_ne by done. apply (inv_values _ _ _ _ Hinv).
  - rewrite first_visit_protos. apply (inv_parents _ _ _ _ Hinv).
  - rewrite first_visit_onDone. apply (inv_onDone _ _ _ _ Hinv).
Qed.

(** What a visit does: nothing, for a value that needs none, or the
    first visit of an object. *)
Lemma visitObject_cases (running : list task) (g : ObjectGraph) (o : value) :
  capture_inv h objs running g → live_value objs o = true →
  (∃ id, visitObject h o g = (id, g) ∧ id ≠ 0%N ∧ visited_value h g o)
  ∨ (∃ a, o = VObj a ∧ a ∈ objs ∧ data g !! UID (h a) = None
          ∧ visitObject h o g = (UID (h a), first_visit h a g)).
Proof.
  intros Hinv Hlive.
  assert (Hprim : (∀ a, o ≠ VObj a) →
            ∃ id, visitObject h o g = (id, g) ∧ id ≠ 0%N ∧ visited_value h g o).
  { intros Ho. destruct (maybeSkip_primitive h g o Ho) as (t & Ht & Hne).
    exists t. unfold visitObject. rewrite Ht. split; [done|]. split; [done|].
    destruct o; try done. by destruct (Ho a). }
  destruct o as [| |b|n|s| |a]; try (left; by apply Hprim).
  simpl in Hlive. apply bool_decide_eq_true in Hlive.
  destruct (data g !! UID (h a)) as [m|] eqn:Hm.
  - left. exists (UID (h a)). split; [apply visitObject_stored; by exists m|].
    split; [|by exists m].
    destruct (heap_ok_object h objs Hok a Hlive) as (Hid & _).
    unfold identity in Hid. lia.
  - right. exists a. repeat split; try done.
    apply visitObject_first; [done|].
    apply not_elem_of_dom. rewrite (inv_metadata _ _ _ _ Hinv).
    by apply not_elem_of_dom.
Qed.

Lemma inv_visitObject (running : list task) (g : ObjectGraph) (o : value) :
  capture_inv h objs running g → live_value objs o = true →
  capture_inv h objs running (visitObject h o g).2
  ∧ visited_value h (visitObject h o g).2 o
  ∧ (visitObject h o g).1 ≠ 0%N.
Proof.
  intros Hinv Hlive.
  destruct (visitObject_cases running g o Hinv Hlive)
    as [(id & -> & Hid & Hv) | (a & -> & Ha & Hnew & ->)]; simpl.
  - done.
  - split; [by apply inv_first_visit|]. split.
    + apply stored_dom. rewrite first_visit_data, dom_insert_L. set_solver.
    + destruct (heap_ok_object h objs Hok a Ha) as (Hid & _).
      unfold identity in Hid. lia.
Qed.

(** A change that keeps the identities stored and the visits logged. *)
Lemma inv_frame (running running' : list task) (g g' : ObjectGraph) :
  capture_inv h objs running g →
  visits (trace g') = visits (trace g) →
  failed (trace g') = failed (trace g) →
  dom (data g') = dom (data g) →
  dom (metadata g') = dom (metadata g) →
  dom (protos g') ⊆ dom (data g') →
  blacklistedKeys g' = blacklistedKeys g →
  blacklistedObjects g' = blacklistedObjects g →
  no_recapture (onDone g') = true →
  (∀ t, t ∈ running' ++ q g' → t ∈ running ++ q g) →
  NoDup (proto_tasks (running' ++ q g')) →
  (∀ a, VisitPrototype a ∈ running' ++ q g' → protos g' !! UID (h a) = None) →
  (∀ t, t ∈ running ++ q g → t ∈ running' ++ q g' ∨ task_done h g' t) →
  (∀ id m name v, data g' !! id = Some m → m !! name = Some v → v ≠ 0%N) →
  (∀ id p, protos g' !! id = Some p → p ≠ 0%N) →
  capture_inv h objs running' g'.
Proof.
  intros Hinv Hvisits Hfailed Hdata Hmeta Hprotos Hkeys Hobjs HonDone
         Hsub Honce Hnone Hdone Hvalues Hparents.
  assert (Hst : ∀ a, stored h g' a ↔ stored h g a).
  { intros a. by rewrite !stored_dom, Hdata. }
  assert (Hmono : dom (data g) ⊆ dom (data g')) by (by rewrite Hdata).
  split; try done.
  - intros id. by rewrite Hvisits, Hdata, (inv_visits _ _ _ _ Hinv).
  - rewrite Hvisits. apply (inv_nodup _ _ _ _ Hinv).
  - rewrite Hfailed. apply (inv_failed _ _ _ _ Hinv).
  - by rewrite Hmeta, Hdata, (inv_metadata _ _ _ _ Hinv).
  - intros id. rewrite Hdata. apply (inv_live _ _ _ _ Hinv).
  - intros t Ht. rewrite Hst. apply (inv_tasks _ _ _ _ Hinv). auto.
  - intros a Ha Hsa. apply Hst in Hsa.
    destruct (inv_closed _ _ _ _ Hinv a Ha Hsa) as [Hp Hn]. split.
    + destruct Hp as [Hp | Hp].
      * destruct (Hdone _ Hp) as [? | ?]; [by left | by right].
      * right. by eapply visited_value_mono.
    + intros name. rewrite (visitedNames_blacklists h g g' a Hkeys Hobjs).
      intros Hname. destruct (Hn name Hname) as [Hq | Hq].
      * destruct (Hdone _ Hq) as [? | ?]; [by left | by right].
      * right. by eapply visited_access_mono.
Qed.

(** *** The tasks *)

Lemma inv_pop (g : ObjectGraph) (t : task) (rest : list task) :
  capture_inv h objs [] g → q g = t :: rest →
  capture_inv h objs [t] (with_queue (λ _, rest) g).
Proof.
  intros Hinv Hq.
  pose proof (inv_proto_once _ _ _ _ Hinv) as Honce.
  pose proof (inv_proto_none _ _ _ _ Hinv) as Hnone.
  rewrite Hq in Honce, Hnone.
  apply (inv_frame [] [t] g); try done.
  - apply (inv_protos _ _ _ _ Hinv).
  - apply (inv_onDone _ _ _ _ Hinv).
  - intros t'. simpl. by rewrite Hq.
  - intros t'. simpl. rewrite Hq. by left.
  - apply (inv_values _ _ _ _ Hinv).
  - apply (inv_parents _ _ _ _ Hinv).
Qed.

Lemma storeProto_fresh (g : ObjectGraph) (oId protoId : N) :
  protos g !! oId = None →
  storeProto oId protoId g = with_protos (insert oId protoId) g.
Proof. intros Hp. unfold storeProto. by rewrite Hp. Qed.

Lemma inv_storeProto (g : ObjectGraph) (a : addr) (protoId : N) :
  capture_inv h objs [VisitPrototype a] g →
  visited_value h g (proto (h a)) → protoId ≠ 0%N →
  capture_inv h objs [] (storeProto (UID (h a)) protoId g).
Proof.
  intros Hinv Hv Hne.
  assert (Hin : VisitPrototype a ∈ [VisitPrototype a] ++ q g) by (by left).
  destruct (inv_tasks _ _ _ _ Hinv _ Hin) as [Ha Hst%stored_dom].
  rewrite (storeProto_fresh _ _ _ (inv_proto_none _ _ _ _ Hinv a Hin)).
  pose proof (inv_proto_once _ _ _ _ Hinv) as Honce.
  change (NoDup (a :: proto_tasks (q g))) in Honce.
  apply NoDup_cons in Honce as [Hna Honce].
  apply (inv_frame [VisitPrototype a] [] g); try done.
  - simpl. rewrite dom_insert_L. pose proof (inv_protos _ _ _ _ Hinv).
    set_solver.
  - apply (inv_onDone _ _ _ _ Hinv).
  - intros t Ht. by right.
  - intros b Hb. simpl in Hb |- *.
    destruct (inv_tasks _ _ _ _ Hinv (VisitPrototype b)) as [Hbo _];
      [by right|].
    rewrite lookup_insert_ne.
    + apply (inv_proto_none _ _ _ _ Hinv). by right.
    + intros Heq. apply (heap_ok_inj h objs Hok) in Heq as ->; [|done..].
      by apply Hna, proto_tasks_elem.
  - intros t [->%list_elem_of_singleton | Ht]%elem_of_app; [by right | by left].
  - apply (inv_values _ _ _ _ Hinv).
  - intros id p. simpl. destruct (decide (UID (h a) = id)) as [<-|Hid].
    + rewrite lookup_insert_eq. by intros [= <-].
    + rewrite lookup_insert_ne by done. apply (inv_parents _ _ _ _ Hinv).
Qed.

Lemma inv_visitPrototype (g : ObjectGraph) (a : addr) :
  capture_inv h objs [VisitPrototype a] g →
  capture_inv h objs [] (visitPrototype h a g).
Proof.
  intros Hinv.
  destruct (inv_tasks _ _ _ _ Hinv (VisitPrototype a)) as [Ha _]; [by left|].
  destruct (heap_ok_object h objs Hok a Ha) as (_ & Hlive & _).
  destruct (inv_visitObject _ g _ Hinv Hlive) as (Hinv' & Hv & Hne).
  unfold visitPrototype. destruct (visitObject h (proto (h a)) g) as [pid g1].
  by apply inv_storeProto.
Qed.

Lemma inv_store_property (g : ObjectGraph) (a : addr) (propertyName : string)
  (name : string) (id : N) :
  capture_inv h objs [VisitProperty a propertyName] g →
  visited_access h g (getProperty h a propertyName) → id ≠ 0%N →
  capture_inv h objs []
    (with_data (alter (insert name id) (UID (h a))) g).
Proof.
  intros Hinv Hv Hne.
  apply (inv_frame [VisitProperty a propertyName] [] g); try done.
  - simpl. apply dom_alter_L.
  - simpl. rewrite dom_alter_L. apply (inv_protos _ _ _ _ Hinv).
  - apply (inv_onDone _ _ _ _ Hinv).
  - intros t Ht. by right.
  - apply (inv_proto_once _ _ _ _ Hinv).
  - intros b Hb. apply (inv_proto_none _ _ _ _ Hinv). by right.
  - intros t [->%list_elem_of_singleton | Ht]%elem_of_app; [right | by left].
    simpl. eapply visited_access_mono; [|done]. simpl. by rewrite dom_alter_L.
  - intros id' m n v. simpl.
    destruct (decide (UID (h a) = id')) as [<-|Hid].
    + rewrite lookup_alter_eq.
      destruct (data g !! UID (h a)) as [m0|] eqn:Hm0; simpl; [|done].
      intros [= <-]. destruct (decide (name = n)) as [<-|Hn].
      * rewrite lookup_insert_eq. by intros [= <-].
      * rewrite lookup_insert_ne by done.
        apply (inv_values _ _ _ _ Hinv (UID (h a)) m0 n v Hm0).
    + rewrite lookup_alter_ne by done. apply (inv_values _ _ _ _ Hinv).
  - apply (inv_parents _ _ _ _ Hinv).
Qed.

Variable rewriteName : string → string.

Lemma inv_visitProperty (g : ObjectGraph) (a : addr) (propertyName : string) :
  capture_inv h objs [VisitProperty a propertyName] g →
  capture_inv h objs [] (visitProperty rewriteName h a propertyName g).
Proof.
  intros Hinv.
  destruct (inv_tasks _ _ _ _ Hinv (VisitProperty a propertyName)) as [Ha _];
    [by left|].
  pose proof (getProperty_live h objs Hok a propertyName Ha) as Hlive.
  unfold visitProperty.
  destruct (getProperty h a propertyName) as [v|] eqn:Hget.
  - destruct (inv_visitObject _ g _ Hinv Hlive) as (Hinv' & Hv & Hne).
    destruct (visitObject h v g) as [id g1].
    apply (inv_store_property g1 a propertyName); [done| |done].
    by rewrite Hget.
  - apply (inv_store_property g a propertyName); [done| |done].
    by rewrite Hget.
Qed.

Lemma inv_visitPropertyDescriptors (g : ObjectGraph) (a : addr) :
  capture_inv h objs [VisitPropertyDescriptors a] g →
  capture_inv h objs [] (visitPropertyDescriptors h a g).
Proof.
  intros Hinv. unfold visitPropertyDescriptors.
  apply visitPropertyDescriptors_loop_invariant.
  - apply (inv_frame [VisitPropertyDescriptors a] [] g); try done.
    + apply (inv_protos _ _ _ _ Hinv).
    + apply (inv_onDone _ _ _ _ Hinv).
    + intros t Ht. by right.
    + apply (inv_proto_once _ _ _ _ Hinv).
    + intros b Hb. apply (inv_proto_none _ _ _ _ Hinv). by right.
    + intros t [->%list_elem_of_singleton | Ht]%elem_of_app;
        [by right | by left].
    + apply (inv_values _ _ _ _ Hinv).
    + apply (inv_parents _ _ _ _ Hinv).
  - intros acc name [d|] _ Hacc.
    + apply (inv_frame [] [] acc); try done.
      * simpl. apply dom_alter_L.
      * apply (inv_protos _ _ _ _ Hacc).
      * apply (inv_onDone _ _ _ _ Hacc).
      * apply (inv_proto_once _ _ _ _ Hacc).
      * apply (inv_proto_none _ _ _ _ Hacc).
      * intros t Ht. by left.
      * apply (inv_values _ _ _ _ Hacc).
      * apply (inv_parents _ _ _ _ Hacc).
    + apply (inv_frame [] [] acc); try done.
      * apply (inv_protos _ _ _ _ Hacc).
      * apply (inv_onDone _ _ _ _ Hacc).
      * apply (inv_proto_once _ _ _ _ Hacc).
      * apply (inv_proto_none _ _ _ _ Hacc).
      * intros t Ht. by left.
      * apply (inv_values _ _ _ _ Hacc).
      * apply (inv_parents _ _ _ _ Hacc).
Qed.

Lemma inv_run_task (g : ObjectGraph) (t : task) :
  capture_inv h objs [t] g → capture_inv h objs [] (run_task rewriteName h t g).
Proof.
  destruct t; simpl;
    [apply inv_visitPrototype | apply inv_visitPropertyDescriptors
     | apply inv_visitProperty].
Qed.

Lemma inv_dequeue (n : nat) (g : ObjectGraph) :
  capture_inv h objs [] g → capture_inv h objs [] (dequeue rewriteName h n g).
Proof.
  revert g. induction n as [|n IH]; intros g Hinv; simpl; [done|].
  destruct (q g) as [|t rest] eqn:Hq; [done|].
  apply IH, inv_run_task. by apply inv_pop.
Qed.

End Invariant.

(** *** What the tasks leave as it is *)

Lemma task_frame_refl (g : ObjectGraph) : task_frame g g.
Proof. by repeat split. Qed.

Lemma task_frame_trans (g1 g2 g3 : ObjectGraph) :
  task_frame g1 g2 → task_frame g2 g3 → task_frame g1 g3.
Proof.
  intros (?&?&?&?&?&?&?) (?&?&?&?&?&?&?).
  repeat split; try congruence. set_solver.
Qed.

Lemma visitObject_frame (h : heap) (o : value) (g : ObjectGraph) :
  task_frame g (visitObject h o g).2.
Proof.
  unfold visitObject. destruct (maybeSkip h g o) as [id|a];
    [apply task_frame_refl|].
  unfold storeObject, storeMetadata, console_assert.
  destruct (callable (h a)); cbn -[visitedNames];
    repeat case_bool_decide; cbn -[visitedNames];
    repeat split; try done;
    match goal with
    | |- dom (data g) ⊆ _ =>
        change (dom (data g) ⊆ dom (<[UID (h a) := ∅]> (data g)));
        rewrite dom_insert_L; set_solver
    end.
Qed.

Lemma storeProto_frame (oId protoId : N) (g : ObjectGraph) :
  task_frame g (storeProto oId protoId g).
Proof.
  unfold storeProto, console_assert.
  destruct (negb _); by repeat split.
Qed.

Lemma run_task_frame (rewriteName : string → string) (h : heap) (t : task)
  (g : ObjectGraph) :
  task_frame g (run_task rewriteName h t g).
Proof.
  destruct t as [a|a|a name]; simpl.
  - unfold visitPrototype.
    pose proof (visitObject_frame h (proto (h a)) g) as Hv.
    destruct (visitObject h (proto (h a)) g) as [pid g1].
    eapply task_frame_trans; [exact Hv | apply storeProto_frame].
  - unfold visitPropertyDescriptors.
    apply (visitPropertyDescriptors_loop_invariant h a (task_frame g));
      [apply task_frame_refl|].
    intros acc name d _ Hacc. eapply task_frame_trans; [exact Hacc|].
    destruct d; by repeat split.
  - unfold visitProperty. destruct (getProperty h a name) as [v|].
    + pose proof (visitObject_frame h v g) as Hv.
      destruct (visitObject h v g) as [id g1].
      eapply task_frame_trans; [exact Hv|].
      repeat split; try done. simpl. by rewrite dom_alter_L.
    + repeat split; try done. simpl. by rewrite dom_alter_L.
Qed.

Lemma dequeue_frame (rewriteName : string → string) (h : heap) (n : nat)
  (g : ObjectGraph) :
  task_frame g (dequeue rewriteName h n g).
Proof.
  revert g. induction n as [|n IH]; intros g; simpl; [apply task_frame_refl|].
  destruct (q g) as [|t rest]; [apply task_frame_refl|].
  eapply task_frame_trans; [|apply IH].
  eapply task_frame_trans; [|apply run_task_frame]. by repeat split.
Qed.

(** *** Flushes and callbacks *)

Lemma call_same (rewriteName : string → string) (h : heap) (cb : callback) :
  no_recapture cb = true →
  ∀ fuel g g', call rewriteName h fuel cb g = Ret g' →
    same_capture g g' ∧ visits (trace g') = visits (trace g)
    ∧ failed (trace g') = failed (trace g)
    ∧ match cb with
      | CbCaptureDone _ _ => busy g' = false
      | _ => True
      end.
Proof.
  induction cb as [|c|prev IH user|prev IH o opts]; intros Hcb fuel g g' Hcall;
    simpl in Hcb; try discriminate;
    (destruct fuel as [|fuel]; [discriminate|]); rewrite call_eq in Hcall.
  - injection Hcall as <-. split; [apply same_capture_refl|]. by split.
  - injection Hcall as <-. split; [|by split].
    repeat split; try done. by exists [EvCallback c].
  - destruct (call rewriteName h fuel prev (stamp g)) as [g1 | e |] eqn:Hprev;
      simpl in Hcall; try discriminate.
    injection Hcall as <-.
    destruct (IH Hcb _ _ _ Hprev) as (Hsame & Hvisits & Hfailed & _).
    split; [|split; [|split]].
    + apply (same_capture_trans _ (stamp g));
        [repeat split; try done; by exists []|].
      apply (same_capture_trans _ g1); [done|].
      destruct user as [c|]; repeat split; try done;
        [by exists [EvCallback c] | by exists []].
    + transitivity (visits (trace g1)); [by destruct user | exact Hvisits].
    + transitivity (failed (trace g1)); [by destruct user | exact Hfailed].
    + by destruct user.
Qed.

Section Runs.

Variable h : heap.
Variable objs : list addr.
Hypothesis Hok : heap_ok h objs = true.

(** A change of the scheduling fields and of the trace that logs no
    store and no failed assertion. *)
Lemma inv_same (g g' : ObjectGraph) :
  capture_inv h objs [] g →
  data g' = data g → metadata g' = metadata g → protos g' = protos g →
  q g' = q g → blacklistedKeys g' = blacklistedKeys g →
  blacklistedObjects g' = blacklistedObjects g →
  no_recapture (onDone g') = true →
  visits (trace g') = visits (trace g) →
  failed (trace g') = failed (trace g) →
  capture_inv h objs [] g'.
Proof.
  intros Hinv Hd Hm Hp Hq Hk Ho HonDone Hv Hf.
  apply (inv_frame h objs [] [] g); try done.
  - by rewrite Hd.
  - by rewrite Hm.
  - rewrite Hp, Hd. apply (inv_protos _ _ _ _ Hinv).
  - intros t. by rewrite Hq.
  - rewrite Hq. apply (inv_proto_once _ _ _ _ Hinv).
  - intros a. rewrite Hq, Hp. apply (inv_proto_none _ _ _ _ Hinv).
  - intros t. rewrite Hq. by left.
  - rewrite Hd. apply (inv_values _ _ _ _ Hinv).
  - rewrite Hp. apply (inv_parents _ _ _ _ Hinv).
Qed.

Variable rewriteName : string → string.

Lemma inv_call (cb : callback) (fuel : nat) (g g' : ObjectGraph) :
  no_recapture cb = true → capture_inv h objs [] g →
  call rewriteName h fuel cb g = Ret g' →
  capture_inv h objs [] g' ∧ same_capture g g'.
Proof.
  intros Hcb Hinv Hcall.
  destruct (call_same rewriteName h cb Hcb _ _ _ Hcall)
    as (Hsame & Hv & Hf & _).
  split; [|done].
  destruct Hsame as (Hd&Hm&Hp&_&_&_&Hq&_&HonDone&_&Ho&Hk&_).
  apply (inv_same g); try done.
  rewrite HonDone. apply (inv_onDone _ _ _ _ Hinv).
Qed.

Lemma run_ok_flush (o : value) (opts : captureOpts) (g0 g g' : ObjectGraph)
  (fuel : nat) :
  capture_inv h objs [] g → busy g = true → timers g = 0 →
  visited_value h g o →
  blacklistedKeys g = blacklistedKeys g0 →
  blacklistedObjects g = blacklistedObjects g0 →
  maxDequeueSize g = maxDequeueSize g0 →
  onDone g = CbCaptureDone (onDone g0) (optOnDone opts) →
  flush rewriteName h fuel g = Ret g' → run_ok h objs o opts g0 g'.
Proof.
  intros Hinv Hb Ht Hroot Hk Ho Hmax HonDone. destruct fuel as [|fuel]; [done|].
  rewrite flush_eq. cbv zeta.
  assert (Hinv1 : capture_inv h objs [] (log EvTick g)).
  { apply (inv_same g); try done. apply (inv_onDone _ _ _ _ Hinv). }
  pose proof (inv_dequeue h objs Hok rewriteName (maxDequeueSize g) _ Hinv1)
    as Hinv2.
  pose proof (dequeue_frame rewriteName h (maxDequeueSize g) (log EvTick g))
    as (Hdom & Hbusy & Htimers & Hmax2 & HonDone2 & Hk2 & Ho2).
  simpl in Hdom, Hbusy, Htimers, Hmax2, HonDone2, Hk2, Ho2.
  set (g1 := dequeue rewriteName h (maxDequeueSize g) (log EvTick g)) in *.
  assert (Hroot1 : visited_value h g1 o) by (by eapply visited_value_mono).
  destruct (q g1) as [|t rest] eqn:Hq1.
  - intros Hcall.
    destruct (inv_call _ _ _ _ (inv_onDone _ _ _ _ Hinv2) Hinv2 Hcall)
      as (Hinv' & Hsame).
    destruct (call_same rewriteName h _ (inv_onDone _ _ _ _ Hinv2) _ _ _ Hcall)
      as (_ & _ & _ & Hdone).
    rewrite HonDone2, HonDone in Hdone.
    destruct Hsame as (Hd&_&_&_&_&_&Hq&Ht'&HonDone'&_&Ho'&Hk'&Hmax'&_).
    split; [done|]. split.
    { eapply visited_value_mono; [|exact Hroot1]. by rewrite Hd. }
    repeat (split; [congruence|]).
    rewrite Hdone. split; congruence.
  - intros [= <-]. split.
    { apply (inv_same g1); try done. apply (inv_onDone _ _ _ _ Hinv2). }
    split; [done|]. simpl. repeat (split; [congruence|]).
    rewrite Hbusy, Hb. congruence.
Qed.

Lemma run_ok_timeout (o : value) (opts : captureOpts) (g0 g g' : ObjectGraph)
  (fuel : nat) :
  run_ok h objs o opts g0 g → timeout rewriteName h fuel g = Ret g' →
  run_ok h objs o opts g0 g'.
Proof.
  intros Hrun. pose proof Hrun as (Hinv & Hroot & Hk & Ho & Hmax & HonDone & Hs).
  unfold timeout. destruct (timers g) as [|n] eqn:Ht; [by intros [= <-]|].
  destruct (busy g) eqn:Hb; [|by destruct Hs]. injection Hs as ->.
  apply run_ok_flush; try done.
  apply (inv_same g); try done. apply (inv_onDone _ _ _ _ Hinv).
Qed.

(** The graph that [capture] hands to the first visit. *)
Lemma inv_reset (g0 : ObjectGraph) (k : string) (r : value) (cb : callback) :
  q g0 = [] → no_recapture cb = true →
  capture_inv h objs [] (with_onDone cb (log EvCapture (reset k r g0))).
Proof.
  intros Hq Hcb. split; simpl.
  - intros id. rewrite dom_empty_L. split; [by intros ?%elem_of_nil|].
    by intros ?%elem_of_empty.
  - apply NoDup_nil_2.
  - done.
  - by rewrite !dom_empty_L.
  - by rewrite !dom_empty_L.
  - intros id. rewrite dom_empty_L. by intros ?%elem_of_empty.
  - intros t. rewrite Hq. by intros ?%elem_of_nil.
  - rewrite Hq. apply NoDup_nil_2.
  - intros a. rewrite Hq. by intros ?%elem_of_nil.
  - intros a _ [m Hm]. simpl in Hm. by rewrite lookup_empty in Hm.
  - intros id m name v. by rewrite lookup_empty.
  - intros id p. by rewrite lookup_empty.
  - done.
Qed.

Lemma run_ok_capture (o : value) (opts : captureOpts) (g0 g : ObjectGraph)
  (fuel : nat) :
  idle g0 → timers g0 = 0 → live_value objs o = true →
  o ∉ blacklistedObjects g0 →
  capture rewriteName h fuel o opts g0 = Ret g → run_ok h objs o opts g0 g.
Proof.
  intros [Hbusy Hq Hcb] Ht Hlive Hbl. destruct fuel as [|fuel]; [done|].
  rewrite capture_eq, Hbusy. cbv zeta.
  rewrite bool_decide_eq_false_2 by done.
  set (g1 := with_onDone (CbCaptureDone (onDone g0) (optOnDone opts))
               (log EvCapture (reset (rootKey opts) (rootOf h o) g0))).
  assert (Hinv1 : capture_inv h objs [] g1) by (by apply inv_reset).
  destruct (inv_visitObject h objs Hok [] g1 o Hinv1 Hlive) as (Hinv2 & Hv & _).
  pose proof (visitObject_frame h o g1) as (_ & Hb2 & Ht2 & Hm2 & Hd2 & Hk2 & Ho2).
  apply (run_ok_flush o opts g0 (visitObject h o g1).2 g fuel Hinv2);
    [by rewrite Hb2 | by rewrite Ht2 | exact Hv | by rewrite Hk2
     | by rewrite Ho2 | by rewrite Hm2 | by rewrite Hd2].
Qed.

End Runs.

(** *** The work that is left decreases *)

Lemma sum_filter_mono (w : addr → nat) (f : addr → N) (l : list addr)
  (D D' : gset N) :
  D ⊆ D' →
  sum_list (map w (filter (λ a, f a ∉ D') l))
  ≤ sum_list (map w (filter (λ a, f a ∉ D) l)).
Proof.
  intros Hsub. induction l as [|b l IH]; [done|].
  rewrite !filter_cons. repeat case_decide; simpl; try lia. set_solver.
Qed.

Lemma sum_filter_insert (w : addr → nat) (f : addr → N) (l : list addr)
  (D : gset N) (a : addr) :
  a ∈ l → f a ∉ D →
  sum_list (map w (filter (λ b, f b ∉ {[f a]} ∪ D) l)) + w a
  ≤ sum_list (map w (filter (λ b, f b ∉ D) l)).
Proof.
  intros Ha Hnew. induction l as [|b l IH].
  { by apply elem_of_nil in Ha. }
  pose proof (sum_filter_mono w f l D ({[f a]} ∪ D) ltac:(set_solver)) as Hrest.
  apply elem_of_cons in Ha as [<- | Ha]; rewrite !filter_cons.
  - destruct (decide (f a ∉ {[f a]} ∪ D)); [set_solver|].
    destruct (decide (f a ∉ D)); [|done]. simpl. lia.
  - specialize (IH Ha). repeat case_decide; simpl; try lia. set_solver.
Qed.

Section Work.

Variable h : heap.
Variable objs : list addr.
Hypothesis Hok : heap_ok h objs = true.

Lemma pending_mono (D D' : gset N) :
  D ⊆ D' → pending h objs D' ≤ pending h objs D.
Proof. apply sum_filter_mono. Qed.

Lemma pending_insert (D : gset N) (a : addr) :
  a ∈ objs → UID (h a) ∉ D →
  pending h objs ({[UID (h a)]} ∪ D) + (3 + length (props (h a)))
  ≤ pending h objs D.
Proof.
  apply (sum_filter_insert (λ a, 3 + length (props (h a)))
           (λ a, UID (h a)) objs D a).
Qed.

Lemma work_same (g g' : ObjectGraph) :
  length (q g') = length (q g) → dom (data g') = dom (data g) →
  work h objs g' = work h objs g.
Proof. intros Hq Hd. unfold work. by rewrite Hq, Hd. Qed.

Lemma work_first_visit (g : ObjectGraph) (a : addr) :
  a ∈ objs → data g !! UID (h a) = None →
  work h objs (first_visit h a g) < work h objs g.
Proof.
  intros Ha Hnew. unfold work.
  rewrite first_visit_q, first_visit_data, dom_insert_L, !length_app.
  simpl. rewrite length_map.
  assert (length (visitedNames h g a) ≤ length (props (h a))) as Hlen.
  { unfold visitedNames, getOwnPropertyNames.
    etransitivity; [apply length_filter|]. by rewrite length_map. }
  pose proof (pending_insert (dom (data g)) a Ha
                ltac:(by apply not_elem_of_dom)).
  lia.
Qed.

Lemma work_visitObject (running : list task) (g : ObjectGraph) (o : value) :
  capture_inv h objs running g → live_value objs o = true →
  work h objs (visitObject h o g).2 ≤ work h objs g.
Proof.
  intros Hinv Hlive.
  destruct (visitObject_cases h objs Hok running g o Hinv Hlive)
    as [(id & -> & _) | (a & -> & Ha & Hnew & ->)]; simpl; [done|].
  pose proof (work_first_visit g a Ha Hnew). lia.
Qed.

Variable rewriteName : string → string.

Lemma work_run_task (g : ObjectGraph) (t : task) :
  capture_inv h objs [t] g →
  work h objs (run_task rewriteName h t g) ≤ work h objs g.
Proof.
  intros Hinv.
  destruct (inv_tasks _ _ _ _ Hinv t) as [Ha _]; [by left|].
  destruct t as [a|a|a name]; simpl in Ha |- *.
  - destruct (heap_ok_object h objs Hok a Ha) as (_ & Hlive & _).
    pose proof (work_visitObject _ g _ Hinv Hlive) as Hle.
    unfold visitPrototype.
    destruct (visitObject h (proto (h a)) g) as [pid g1]. simpl in Hle.
    etransitivity; [|exact Hle]. apply Nat.eq_le_incl, work_same.
    + unfold storeProto, console_assert. by destruct (negb _).
    + unfold storeProto, console_assert. by destruct (negb _).
  - apply Nat.eq_le_incl. unfold visitPropertyDescriptors.
    apply (visitPropertyDescriptors_loop_invariant h a
             (λ acc, work h objs acc = work h objs g)); [done|].
    intros acc name d _ <-.
    destruct d; by apply work_same.
  - pose proof (getProperty_live h objs Hok a name Ha) as Hlive.
    unfold visitProperty. destruct (getProperty h a name) as [v|].
    + pose proof (work_visitObject _ g _ Hinv Hlive) as Hle.
      destruct (visitObject h v g) as [id g1]. simpl in Hle.
      etransitivity; [|exact Hle]. apply Nat.eq_le_incl, work_same; [done|].
      simpl. by rewrite dom_alter_L.
    + apply Nat.eq_le_incl, work_same; [done|]. simpl. by rewrite dom_alter_L.
Qed.

Lemma work_pop (g : ObjectGraph) (t : task) (rest : list task) :
  q g = t :: rest →
  S (work h objs (with_queue (λ _, rest) g)) = work h objs g.
Proof. intros Hq. unfold work. simpl. by rewrite Hq. Qed.

Lemma work_dequeue (n : nat) (g : ObjectGraph) :
  capture_inv h objs [] g →
  work h objs (dequeue rewriteName h n g) ≤ work h objs g.
Proof.
  revert g. induction n as [|n IH]; intros g Hinv; simpl; [done|].
  destruct (q g) as [|t rest] eqn:Hq; [done|].
  pose proof (inv_pop h objs g t rest Hinv Hq) as Hpop.
  pose proof (work_run_task _ t Hpop) as Hrun.
  pose proof (work_pop g t rest Hq) as Hwork.
  pose proof (IH _ (inv_run_task h objs Hok rewriteName _ t Hpop)). lia.
Qed.

Lemma work_dequeue_progress (n : nat) (g : ObjectGraph) :
  capture_inv h objs [] g → 0 < n → q g ≠ [] →
  work h objs (dequeue rewriteName h n g) < work h objs g.
Proof.
  intros Hinv Hn Hq. destruct n as [|n]; [lia|]. simpl.
  destruct (q g) as [|t rest] eqn:Hqg; [done|].
  pose proof (inv_pop h objs g t rest Hinv Hqg) as Hpop.
  pose proof (work_run_task _ t Hpop) as Hrun.
  pose proof (work_pop g t rest Hqg) as Hwork.
  pose proof (work_dequeue n _ (inv_run_task h objs Hok rewriteName _ t Hpop)).
  lia.
Qed.

End Work.

(** *** The capture completes *)

Section Completion.

Variable h : heap.
Variable objs : list addr.
Hypothesis Hok : heap_ok h objs = true.
Variable rewriteName : string → string.

(** A flush that the host runs ends the capture or leaves less work. *)
Lemma timeout_progress (o : value) (opts : captureOpts) (g0 g : ObjectGraph)
  (fuel : nat) :
  no_recapture (onDone g0) = true → 0 < maxDequeueSize g0 →
  depth (onDone g0) + 2 ≤ fuel →
  run_ok h objs o opts g0 g → busy g = true →
  ∃ g', timeout rewriteName h fuel g = Ret g'
        ∧ (busy g' = false ∨ work h objs g' < work h objs g).
Proof.
  intros Hcb Hmax Hfuel (Hinv & Hroot & Hk & Ho & Hm & HonDone & Hs) Hb.
  rewrite Hb in Hs. destruct fuel as [|fuel]; [lia|].
  unfold timeout. rewrite Hs, flush_eq. cbv zeta. simpl maxDequeueSize.
  assert (Hinv0 : capture_inv h objs [] (log EvTick (with_timers 0 g))).
  { apply (inv_same h objs g); try done. apply (inv_onDone _ _ _ _ Hinv). }
  pose proof (dequeue_frame rewriteName h (maxDequeueSize g)
                (log EvTick (with_timers 0 g)))
    as (_ & _ & _ & _ & HonDone1 & _).
  simpl in HonDone1.
  set (g1 := dequeue rewriteName h (maxDequeueSize g)
               (log EvTick (with_timers 0 g))) in *.
  destruct (q g1) as [|t rest] eqn:Hq1.
  - rewrite HonDone1, HonDone.
    destruct (call_no_recapture rewriteName h
                (CbCaptureDone (onDone g0) (optOnDone opts)) Hcb fuel g1)
      as (g' & Hcall & _); [simpl; lia|].
    exists g'. split; [done|]. left.
    by destruct (call_same rewriteName h
                   (CbCaptureDone (onDone g0) (optOnDone opts)) Hcb _ _ _ Hcall)
      as (_ & _ & _ & ?).
  - eexists. split; [done|]. right.
    assert (Hqg : q g ≠ []).
    { intros Hq. subst g1. rewrite dequeue_empty in Hq1 by done.
      simpl in Hq1. by rewrite Hq in Hq1. }
    pose proof (work_dequeue_progress h objs Hok rewriteName
                  (maxDequeueSize g) _ Hinv0 ltac:(lia) Hqg) as Hlt.
    fold g1 in Hlt. unfold work in *. simpl in *. lia.
Qed.

Lemma timeouts_complete (o : value) (opts : captureOpts) (g0 : ObjectGraph)
  (fuel : nat) :
  no_recapture (onDone g0) = true → 0 < maxDequeueSize g0 →
  depth (onDone g0) + 2 ≤ fuel →
  ∀ w g, run_ok h objs o opts g0 g → work h objs g ≤ w →
    ∃ n g', timeouts rewriteName h n fuel g = Ret g' ∧ busy g' = false.
Proof.
  intros Hcb Hmax Hfuel. induction w as [|w IH]; intros g Hrun Hw.
  all: destruct (busy g) eqn:Hb; [|by exists 0, g].
  all: destruct (timeout_progress o opts g0 g fuel Hcb Hmax Hfuel Hrun Hb)
         as (g1 & Hg1 & [Hdone | Hless]).
  all: try (exists 1, g1; simpl; by rewrite Hg1).
  - lia.
  - destruct (IH g1) as (n & g' & Hn & Hb'); [|lia|].
    { by eapply run_ok_timeout. }
    exists (S n), g'. simpl. by rewrite Hg1.
Qed.

Lemma flush_returns (g : ObjectGraph) (fuel : nat) :
  no_recapture (onDone g) = true → depth (onDone g) + 1 ≤ fuel →
  ∃ g', flush rewriteName h fuel g = Ret g'.
Proof.
  intros Hcb Hfuel. destruct fuel as [|fuel]; [lia|].
  rewrite flush_eq. cbv zeta.
  pose proof (dequeue_frame rewriteName h (maxDequeueSize g) (log EvTick g))
    as (_ & _ & _ & _ & HonDone & _).
  destruct (q _); [|by eexists]. rewrite HonDone. simpl onDone.
  destruct (call_no_recapture rewriteName h (onDone g) Hcb fuel
              (dequeue rewriteName h (maxDequeueSize g) (log EvTick g)))
    as (g' & -> & _); [lia|]. by eexists.
Qed.

Lemma capture_returns (o : value) (opts : captureOpts) (g : ObjectGraph)
  (fuel : nat) :
  idle g → depth (onDone g) + 3 ≤ fuel →
  ∃ g', capture rewriteName h fuel o opts g = Ret g'.
Proof.
  intros [Hbusy Hq Hcb] Hfuel. destruct fuel as [|fuel]; [lia|].
  rewrite capture_eq, Hbusy. cbv zeta.
  destruct (bool_decide _).
  - apply flush_returns; simpl; [done | lia].
  - apply flush_returns.
    + pose proof (visitObject_frame h o
        (with_onDone (CbCaptureDone (onDone g) (optOnDone opts))
           (log EvCapture (reset (rootKey opts) (rootOf h o) g))))
        as (_ & _ & _ & _ & -> & _). done.
    + pose proof (visitObject_frame h o
        (with_onDone (CbCaptureDone (onDone g) (optOnDone opts))
           (log EvCapture (reset (rootKey opts) (rootOf h o) g))))
        as (_ & _ & _ & _ & -> & _). simpl. lia.
Qed.

End Completion.

(** *** Every reachable object is visited once *)

Section Once.

Variable h : heap.
Variable objs : list addr.
Hypothesis Hok : heap_ok h objs = true.
Variable rewriteName : string → string.

Lemma capturing_run_ok (o : value) (opts : captureOpts) (g0 g : ObjectGraph) :
  idle g0 → timers g0 = 0 → live_value objs o = true →
  o ∉ blacklistedObjects g0 →
  capturing rewriteName h g0 o opts g → run_ok h objs o opts g0 g.
Proof.
  intros Hidle Ht Hlive Hbl. induction 1 as [fuel g Hc | fuel g g' _ IH Hto].
  - by eapply run_ok_capture.
  - by eapply run_ok_timeout.
Qed.

Lemma capturing_timeouts (o : value) (opts : captureOpts) (g0 : ObjectGraph)
  (n fuel : nat) (g g' : ObjectGraph) :
  capturing rewriteName h g0 o opts g →
  timeouts rewriteName h n fuel g = Ret g' →
  capturing rewriteName h g0 o opts g'.
Proof.
  revert g. induction n as [|n IH]; intros g Hg; simpl.
  - by intros [= <-].
  - destruct (timeout rewriteName h fuel g) as [g1 | e |] eqn:Hg1; simpl;
      try discriminate.
    apply IH. by eapply capturing_timeout.
Qed.

Lemma reachable_stored (o : value) (opts : captureOpts) (g0 g : ObjectGraph)
  (a : addr) :
  run_ok h objs o opts g0 g → busy g = false → live_value objs o = true →
  reachable h g o a → a ∈ objs ∧ stored h g a.
Proof.
  intros (Hinv & Hroot & _ & _ & _ & _ & Hs) Hb Hlive. rewrite Hb in Hs.
  destruct Hs as [_ Hq].
  induction 1 as [a -> | a b _ [Ha Hst] Hproto | a name b _ [Ha Hst] Hname Hget].
  - simpl in Hlive, Hroot. by apply bool_decide_eq_true in Hlive.
  - destruct (heap_ok_object h objs Hok a Ha) as (_ & Hlp & _).
    rewrite Hproto in Hlp. simpl in Hlp. apply bool_decide_eq_true in Hlp.
    split; [done|].
    destruct (inv_closed _ _ _ _ Hinv a Ha Hst) as [[Hin | Hv] _].
    + rewrite Hq in Hin. by apply elem_of_nil in Hin.
    + by rewrite Hproto in Hv.
  - pose proof (getProperty_live h objs Hok a name Ha) as Hlp.
    rewrite Hget in Hlp. simpl in Hlp. apply bool_decide_eq_true in Hlp.
    split; [done|].
    destruct (inv_closed _ _ _ _ Hinv a Ha Hst) as [_ Hn].
    destruct (Hn name Hname) as [Hin | Hv].
    + rewrite Hq in Hin. by apply elem_of_nil in Hin.
    + by rewrite Hget in Hv.
Qed.

(** C7: in every state of a capture, no identity has been stored twice
    and no store assertion has failed, and a visit of an object that has
    its identity returns it and changes nothing (no storage, no task);
    the capture completes, and once it has, every object reachable from
    the root is stored and was visited exactly once. *)
Theorem capture_visits_once (o : value) (opts : captureOpts)
  (g0 : ObjectGraph) :
  idle g0 → timers g0 = 0 → 0 < maxDequeueSize g0 →
  live_value objs o = true → o ∉ blacklistedObjects g0 →
  (∀ g, capturing rewriteName h g0 o opts g →
     NoDup (visits (trace g)) ∧ failed (trace g) = []
     ∧ (∀ a, stored h g a → visitObject h (VObj a) g = (UID (h a), g))
     ∧ (busy g = false → ∀ a, reachable h g o a →
          stored h g a
          ∧ count_occ N.eq_dec (visits (trace g)) (UID (h a)) = 1))
  ∧ ∃ g, capturing rewriteName h g0 o opts g ∧ busy g = false.
Proof.
  intros Hidle Ht Hmax Hlive Hbl. split.
  - intros g Hg.
    pose proof (capturing_run_ok o opts g0 g Hidle Ht Hlive Hbl Hg) as Hrun.
    pose proof Hrun as (Hinv & _).
    split; [apply (inv_nodup _ _ _ _ Hinv)|].
    split; [apply (inv_failed _ _ _ _ Hinv)|].
    split; [intros a; apply visitObject_stored|].
    intros Hb a Ha.
    destruct (reachable_stored o opts g0 g a Hrun Hb Hlive Ha) as [_ Hst].
    split; [done|].
    apply NoDup_count_occ';
      [apply NoDup_ListNoDup, (inv_nodup _ _ _ _ Hinv)|].
    apply list_elem_of_In, (inv_visits _ _ _ _ Hinv). by apply stored_dom.
  - destruct (capture_returns h rewriteName o opts g0 (depth (onDone g0) + 3)
                Hidle ltac:(lia)) as (g1 & Hg1).
    assert (Hc1 : capturing rewriteName h g0 o opts g1)
      by (by eapply capturing_call).
    pose proof (capturing_run_ok o opts g0 g1 Hidle Ht Hlive Hbl Hc1) as Hrun.
    destruct (timeouts_complete h objs Hok rewriteName o opts g0
                (depth (onDone g0) + 3) (idle_onDone _ Hidle) Hmax
                ltac:(lia) _ g1 Hrun (Nat.le_refl _))
      as (n & g' & Hn & Hb).
    exists g'. split; [|done]. by eapply capturing_timeouts.
Qed.

End Once.

(** *** The graph that a capture leaves *)

Lemma query_frame_refl (g : ObjectGraph) : query_frame g g.
Proof. by repeat split. Qed.

Lemma query_frame_trans (g1 g2 g3 : ObjectGraph) :
  query_frame g1 g2 → query_frame g2 g3 → query_frame g1 g3.
Proof. intros (?&?&?) (?&?&?). repeat split; congruence. Qed.

Lemma visitObject_query (h : heap) (o : value) (g : ObjectGraph) :
  query_frame g (visitObject h o g).2.
Proof.
  unfold visitObject. destruct (maybeSkip h g o) as [id|a];
    [apply query_frame_refl|].
  unfold storeObject, storeMetadata, console_assert.
  destruct (callable (h a)); cbn -[visitedNames];
    repeat case_bool_decide; by repeat split.
Qed.

Lemma run_task_query (rewriteName : string → string) (h : heap) (t : task)
  (g : ObjectGraph) :
  query_frame g (run_task rewriteName h t g).
Proof.
  destruct t as [a|a|a name]; simpl.
  - unfold visitPrototype.
    pose proof (visitObject_query h (proto (h a)) g) as Hv.
    destruct (visitObject h (proto (h a)) g) as [pid g1].
    eapply query_frame_trans; [exact Hv|].
    unfold storeProto, console_assert. destruct (negb _); by repeat split.
  - unfold visitPropertyDescriptors.
    apply (visitPropertyDescriptors_loop_invariant h a (query_frame g));
      [apply query_frame_refl|].
    intros acc name d _ Hacc. eapply query_frame_trans; [exact Hacc|].
    destruct d; by repeat split.
  - unfold visitProperty. destruct (getProperty h a name) as [v|].
    + pose proof (visitObject_query h v g) as Hv.
      destruct (visitObject h v g) as [id g1].
      eapply query_frame_trans; [exact Hv|]. by repeat split.
    + by repeat split.
Qed.

Lemma dequeue_query (rewriteName : string → string) (h : heap) (n : nat)
  (g : ObjectGraph) :
  query_frame g (dequeue rewriteName h n g).
Proof.
  revert g. induction n as [|n IH]; intros g; simpl; [apply query_frame_refl|].
  destruct (q g) as [|t rest]; [apply query_frame_refl|].
  eapply query_frame_trans; [|apply IH].
  eapply query_frame_trans; [|apply run_task_query]. by repeat split.
Qed.

Lemma flush_query (rewriteName : string → string) (h : heap) (fuel : nat)
  (g g' : ObjectGraph) :
  no_recapture (onDone g) = true →
  flush rewriteName h fuel g = Ret g' → query_frame g g'.
Proof.
  intros Hcb. destruct fuel as [|fuel]; [done|]. rewrite flush_eq. cbv zeta.
  pose proof (dequeue_query rewriteName h (maxDequeueSize g) (log EvTick g))
    as Hq.
  pose proof (dequeue_frame rewriteName h (maxDequeueSize g) (log EvTick g))
    as (_ & _ & _ & _ & HonDone & _).
  destruct (q _).
  - rewrite HonDone. simpl onDone. intros Hcall.
    destruct (call_same rewriteName h (onDone g) Hcb _ _ _ Hcall)
      as ((_&_&_&_&Hr&Hk&_&_&_&Hc&_) & _).
    eapply query_frame_trans; [exact Hq|]. by repeat split.
  - intros [= <-]. eapply query_frame_trans; [exact Hq|]. by repeat split.
Qed.

Section Captured.

Variable h : heap.
Variable objs : list addr.
Hypothesis Hok : heap_ok h objs = true.
Variable rewriteName : string → string.

Lemma capturing_query (o : value) (opts : captureOpts) (g0 g : ObjectGraph) :
  idle g0 → timers g0 = 0 → live_value objs o = true →
  o ∉ blacklistedObjects g0 →
  capturing rewriteName h g0 o opts g →
  root g = rootOf h o ∧ key g = rootKey opts ∧ keysCache g = ∅.
Proof.
  intros Hidle Ht Hlive Hbl.
  induction 1 as [fuel g Hc | fuel g g' Hg IH Hto].
  - destruct Hidle as [Hbusy Hq Hcb]. destruct fuel as [|fuel]; [done|].
    rewrite capture_eq, Hbusy in Hc. cbv zeta in Hc.
    rewrite bool_decide_eq_false_2 in Hc by done.
    pose proof (visitObject_query h o
      (with_onDone (CbCaptureDone (onDone g0) (optOnDone opts))
         (log EvCapture (reset (rootKey opts) (rootOf h o) g0))))
      as (Hr & Hk & Hcache).
    pose proof (visitObject_frame h o
      (with_onDone (CbCaptureDone (onDone g0) (optOnDone opts))
         (log EvCapture (reset (rootKey opts) (rootOf h o) g0))))
      as (_ & _ & _ & _ & HonDone & _).
    apply flush_query in Hc as (Hr' & Hk' & Hc'); [|by rewrite HonDone].
    simpl in Hr, Hk, Hcache. repeat split; congruence.
  - pose proof (capturing_run_ok h objs Hok rewriteName o opts g0 g
                  Hidle Ht Hlive Hbl Hg) as (Hinv & _).
    unfold timeout in Hto. destruct (timers g) as [|n].
    + by injection Hto as <-.
    + apply flush_query in Hto as (Hr' & Hk' & Hc');
        [|apply (inv_onDone _ _ _ _ Hinv)].
      simpl in Hr', Hk', Hc'.
      destruct IH as (? & ? & ?). repeat split; congruence.
Qed.

(** A captured graph is well formed, and its keys cache is right. *)
Lemma capturing_well_formed (a : addr) (opts : captureOpts)
  (g0 g : ObjectGraph) :
  idle g0 → timers g0 = 0 → a ∈ objs → VObj a ∉ blacklistedObjects g0 →
  callable (h a) = false → isKeyBlacklisted g0 "__proto__" = true →
  capturing rewriteName h g0 (VObj a) opts g →
  well_formed g ∧ cache_ok g ∧ root g = VNumber (UID (h a))
  ∧ key g = rootKey opts.
Proof.
  intros Hidle Ht Ha Hbl Hfn Hproto Hg.
  assert (Hlive : live_value objs (VObj a) = true)
    by (by apply bool_decide_eq_true).
  destruct (capturing_run_ok h objs Hok rewriteName _ opts g0 g
              Hidle Ht Hlive Hbl Hg) as (Hinv & _ & Hk & _).
  destruct (capturing_query _ opts g0 g Hidle Ht Hlive Hbl Hg)
    as (Hroot & Hkey & Hcache).
  simpl in Hroot. rewrite Hfn in Hroot.
  assert (Hid : ∀ id, id ∈ dom (data g) → identity id).
  { intros id (b & Hb & <-)%(inv_live _ _ _ _ Hinv).
    by destruct (heap_ok_object h objs Hok b Hb). }
  split; [|by auto using cache_ok_empty]. split.
  - intros id m Hm. apply Hid, elem_of_dom. eauto.
  - apply (inv_values _ _ _ _ Hinv).
  - intros id p Hp. apply Hid, (inv_protos _ _ _ _ Hinv), elem_of_dom. eauto.
  - apply (inv_parents _ _ _ _ Hinv).
  - unfold isKeyBlacklisted in *. by rewrite Hk.
  - intros rt Hrt. rewrite Hroot in Hrt. injection Hrt as <-.
    destruct (heap_ok_object h objs Hok a Ha) as (Hida & _).
    unfold identity in Hida. lia.
Qed.

End Captured.

(** *** The diamond *)

Lemma diamond_heap_ok : heap_ok diamond [0; 1; 2; 3; 4; 5; 6] = true.
Proof. vm_compute. reflexivity. Qed.

Lemma capture_visits_once_witness :
  (∀ g, capturing id diamond fresh_graph (VObj 0) no_opts g →
     NoDup (visits (trace g)) ∧ failed (trace g) = []
     ∧ (∀ a, stored diamond g a →
             visitObject diamond (VObj a) g = (UID (diamond a), g))
     ∧ (busy g = false → ∀ a, reachable diamond g (VObj 0) a →
          stored diamond g a
          ∧ count_occ N.eq_dec (visits (trace g)) (UID (diamond a)) = 1))
  ∧ ∃ g, capturing id diamond fresh_graph (VObj 0) no_opts g
         ∧ busy g = false.
Proof.
  apply (capture_visits_once diamond [0; 1; 2; 3; 4; 5; 6] diamond_heap_ok id
           (VObj 0) no_opts fresh_graph).
  - split; reflexivity.
  - reflexivity.
  - vm_compute. lia.
  - vm_compute. reflexivity.
  - vm_compute. intros H. inversion H as [|? ? ? H']; subst. inversion H'.
Defined.

(** The capture of the diamond stores each of its six objects once, the
    shared object 104 and the root that it refers back to included. *)
Lemma diamond_visits :
  capturing id diamond fresh_graph (VObj 0) no_opts diamond_graph
  ∧ busy diamond_graph = false
  ∧ visits (trace diamond_graph) = [106; 104; 103; 102; 101; 100]%N
  ∧ failed (trace diamond_graph) = [].
Proof.
  split.
  - apply (capturing_timeout id diamond fresh_graph (VObj 0) no_opts 8
             diamond_started).
    + apply (capturing_call id diamond fresh_graph (VObj 0) no_opts 8).
      vm_compute. reflexivity.
    + vm_compute. reflexivity.
  - split; [vm_compute; reflexivity|]. split; vm_compute; reflexivity.
Qed.

(** ** What a capture records *)

Lemma first_visit_functions (h : heap) (a : addr) (g : ObjectGraph) :
  functions (first_visit h a g)
  = if callable (h a) then functions g ++ [UID (h a)] else functions g.
Proof. unfold first_visit. by destruct (callable (h a)). Qed.

Lemma isType_sentinel (v : value) (h : heap) :
  (∀ a, v ≠ VObj a) → isType (id_of h v) = true.
Proof. intros Hv. destruct v; try done. by destruct (Hv a). Qed.

Section Records.

Variable h : heap.
Variable objs : list addr.
Hypothesis Hok : heap_ok h objs = true.

Lemma is_function_id_callable (a : addr) :
  a ∈ objs → is_function_id h objs (UID (h a)) = callable (h a).
Proof.
  intros Ha. unfold is_function_id. destruct (callable (h a)) eqn:Hc.
  - apply existsb_exists. exists a. split; [by apply list_elem_of_In|].
    by rewrite N.eqb_refl, Hc.
  - apply not_true_is_false. intros (b & Hb%list_elem_of_In & Hbb)%existsb_exists.
    apply andb_true_iff in Hbb as [Heq%N.eqb_eq Hcb].
    apply (heap_ok_inj h objs Hok) in Heq; [|done..]. congruence.
Qed.

Variable rewriteName : string → string.

Lemma rec_first_visit (running : list task) (g : ObjectGraph) (a : addr) :
  capture_inv h objs running g → record_inv rewriteName h objs running g →
  a ∈ objs → data g !! UID (h a) = None →
  record_inv rewriteName h objs running (first_visit h a g).
Proof.
  intros Hinv Hrec Ha Hnew.
  assert (Hfresh : UID (h a) ∉ dom (data g)) by (by apply not_elem_of_dom).
  assert (Hdom : dom (data (first_visit h a g)) = {[UID (h a)]} ∪ dom (data g)).
  { by rewrite first_visit_data, dom_insert_L. }
  assert (Hnames : ∀ b, visitedNames h (first_visit h a g) b
                        = visitedNames h g b).
  { intros b. apply visitedNames_blacklists;
      [apply first_visit_blacklistedKeys | apply first_visit_blacklistedObjects]. }
  assert (Hq : ∀ t, t ∈ running ++ q g → t ∈ running ++ q (first_visit h a g)).
  { intros t. rewrite first_visit_q, !elem_of_app. tauto. }
  split.
  - rewrite first_visit_functions, first_visit_trace. simpl.
    pose proof (is_function_id_callable a Ha) as Hfn.
    destruct (callable (h a)).
    + rewrite filter_cons_True by done. simpl.
      by rewrite (rec_functions _ _ _ _ _ Hrec).
    + rewrite filter_cons_False by (by rewrite Hfn).
      apply (rec_functions _ _ _ _ _ Hrec).
  - intros b name. rewrite Hnames, first_visit_q, app_assoc, elem_of_app.
    intros [Ht | Ht]; [by apply (rec_tasks _ _ _ _ _ Hrec)|].
    simpl in Ht. rewrite !elem_of_cons in Ht.
    destruct Ht as [[=] | [[=] | Ht]].
    by apply list_elem_of_fmap in Ht as (n & [= -> ->] & Hn).
  - intros b Hb. rewrite stored_dom, Hdom, elem_of_union, elem_of_singleton.
    rewrite first_visit_protos. intros [Hba | Hst].
    + apply (heap_ok_inj h objs Hok) in Hba as ->; [|done..].
      left. rewrite first_visit_q, !elem_of_app. right. right. left. by left.
    + apply stored_dom in Hst.
      destruct (rec_proto _ _ _ _ _ Hrec b Hb Hst) as [? | ?]; [left|right]; auto.
  - rewrite first_visit_protos. apply (rec_protos _ _ _ _ _ Hrec).
  - intros b name Hb. rewrite stored_dom, Hdom, elem_of_union, elem_of_singleton.
    rewrite Hnames. intros [Hba | Hst] Hname.
    + apply (heap_ok_inj h objs Hok) in Hba as ->; [|done..].
      left. rewrite first_visit_q, !elem_of_app. right. right. right.
      by apply list_elem_of_fmap_2.
    + apply stored_dom in Hst.
      destruct (rec_property _ _ _ _ _ Hrec b name Hb Hst Hname)
        as [? | (name' & ? & ? & Hp)]; [left; auto | right].
      exists name'. split; [done|]. split; [done|].
      rewrite first_visit_data, lookup_insert_ne; [done|].
      intros Heq. unfold stored in Hst. rewrite <- Heq, Hnew in Hst.
      by destruct Hst.
  - intros id m k v. rewrite first_visit_data.
    destruct (decide (UID (h a) = id)) as [<-|Hne].
    + rewrite lookup_insert_eq. intros [= <-]. by rewrite lookup_empty.
    + rewrite lookup_insert_ne by done. intros Hm Hk.
      destruct (rec_entries _ _ _ _ _ Hrec id m k v Hm Hk)
        as (b & name & ? & ? & ? & ? & ?).
      exists b, name. by rewrite Hnames.
  - intros id m k v. rewrite Hdom, first_visit_data.
    destruct (decide (UID (h a) = id)) as [<-|Hne].
    + rewrite lookup_insert_eq. intros [= <-]. by rewrite lookup_empty.
    + rewrite lookup_insert_ne by done. intros Hm Hk.
      destruct (rec_values _ _ _ _ _ Hrec id m k v Hm Hk); [by left|right].
      set_solver.
  - intros id p. rewrite first_visit_protos, Hdom. intros Hp.
    destruct (rec_parents _ _ _ _ _ Hrec id p Hp); [by left|right]. set_solver.
Qed.

(** A visit returns the identity or the sentinel of the value. *)
Lemma rec_visitObject (running : list task) (g : ObjectGraph) (o : value) :
  capture_inv h objs running g → record_inv rewriteName h objs running g →
  live_value objs o = true →
  record_inv rewriteName h objs running (visitObject h o g).2
  ∧ (visitObject h o g).1 = id_of h o
  ∧ (isType (id_of h o) = true ∨ id_of h o ∈ dom (data (visitObject h o g).2)).
Proof.
  intros Hinv Hrec Hlive.
  destruct (visitObject_cases h objs Hok running g o Hinv Hlive)
    as [(id & Hvis & Hid & Hv) | (a & -> & Ha & Hnew & ->)]; cbn [fst snd].
  - rewrite Hvis. cbn [fst snd]. split; [done|].
    destruct o as [| |b|n|s| |a]; try (unfold visitObject in Hvis; simpl in Hvis;
      injection Hvis as <-; split; [done | by left]).
    simpl in Hv. rewrite (visitObject_stored h g a Hv) in Hvis.
    injection Hvis as <-. split; [done|]. right. by apply stored_dom.
  - split; [by apply rec_first_visit|]. split; [done|]. right.
    rewrite first_visit_data, dom_insert_L. set_solver.
Qed.

(** A change that keeps the stores and the tasks that write to them. *)
Lemma rec_frame (running running' : list task) (g g' : ObjectGraph) :
  record_inv rewriteName h objs running g →
  functions g' = functions g →
  visits (trace g') = visits (trace g) →
  data g' = data g → protos g' = protos g →
  blacklistedKeys g' = blacklistedKeys g →
  blacklistedObjects g' = blacklistedObjects g →
  (∀ t, t ∈ running' ++ q g' → t ∈ running ++ q g) →
  (∀ t, t ∈ running ++ q g →
        t ∈ running' ++ q g' ∨ ∃ a, t = VisitPropertyDescriptors a) →
  record_inv rewriteName h objs running' g'.
Proof.
  intros Hrec Hf Hv Hd Hp Hk Ho Hsub Hkeep.
  assert (Hnames : ∀ b, visitedNames h g' b = visitedNames h g b).
  { intros b. by apply visitedNames_blacklists. }
  assert (Hst : ∀ a, stored h g' a ↔ stored h g a).
  { intros a. unfold stored. by rewrite Hd. }
  split.
  - rewrite Hf, Hv. apply (rec_functions _ _ _ _ _ Hrec).
  - intros a name Ht. rewrite Hnames. apply (rec_tasks _ _ _ _ _ Hrec). auto.
  - intros a Ha Hs. apply Hst in Hs. rewrite Hp.
    destruct (rec_proto _ _ _ _ _ Hrec a Ha Hs) as [Hin | ?]; [|by right].
    destruct (Hkeep _ Hin) as [? | [b [=]]]. by left.
  - rewrite Hp. apply (rec_protos _ _ _ _ _ Hrec).
  - intros a name Ha Hs Hname. apply Hst in Hs. rewrite Hnames in Hname.
    rewrite Hnames, Hd.
    destruct (rec_property _ _ _ _ _ Hrec a name Ha Hs Hname) as [Hin | ?];
      [|by right].
    destruct (Hkeep _ Hin) as [? | [b [=]]]. by left.
  - intros id m k v. rewrite Hd. intros Hm Hkv.
    destruct (rec_entries _ _ _ _ _ Hrec id m k v Hm Hkv)
      as (b & name & ? & ? & ? & ? & ?).
    exists b, name. by rewrite Hnames.
  - rewrite Hd. apply (rec_values _ _ _ _ _ Hrec).
  - rewrite Hp, Hd. apply (rec_parents _ _ _ _ _ Hrec).
Qed.

Lemma rec_pop (g : ObjectGraph) (t : task) (rest : list task) :
  record_inv rewriteName h objs [] g → q g = t :: rest →
  record_inv rewriteName h objs [t] (with_queue (λ _, rest) g).
Proof.
  intros Hrec Hq. apply (rec_frame [] [t] g); try done.
  - intros t'. simpl. by rewrite Hq.
  - intros t'. simpl. rewrite Hq. by left.
Qed.

Lemma rec_storeProto (g : ObjectGraph) (a : addr) :
  capture_inv h objs [VisitPrototype a] g →
  record_inv rewriteName h objs [VisitPrototype a] g →
  isType (id_of h (proto (h a))) = true
  ∨ id_of h (proto (h a)) ∈ dom (data g) →
  record_inv rewriteName h objs []
    (storeProto (UID (h a)) (id_of h (proto (h a))) g).
Proof.
  intros Hinv Hrec Hid.
  assert (Hin : VisitPrototype a ∈ [VisitPrototype a] ++ q g) by (by left).
  destruct (inv_tasks _ _ _ _ Hinv _ Hin) as [Ha Hst].
  rewrite (storeProto_fresh _ _ _ (inv_proto_none _ _ _ _ Hinv a Hin)).
  split; simpl.
  - apply (rec_functions _ _ _ _ _ Hrec).
  - intros b name Hb. apply (rec_tasks _ _ _ _ _ Hrec). by right.
  - intros b Hb Hsb. destruct (decide (b = a)) as [->|Hne].
    + right. by rewrite lookup_insert_eq.
    + rewrite lookup_insert_ne.
      * destruct (rec_proto _ _ _ _ _ Hrec b Hb Hsb)
          as [[Heq%list_elem_of_singleton | ?]%elem_of_app | ?];
          [congruence | by left | by right].
      * intros Heq. by apply (heap_ok_inj h objs Hok) in Heq.
  - intros id p. destruct (decide (UID (h a) = id)) as [<-|Hne].
    + rewrite lookup_insert_eq. intros [= <-]. by exists a.
    + rewrite lookup_insert_ne by done. apply (rec_protos _ _ _ _ _ Hrec).
  - intros b name Hb Hsb Hname.
    destruct (rec_property _ _ _ _ _ Hrec b name Hb Hsb Hname)
      as [[[=]%list_elem_of_singleton | ?]%elem_of_app | ?];
      [by left | by right].
  - apply (rec_entries _ _ _ _ _ Hrec).
  - apply (rec_values _ _ _ _ _ Hrec).
  - intros id p. destruct (decide (UID (h a) = id)) as [<-|Hne].
    + rewrite lookup_insert_eq. by intros [= <-].
    + rewrite lookup_insert_ne by done. apply (rec_parents _ _ _ _ _ Hrec).
Qed.

Lemma rec_visitPrototype (g : ObjectGraph) (a : addr) :
  capture_inv h objs [VisitPrototype a] g →
  record_inv rewriteName h objs [VisitPrototype a] g →
  record_inv rewriteName h objs [] (visitPrototype h a g).
Proof.
  intros Hinv Hrec.
  destruct (inv_tasks _ _ _ _ Hinv (VisitPrototype a)) as [Ha _]; [by left|].
  destruct (heap_ok_object h objs Hok a Ha) as (_ & Hlive & _).
  destruct (inv_visitObject h objs Hok _ g _ Hinv Hlive) as (Hinv' & _ & _).
  destruct (rec_visitObject _ g _ Hinv Hrec Hlive) as (Hrec' & Hid & Hdom).
  unfold visitPrototype. destruct (visitObject h (proto (h a)) g) as [pid g1].
  simpl in Hid. subst pid. by apply rec_storeProto.
Qed.

Lemma rec_store_property (g : ObjectGraph) (a : addr) (propertyName : string) :
  capture_inv h objs [VisitProperty a propertyName] g →
  record_inv rewriteName h objs [VisitProperty a propertyName] g →
  isType (id_of_access h (getProperty h a propertyName)) = true
  ∨ id_of_access h (getProperty h a propertyName) ∈ dom (data g) →
  record_inv rewriteName h objs []
    (with_data (alter (insert (rewriteName propertyName)
                         (id_of_access h (getProperty h a propertyName)))
                      (UID (h a))) g).
Proof.
  intros Hinv Hrec Hid.
  assert (Hin : VisitProperty a propertyName
                ∈ [VisitProperty a propertyName] ++ q g) by (by left).
  destruct (inv_tasks _ _ _ _ Hinv _ Hin) as [Ha [m0 Hm0]].
  simpl in Ha, Hm0.
  pose proof (rec_tasks _ _ _ _ _ Hrec a propertyName Hin) as Hvisited.
  split; simpl.
  - apply (rec_functions _ _ _ _ _ Hrec).
  - intros b name Hb. apply (rec_tasks _ _ _ _ _ Hrec b name). by right.
  - intros b Hb Hsb. unfold stored in Hsb. simpl in Hsb.
    rewrite <- elem_of_dom, dom_alter_L, elem_of_dom in Hsb.
    destruct (rec_proto _ _ _ _ _ Hrec b Hb Hsb)
      as [[[=]%list_elem_of_singleton | ?]%elem_of_app | ?];
      [by left | by right].
  - apply (rec_protos _ _ _ _ _ Hrec).
  - intros b name Hb Hsb Hname. unfold stored in Hsb. simpl in Hsb.
    rewrite <- elem_of_dom, dom_alter_L, elem_of_dom in Hsb.
    change (name ∈ visitedNames h g b) in Hname.
    destruct (decide (b = a)) as [->|Hne].
    + rewrite lookup_alter_eq, Hm0. simpl.
      destruct (decide (rewriteName propertyName = rewriteName name))
        as [Heq|Hneq].
      * right. exists propertyName. split; [done|]. split; [done|].
        by rewrite <- Heq, lookup_insert_eq.
      * rewrite lookup_insert_ne by done.
        destruct (rec_property _ _ _ _ _ Hrec a name Hb Hsb Hname)
          as [[[= ->]%list_elem_of_singleton | ?]%elem_of_app
              | (name' & ? & ? & Hp)];
          [done | by left | right].
        exists name'. by rewrite Hm0 in Hp.
    + rewrite lookup_alter_ne.
      * destruct (rec_property _ _ _ _ _ Hrec b name Hb Hsb Hname)
          as [[[= -> ->]%list_elem_of_singleton | ?]%elem_of_app | Hp];
          [done | by left | by right].
      * intros Heq. by apply (heap_ok_inj h objs Hok) in Heq.
  - intros id m k v. change (visitedNames h ?g' ?b) with (visitedNames h g b).
    destruct (decide (UID (h a) = id)) as [<-|Hne].
    + rewrite lookup_alter_eq, Hm0. simpl. intros [= <-].
      destruct (decide (rewriteName propertyName = k)) as [<-|Hk].
      * rewrite lookup_insert_eq. intros [= <-]. by exists a, propertyName.
      * rewrite lookup_insert_ne by done.
        apply (rec_entries _ _ _ _ _ Hrec _ _ _ _ Hm0).
    + rewrite lookup_alter_ne by done. apply (rec_entries _ _ _ _ _ Hrec).
  - intros id m k v. rewrite dom_alter_L.
    destruct (decide (UID (h a) = id)) as [<-|Hne].
    + rewrite lookup_alter_eq, Hm0. simpl. intros [= <-].
      destruct (decide (rewriteName propertyName = k)) as [<-|Hk].
      * rewrite lookup_insert_eq. by intros [= <-].
      * rewrite lookup_insert_ne by done.
        apply (rec_values _ _ _ _ _ Hrec _ _ _ _ Hm0).
    + rewrite lookup_alter_ne by done. apply (rec_values _ _ _ _ _ Hrec).
  - rewrite dom_alter_L. apply (rec_parents _ _ _ _ _ Hrec).
Qed.

Lemma rec_visitProperty (g : ObjectGraph) (a : addr) (propertyName : string) :
  capture_inv h objs [VisitProperty a propertyName] g →
  record_inv rewriteName h objs [VisitProperty a propertyName] g →
  record_inv rewriteName h objs [] (visitProperty rewriteName h a propertyName g).
Proof.
  intros Hinv Hrec.
  destruct (inv_tasks _ _ _ _ Hinv (VisitProperty a propertyName)) as [Ha _];
    [by left|].
  pose proof (getProperty_live h objs Hok a propertyName Ha) as Hlive.
  pose proof (rec_store_property g a propertyName Hinv Hrec) as Hraise.
  unfold visitProperty.
  destruct (getProperty h a propertyName) as [v|] eqn:Hget.
  - destruct (inv_visitObject h objs Hok _ g _ Hinv Hlive) as (Hinv' & _ & _).
    destruct (rec_visitObject _ g _ Hinv Hrec Hlive) as (Hrec' & Hid & Hdom).
    pose proof (rec_store_property (visitObject h v g).2 a propertyName
                  Hinv' Hrec') as Hstore.
    rewrite Hget in Hstore. simpl in Hstore.
    destruct (visitObject h v g) as [id g1]. simpl in Hid. subst id.
    by apply Hstore.
  - apply Hraise. by left.
Qed.

Lemma rec_visitPropertyDescriptors (g : ObjectGraph) (a : addr) :
  record_inv rewriteName h objs [VisitPropertyDescriptors a] g →
  record_inv rewriteName h objs [] (visitPropertyDescriptors h a g).
Proof.
  intros Hrec. unfold visitPropertyDescriptors.
  apply visitPropertyDescriptors_loop_invariant.
  - apply (rec_frame [VisitPropertyDescriptors a] [] g); try done.
    + intros t Ht. by right.
    + intros t [->%list_elem_of_singleton | Ht]%elem_of_app;
        [right; by exists a | by left].
  - intros acc name d _ Hacc.
    destruct d as [d|];
      apply (rec_frame [] [] acc); try done; intros t Ht; by left.
Qed.

Lemma rec_run_task (g : ObjectGraph) (t : task) :
  capture_inv h objs [t] g → record_inv rewriteName h objs [t] g →
  record_inv rewriteName h objs [] (run_task rewriteName h t g).
Proof.
  destruct t; simpl; intros Hinv Hrec;
    [by apply rec_visitPrototype | by apply rec_visitPropertyDescriptors
     | by apply rec_visitProperty].
Qed.

Lemma rec_dequeue (n : nat) (g : ObjectGraph) :
  capture_inv h objs [] g → record_inv rewriteName h objs [] g →
  record_inv rewriteName h objs [] (dequeue rewriteName h n g).
Proof.
  revert g. induction n as [|n IH]; intros g Hinv Hrec; simpl; [done|].
  destruct (q g) as [|t rest] eqn:Hq; [done|].
  pose proof (inv_pop h objs g t rest Hinv Hq) as Hinv1.
  apply IH; [by apply inv_run_task | apply rec_run_task; [done|]].
  by apply rec_pop.
Qed.

Lemma rec_same (g g' : ObjectGraph) :
  record_inv rewriteName h objs [] g →
  data g' = data g → protos g' = protos g → functions g' = functions g →
  q g' = q g → blacklistedKeys g' = blacklistedKeys g →
  blacklistedObjects g' = blacklistedObjects g →
  visits (trace g') = visits (trace g) →
  record_inv rewriteName h objs [] g'.
Proof.
  intros Hrec Hd Hp Hf Hq Hk Ho Hv.
  apply (rec_frame [] [] g); try done; intros t; rewrite Hq; auto.
Qed.

Lemma rec_flush (fuel : nat) (g g' : ObjectGraph) :
  capture_inv h objs [] g → record_inv rewriteName h objs [] g →
  flush rewriteName h fuel g = Ret g' → record_inv rewriteName h objs [] g'.
Proof.
  intros Hinv Hrec. destruct fuel as [|fuel]; [done|].
  rewrite flush_eq. cbv zeta.
  assert (Hinv1 : capture_inv h objs [] (log EvTick g)).
  { apply (inv_same h objs g); try done. apply (inv_onDone _ _ _ _ Hinv). }
  assert (Hrec1 : record_inv rewriteName h objs [] (log EvTick g))
    by (by apply (rec_same g)).
  pose proof (inv_dequeue h objs Hok rewriteName (maxDequeueSize g) _ Hinv1)
    as Hinv2.
  pose proof (rec_dequeue (maxDequeueSize g) _ Hinv1 Hrec1) as Hrec2.
  simpl maxDequeueSize.
  set (g1 := dequeue rewriteName h (maxDequeueSize g) (log EvTick g)) in *.
  destruct (q g1) as [|t rest] eqn:Hq1.
  - intros Hcall.
    destruct (call_same rewriteName h _ (inv_onDone _ _ _ _ Hinv2) _ _ _ Hcall)
      as ((Hd&_&Hp&Hf&_&_&Hq&_&_&_&Ho&Hk&_) & Hv & _).
    by apply (rec_same g1).
  - intros [= <-]. by apply (rec_same g1).
Qed.

Lemma rec_reset (g0 : ObjectGraph) (k : string) (r : value) (cb : callback) :
  q g0 = [] →
  record_inv rewriteName h objs []
    (with_onDone cb (log EvCapture (reset k r g0))).
Proof.
  intros Hq. split; simpl.
  - done.
  - intros a name. rewrite Hq. by intros ?%elem_of_nil.
  - intros a _ [m Hm]. simpl in Hm. by rewrite lookup_empty in Hm.
  - intros id p. by rewrite lookup_empty.
  - intros a name _ [m Hm]. simpl in Hm. by rewrite lookup_empty in Hm.
  - intros id m k' v. by rewrite lookup_empty.
  - intros id m k' v. by rewrite lookup_empty.
  - intros id p. by rewrite lookup_empty.
Qed.

Lemma rec_capture (o : value) (opts : captureOpts) (g0 g : ObjectGraph)
  (fuel : nat) :
  idle g0 → live_value objs o = true → o ∉ blacklistedObjects g0 →
  capture rewriteName h fuel o opts g0 = Ret g →
  record_inv rewriteName h objs [] g.
Proof.
  intros [Hbusy Hq Hcb] Hlive Hbl. destruct fuel as [|fuel]; [done|].
  rewrite capture_eq, Hbusy. cbv zeta.
  rewrite bool_decide_eq_false_2 by done.
  set (g1 := with_onDone (CbCaptureDone (onDone g0) (optOnDone opts))
               (log EvCapture (reset (rootKey opts) (rootOf h o) g0))).
  assert (Hinv1 : capture_inv h objs [] g1) by (by apply inv_reset).
  assert (Hrec1 : record_inv rewriteName h objs [] g1) by (by apply rec_reset).
  destruct (inv_visitObject h objs Hok [] g1 o Hinv1 Hlive) as (Hinv2 & _).
  destruct (rec_visitObject [] g1 o Hinv1 Hrec1 Hlive) as (Hrec2 & _).
  by apply rec_flush.
Qed.

Lemma capturing_record (o : value) (opts : captureOpts) (g0 g : ObjectGraph) :
  idle g0 → timers g0 = 0 → live_value objs o = true →
  o ∉ blacklistedObjects g0 →
  capturing rewriteName h g0 o opts g → record_inv rewriteName h objs [] g.
Proof.
  intros Hidle Ht Hlive Hbl.
  induction 1 as [fuel g Hc | fuel g g' Hg IH Hto].
  - by eapply rec_capture.
  - pose proof (capturing_run_ok h objs Hok rewriteName o opts g0 g
                  Hidle Ht Hlive Hbl Hg) as (Hinv & _).
    unfold timeout in Hto. destruct (timers g) as [|n]; [by injection Hto as <-|].
    apply (rec_flush fuel (with_timers n g)); [| |done].
    + apply (inv_same h objs g); try done. apply (inv_onDone _ _ _ _ Hinv).
    + by apply (rec_same g).
Qed.

End Records.

(** *** The graph mirrors the heap *)

Lemma id_of_nonzero (h : heap) (objs : list addr) (v : value) :
  heap_ok h objs = true → live_value objs v = true → id_of h v ≠ 0%N.
Proof.
  intros Hok Hlive. destruct v as [| |b|n|s| |a]; try done.
  simpl in Hlive. apply bool_decide_eq_true in Hlive.
  destruct (heap_ok_object h objs Hok a Hlive) as (Hid & _).
  unfold identity in Hid. simpl. lia.
Qed.

Lemma elem_of_rev {A} (l : list A) (x : A) : x ∈ rev l ↔ x ∈ l.
Proof. rewrite !list_elem_of_In. symmetry. apply in_rev. Qed.

Lemma NoDup_rev_2 {A} (l : list A) : NoDup l → NoDup (rev l).
Proof. rewrite !NoDup_ListNoDup. apply NoDup_rev. Qed.

Section Mirror.

Variable h : heap.
Variable objs : list addr.
Hypothesis Hok : heap_ok h objs = true.
Variable rewriteName : string → string.

Variable o : value.
Variable opts : captureOpts.
Variable g0 : ObjectGraph.
Hypothesis Hidle : idle g0.
Hypothesis Htimers : timers g0 = 0.
Hypothesis Hlive : live_value objs o = true.
Hypothesis Hbl : o ∉ blacklistedObjects g0.

(** X1: once a capture is done, the delegation link of every stored
    object is recorded: [protos] holds the identity of its prototype
    object, or the sentinel of null, and [getPrototype] returns it; and
    [protos] has no other entry. *)
Theorem capture_records_prototypes (g : ObjectGraph) :
  capturing rewriteName h g0 o opts g → busy g = false →
  (∀ a, a ∈ objs → stored h g a →
        protos g !! UID (h a) = Some (id_of h (proto (h a)))
        ∧ getPrototype g (UID (h a)) = id_of h (proto (h a)))
  ∧ (∀ id p, protos g !! id = Some p →
        ∃ a, a ∈ objs ∧ stored h g a ∧ UID (h a) = id
             ∧ p = id_of h (proto (h a))).
Proof.
  intros Hg Hb.
  pose proof (capturing_run_ok h objs Hok rewriteName o opts g0 g
                Hidle Htimers Hlive Hbl Hg) as (Hinv & _ & _ & _ & _ & _ & Hs).
  pose proof (capturing_record h objs Hok rewriteName o opts g0 g
                Hidle Htimers Hlive Hbl Hg) as Hrec.
  rewrite Hb in Hs. destruct Hs as [_ Hq]. split.
  - intros a Ha Hst.
    destruct (rec_proto _ _ _ _ _ Hrec a Ha Hst) as [Hin | Hp].
    { rewrite Hq in Hin. by apply elem_of_nil in Hin. }
    split; [done|]. unfold getPrototype. rewrite Hp.
    destruct (heap_ok_object h objs Hok a Ha) as (_ & Hlp & _).
    by rewrite truthy_ne0 by (by eapply id_of_nonzero).
  - intros id p Hp.
    destruct (rec_protos _ _ _ _ _ Hrec id p Hp) as (a & Ha & <- & ->).
    exists a. repeat split; try done.
    apply stored_dom, (inv_protos _ _ _ _ Hinv), elem_of_dom. eauto.
Qed.

(** X2: once a capture is done, the map of every stored object has an
    entry for the rewritten name of each visited property, which holds
    the identity or the sentinel of the value of a visited property with
    that rewritten name (the sentinel of an exception when the read
    throws), of that very property when no other visited name of the
    object is rewritten to the same name; and the map has no entry that
    is not the record of a visited property. *)
Theorem capture_records_properties (g : ObjectGraph) :
  capturing rewriteName h g0 o opts g → busy g = false →
  ∀ a m, a ∈ objs → data g !! UID (h a) = Some m →
    (∀ name, name ∈ visitedNames h g0 a →
       ∃ name', name' ∈ visitedNames h g0 a
                ∧ rewriteName name' = rewriteName name
                ∧ m !! rewriteName name
                  = Some (id_of_access h (getProperty h a name')))
    ∧ (∀ name, name ∈ visitedNames h g0 a →
         (∀ name', name' ∈ visitedNames h g0 a →
                   rewriteName name' = rewriteName name → name' = name) →
         m !! rewriteName name = Some (id_of_access h (getProperty h a name)))
    ∧ (∀ k v, m !! k = Some v →
         ∃ name, name ∈ visitedNames h g0 a ∧ k = rewriteName name
                 ∧ v = id_of_access h (getProperty h a name)).
Proof.
  intros Hg Hb a m Ha Hm.
  pose proof (capturing_run_ok h objs Hok rewriteName o opts g0 g
                Hidle Htimers Hlive Hbl Hg) as (Hinv & _ & Hk & Ho & _ & _ & Hs).
  pose proof (capturing_record h objs Hok rewriteName o opts g0 g
                Hidle Htimers Hlive Hbl Hg) as Hrec.
  rewrite Hb in Hs. destruct Hs as [_ Hq].
  rewrite <- (visitedNames_blacklists h g0 g a Hk Ho).
  assert (Hst : stored h g a) by (by exists m).
  assert (Hall : ∀ name, name ∈ visitedNames h g a →
       ∃ name', name' ∈ visitedNames h g a
                ∧ rewriteName name' = rewriteName name
                ∧ m !! rewriteName name
                  = Some (id_of_access h (getProperty h a name'))).
  { intros name Hname.
    destruct (rec_property _ _ _ _ _ Hrec a name Ha Hst Hname)
      as [Hin | (name' & ? & ? & Hp)].
    { rewrite Hq in Hin. by apply elem_of_nil in Hin. }
    exists name'. by rewrite Hm in Hp. }
  split; [done|]. split.
  - intros name Hname Hinj. destruct (Hall name Hname) as (name' & Hn' & Heq & Hp).
    by rewrite (Hinj name' Hn' Heq) in Hp.
  - intros k v Hkv.
    destruct (rec_entries _ _ _ _ _ Hrec _ m k v Hm Hkv)
      as (b & name & Hb' & Heq & ? & ? & ?).
    apply (heap_ok_inj h objs Hok) in Heq as ->; [|done..]. by exists name.
Qed.

(** X3: in every state of a capture the stores are closed: the value of
    every entry of [data] and of [protos] is a sentinel or an identity
    that [data] holds, [metadata] has the keys of [data], the keys of
    [protos] and the functions are among them, and every key of [data]
    is the $UID of an object of the heap. *)
Theorem capture_stores_closed (g : ObjectGraph) :
  capturing rewriteName h g0 o opts g →
  (∀ id m k v, data g !! id = Some m → m !! k = Some v →
               isType v = true ∨ v ∈ dom (data g))
  ∧ (∀ id p, protos g !! id = Some p →
             isType p = true ∨ p ∈ dom (data g))
  ∧ dom (metadata g) = dom (data g)
  ∧ dom (protos g) ⊆ dom (data g)
  ∧ (∀ id, id ∈ functions g → id ∈ dom (data g))
  ∧ (∀ id, id ∈ dom (data g) → ∃ a, a ∈ objs ∧ UID (h a) = id).
Proof.
  intros Hg.
  pose proof (capturing_run_ok h objs Hok rewriteName o opts g0 g
                Hidle Htimers Hlive Hbl Hg) as (Hinv & _).
  pose proof (capturing_record h objs Hok rewriteName o opts g0 g
                Hidle Htimers Hlive Hbl Hg) as Hrec.
  split; [apply (rec_values _ _ _ _ _ Hrec)|].
  split; [apply (rec_parents _ _ _ _ _ Hrec)|].
  split; [apply (inv_metadata _ _ _ _ Hinv)|].
  split; [apply (inv_protos _ _ _ _ Hinv)|].
  split; [|apply (inv_live _ _ _ _ Hinv)].
  intros id. rewrite (rec_functions _ _ _ _ _ Hrec), elem_of_rev.
  intros [_ Hid]%list_elem_of_filter. by apply (inv_visits _ _ _ _ Hinv).
Qed.

(** X4: in every state of a capture, [functions] lists the identities of
    the callable objects that are stored, each once and in the order of
    their visits, and [isFunction] holds of exactly these. *)
Theorem capture_records_functions (g : ObjectGraph) :
  capturing rewriteName h g0 o opts g →
  getFunctions g
  = rev (filter (λ id, is_function_id h objs id = true) (visits (trace g)))
  ∧ NoDup (getFunctions g)
  ∧ ∀ id, isFunction g id = true
          ↔ ∃ a, a ∈ objs ∧ stored h g a ∧ UID (h a) = id
                 ∧ callable (h a) = true.
Proof.
  intros Hg.
  pose proof (capturing_run_ok h objs Hok rewriteName o opts g0 g
                Hidle Htimers Hlive Hbl Hg) as (Hinv & _).
  pose proof (capturing_record h objs Hok rewriteName o opts g0 g
                Hidle Htimers Hlive Hbl Hg) as Hrec.
  unfold getFunctions. split; [apply (rec_functions _ _ _ _ _ Hrec)|]. split.
  - rewrite (rec_functions _ _ _ _ _ Hrec). apply NoDup_rev_2, NoDup_filter.
    apply (inv_nodup _ _ _ _ Hinv).
  - intros id. unfold isFunction.
    assert (Hin : existsb (N.eqb id) (functions g) = true ↔ id ∈ functions g).
    { rewrite existsb_exists. split.
      - intros (x & Hx%list_elem_of_In & ->%N.eqb_eq). done.
      - intros Hx. exists id. split; [by apply list_elem_of_In | apply N.eqb_refl]. }
    rewrite andb_true_iff, Hin, (rec_functions _ _ _ _ _ Hrec), elem_of_rev,
      list_elem_of_filter, (inv_visits _ _ _ _ Hinv).
    split.
    + intros (_ & Hfn & Hid).
      destruct (inv_live _ _ _ _ Hinv id Hid) as (a & Ha & <-).
      exists a. rewrite (is_function_id_callable h objs Hok a Ha) in Hfn.
      repeat split; try done. by apply stored_dom.
    + intros (a & Ha & Hst%stored_dom & <- & Hc).
      rewrite (is_function_id_callable h objs Hok a Ha).
      repeat split; try done. apply identity_truthy.
      by destruct (heap_ok_object h objs Hok a Ha).
Qed.

End Mirror.

Lemma id_of_access_nonzero (h : heap) (objs : list addr) (a : addr)
  (name : string) :
  heap_ok h objs = true → a ∈ objs →
  id_of_access h (getProperty h a name) ≠ 0%N.
Proof.
  intros Hok Ha. pose proof (getProperty_live h objs Hok a name Ha) as Hl.
  destruct (getProperty h a name) as [v|]; [|done].
  by eapply id_of_nonzero.
Qed.


(** *** The records of the diamond *)

Lemma fresh_graph_idle : idle fresh_graph.
Proof. split; reflexivity. Qed.

Lemma diamond_root_live : live_value [0; 1; 2; 3; 4; 5; 6] (VObj 0) = true.
Proof. vm_compute. reflexivity. Qed.

Lemma diamond_root_visited : VObj 0 ∉ blacklistedObjects fresh_graph.
Proof.
  vm_compute. intros H. inversion H as [|? ? ? H']; subst. inversion H'.
Qed.

Lemma diamond_captured :
  capturing id diamond fresh_graph (VObj 0) no_opts diamond_graph.
Proof. apply diamond_visits. Qed.

Lemma diamond_done : busy diamond_graph = false.
Proof. vm_compute. reflexivity. Qed.

Lemma capture_records_prototypes_witness :
  (∀ a, a ∈ [0; 1; 2; 3; 4; 5; 6] → stored diamond diamond_graph a →
        protos diamond_graph !! UID (diamond a)
        = Some (id_of diamond (proto (diamond a)))
        ∧ getPrototype diamond_graph (UID (diamond a))
          = id_of diamond (proto (diamond a)))
  ∧ (∀ id p, protos diamond_graph !! id = Some p →
        ∃ a, a ∈ [0; 1; 2; 3; 4; 5; 6] ∧ stored diamond diamond_graph a
             ∧ UID (diamond a) = id
             ∧ p = id_of diamond (proto (diamond a))).
Proof.
  exact (capture_records_prototypes diamond [0; 1; 2; 3; 4; 5; 6]
           diamond_heap_ok id (VObj 0) no_opts fresh_graph fresh_graph_idle
           eq_refl diamond_root_live diamond_root_visited diamond_graph
           diamond_captured diamond_done).
Defined.

Lemma capture_records_properties_witness :
  (∀ name, name ∈ visitedNames diamond fresh_graph 0 →
     ∃ name', name' ∈ visitedNames diamond fresh_graph 0
              ∧ id name' = id name
              ∧ default ∅ (data diamond_graph !! UID (diamond 0)) !! id name
                = Some (id_of_access diamond (getProperty diamond 0 name')))
  ∧ (∀ name, name ∈ visitedNames diamond fresh_graph 0 →
       (∀ name', name' ∈ visitedNames diamond fresh_graph 0 →
                 id name' = id name → name' = name) →
       default ∅ (data diamond_graph !! UID (diamond 0)) !! id name
       = Some (id_of_access diamond (getProperty diamond 0 name)))
  ∧ (∀ k v, default ∅ (data diamond_graph !! UID (diamond 0)) !! k = Some v →
       ∃ name, name ∈ visitedNames diamond fresh_graph 0 ∧ k = id name
               ∧ v = id_of_access diamond (getProperty diamond 0 name)).
Proof.
  apply (capture_records_properties diamond [0; 1; 2; 3; 4; 5; 6]
           diamond_heap_ok id (VObj 0) no_opts fresh_graph fresh_graph_idle
           eq_refl diamond_root_live diamond_root_visited diamond_graph
           diamond_captured diamond_done 0).
  - apply (proj1 (bool_decide_eq_true _)). vm_compute. reflexivity.
  - vm_compute. reflexivity.
Defined.

Lemma capture_stores_closed_witness :
  (∀ id m k v, data diamond_graph !! id = Some m → m !! k = Some v →
               isType v = true ∨ v ∈ dom (data diamond_graph))
  ∧ (∀ id p, protos diamond_graph !! id = Some p →
             isType p = true ∨ p ∈ dom (data diamond_graph))
  ∧ dom (metadata diamond_graph) = dom (data diamond_graph)
  ∧ dom (protos diamond_graph) ⊆ dom (data diamond_graph)
  ∧ (∀ id, id ∈ functions diamond_graph → id ∈ dom (data diamond_graph))
  ∧ (∀ id, id ∈ dom (data diamond_graph) →
           ∃ a, a ∈ [0; 1; 2; 3; 4; 5; 6] ∧ UID (diamond a) = id).
Proof.
  exact (capture_stores_closed diamond [0; 1; 2; 3; 4; 5; 6]
           diamond_heap_ok id (VObj 0) no_opts fresh_graph fresh_graph_idle
           eq_refl diamond_root_live diamond_root_visited diamond_graph
           diamond_captured).
Defined.

Lemma capture_records_functions_witness :
  getFunctions diamond_graph
  = rev (filter (λ id, is_function_id diamond [0; 1; 2; 3; 4; 5; 6] id = true)
                (visits (trace diamond_graph)))
  ∧ NoDup (getFunctions diamond_graph)
  ∧ ∀ id, isFunction diamond_graph id = true
          ↔ ∃ a, a ∈ [0; 1; 2; 3; 4; 5; 6] ∧ stored diamond diamond_graph a
                 ∧ UID (diamond a) = id ∧ callable (diamond a) = true.
Proof.
  exact (capture_records_functions diamond [0; 1; 2; 3; 4; 5; 6]
           diamond_heap_ok id (VObj 0) no_opts fresh_graph fresh_graph_idle
           eq_refl diamond_root_live diamond_root_visited diamond_graph
           diamond_captured).
Defined.

Lemma diamond_names_plain :
  ∀ b name, b ∈ [0; 1; 2; 3; 4; 5; 6] →
    name ∈ visitedNames diamond fresh_graph b →
    id name ≠ "__proto__" ∧ dot_free (id name) = true.
Proof.
  assert (H : Forall (λ b, Forall (λ name, name ≠ "__proto__"
                                           ∧ dot_free name = true)
                             (visitedNames diamond fresh_graph b))
                     [0; 1; 2; 3; 4; 5; 6]).
  { apply (proj1 (bool_decide_eq_true _)). vm_compute. reflexivity. }
  intros b name Hb Hname. rewrite Forall_forall in H.
  specialize (H b Hb). rewrite Forall_forall in H. by apply H.
Qed.


(** *** The descriptors *)

Lemma descriptors_loop_union (h : heap) (a : addr) (names : list string)
  (desc : option (list (string * bool))) (m : gmap string descriptor) :
  descriptors_loop h a names desc m = descriptors_loop h a names desc ∅ ∪ m.
Proof.
  revert desc m. induction names as [|name names IH]; intros desc m; simpl.
  - by rewrite (left_id_L ∅ (∪)).
  - destruct (readDescriptor h a name desc) as [d|]; [|apply IH].
    rewrite (IH _ (<[name:=describe d]> m)), (IH _ (<[name:=describe d]> ∅)).
    rewrite <- (assoc_L (∪)). f_equal.
    by rewrite insert_union_singleton_l, (insert_union_singleton_l ∅),
      (right_id_L ∅ (∪)).
Qed.

(** The loop leaves the entries of the other names as they are. *)
Lemma descriptors_loop_other (h : heap) (a : addr) (names : list string)
  (desc : option (list (string * bool))) (m : gmap string descriptor)
  (name : string) :
  name ∉ names → descriptors_loop h a names desc m !! name = m !! name.
Proof.
  revert desc m. induction names as [|n names IH]; intros desc m Hname; simpl;
    [done|].
  apply not_elem_of_cons in Hname as [Hne Hname]. rewrite IH by done.
  destruct (readDescriptor h a n desc); [by rewrite lookup_insert_ne | done].
Qed.

(** Under a name that is listed once the loop stores the descriptor that
    the variable holds when the name is reached. *)
Lemma descriptors_loop_lookup (h : heap) (a : addr) (pre post : list string)
  (name : string) (desc : option (list (string * bool)))
  (m : gmap string descriptor) :
  name ∉ pre → name ∉ post →
  descriptors_loop h a (pre ++ name :: post) desc m !! name
  = match foldl (λ desc name, readDescriptor h a name desc) desc
            (pre ++ [name]) with
    | Some d => Some (describe d)
    | None => m !! name
    end.
Proof.
  intros Hpre Hpost. revert desc m.
  induction pre as [|n pre IH]; intros desc m; simpl.
  - rewrite descriptors_loop_other by done.
    destruct (readDescriptor h a name desc);
      [by rewrite lookup_insert_eq | done].
  - apply not_elem_of_cons in Hpre as [Hne Hpre]. rewrite (IH Hpre).
    destruct (foldl _ _ (pre ++ [name])); [done|].
    destruct (readDescriptor h a n desc); [by rewrite lookup_insert_ne | done].
Qed.

(** What [visitPropertyDescriptors] changes: the map of its object. *)
Lemma visitPropertyDescriptors_metadata (h : heap) (a : addr)
  (names : list string) (desc : option (list (string * bool)))
  (g : ObjectGraph) :
  let g' := visitPropertyDescriptors_loop h a names desc g in
  metadata g'
  = alter (descriptors_loop h a names desc) (UID (h a)) (metadata g)
  ∧ data g' = data g ∧ q g' = q g
  ∧ blacklistedKeys g' = blacklistedKeys g
  ∧ blacklistedObjects g' = blacklistedObjects g.
Proof.
  revert desc g. induction names as [|name names IH]; intros desc g; simpl.
  - split; [|done]. apply map_eq. intros i.
    destruct (decide (UID (h a) = i)) as [<-|Hne].
    + rewrite lookup_alter_eq. by destruct (metadata g !! UID (h a)).
    + by rewrite lookup_alter_ne.
  - destruct (readDescriptor h a name desc) as [d|].
    + destruct (IH (Some d)
                  (with_metadata
                     (alter (insert name (describe d)) (UID (h a))) g))
        as (-> & -> & -> & -> & ->).
      split; [|done]. simpl. apply map_eq. intros i.
      destruct (decide (UID (h a) = i)) as [<-|Hne].
      * rewrite !lookup_alter_eq. by destruct (metadata g !! UID (h a)).
      * by rewrite !lookup_alter_ne.
    + destruct (IH None (log (EvWarn name (UID (h a))) g))
        as (-> & -> & -> & -> & ->).
      done.
Qed.

Section Descriptors.

Variable h : heap.
Variable objs : list addr.
Hypothesis Hok : heap_ok h objs = true.

Lemma meta_first_visit (running : list task) (g : ObjectGraph) (a : addr) :
  metadata_inv h objs running g → a ∈ objs → data g !! UID (h a) = None →
  metadata_inv h objs running (first_visit h a g).
Proof.
  intros Hmeta Ha Hnew b Hb.
  rewrite stored_dom, first_visit_data, dom_insert_L, elem_of_union,
    elem_of_singleton, first_visit_metadata, first_visit_q.
  assert (Hnames : descriptors_of h (first_visit h a g) b = descriptors_of h g b).
  { unfold descriptors_of. erewrite visitedNames_blacklists;
      [done | apply first_visit_blacklistedKeys
       | apply first_visit_blacklistedObjects]. }
  rewrite Hnames. intros [Hba | Hst].
  - apply (heap_ok_inj h objs Hok) in Hba as ->; [|done..].
    left. rewrite lookup_insert_eq. split; [|done].
    rewrite !elem_of_app. right. right. left. right. by left.
  - assert (UID (h a) ≠ UID (h b)) as Hne.
    { intros Heq. rewrite Heq in Hnew. apply elem_of_dom in Hst as [m Hm].
      congruence. }
    rewrite lookup_insert_ne by done. apply stored_dom in Hst.
    destruct (Hmeta b Hb Hst) as [[Hin Hm] | Hm]; [left | by right].
    split; [|done]. rewrite elem_of_app in Hin. rewrite !elem_of_app. tauto.
Qed.

Lemma meta_frame (running running' : list task) (g g' : ObjectGraph) :
  metadata_inv h objs running g →
  metadata g' = metadata g → dom (data g') = dom (data g) →
  blacklistedKeys g' = blacklistedKeys g →
  blacklistedObjects g' = blacklistedObjects g →
  (∀ a, VisitPropertyDescriptors a ∈ running ++ q g →
        VisitPropertyDescriptors a ∈ running' ++ q g') →
  metadata_inv h objs running' g'.
Proof.
  intros Hmeta Hm Hd Hk Ho Hkeep a Ha. rewrite stored_dom, Hd, Hm.
  intros Hst%stored_dom.
  assert (Hnames : descriptors_of h g' a = descriptors_of h g a).
  { unfold descriptors_of. by erewrite visitedNames_blacklists. }
  rewrite Hnames. destruct (Hmeta a Ha Hst) as [[Hin ?] | ?]; [left | by right].
  split; [auto | done].
Qed.

Lemma meta_visitObject (running : list task) (g : ObjectGraph) (o : value) :
  capture_inv h objs running g → metadata_inv h objs running g →
  live_value objs o = true →
  metadata_inv h objs running (visitObject h o g).2.
Proof.
  intros Hinv Hmeta Hlive.
  destruct (visitObject_cases h objs Hok running g o Hinv Hlive)
    as [(id & -> & _) | (a & -> & Ha & Hnew & ->)]; cbn [fst snd];
    [done | by apply meta_first_visit].
Qed.

Lemma meta_visitPropertyDescriptors (g : ObjectGraph) (a : addr) :
  metadata_inv h objs [VisitPropertyDescriptors a] g → a ∈ objs →
  metadata_inv h objs [] (visitPropertyDescriptors h a g).
Proof.
  intros Hmeta Ha. unfold visitPropertyDescriptors.
  destruct (visitPropertyDescriptors_metadata h a (visitedNames h g a) None g)
    as (Hm & Hd & Hq & Hk & Ho).
  cbv zeta in Hm, Hd, Hq, Hk, Ho.
  set (g' := visitPropertyDescriptors_loop h a (visitedNames h g a) None g)
    in *.
  intros b Hb. unfold stored. rewrite Hd, Hm, Hq. intros Hst.
  assert (Hnames : descriptors_of h g' b = descriptors_of h g b).
  { unfold descriptors_of. by erewrite visitedNames_blacklists. }
  rewrite Hnames. destruct (decide (b = a)) as [->|Hne].
  - right. rewrite lookup_alter_eq.
    destruct (Hmeta a Ha Hst) as [[_ ->] | ->]; simpl; f_equal; try done.
    unfold descriptors_of. rewrite descriptors_loop_union.
    apply (idemp_L (∪)).
  - rewrite lookup_alter_ne.
    + destruct (Hmeta b Hb Hst) as [[Hin Hm'] | Hm']; [left | by right].
      split; [|done].
      apply elem_of_app in Hin as [Hin%list_elem_of_singleton | Hin];
        [congruence | done].
    + intros Heq. by apply (heap_ok_inj h objs Hok) in Heq.
Qed.

Variable rewriteName : string → string.

Lemma meta_run_task (g : ObjectGraph) (t : task) :
  capture_inv h objs [t] g → metadata_inv h objs [t] g →
  metadata_inv h objs [] (run_task rewriteName h t g).
Proof.
  intros Hinv Hmeta.
  destruct (inv_tasks _ _ _ _ Hinv t) as [Ha _]; [by left|].
  assert (Hdrop : ∀ g1 g2, ¬ (∃ c, t = VisitPropertyDescriptors c) →
            metadata_inv h objs [t] g1 → metadata g2 = metadata g1 →
            dom (data g2) = dom (data g1) →
            blacklistedKeys g2 = blacklistedKeys g1 →
            blacklistedObjects g2 = blacklistedObjects g1 →
            q g2 = q g1 → metadata_inv h objs [] g2).
  { intros g1 g2 Ht H1 Hm Hd Hk Ho Hq.
    apply (meta_frame [t] [] g1); try done.
    intros c [Hc%list_elem_of_singleton | Hc]%elem_of_app;
      [destruct Ht; by exists c | by rewrite Hq]. }
  destruct t as [a|a|a name]; simpl in Ha |- *.
  - destruct (heap_ok_object h objs Hok a Ha) as (_ & Hlive & _).
    pose proof (meta_visitObject _ g _ Hinv Hmeta Hlive) as Hmeta'.
    unfold visitPrototype. destruct (visitObject h (proto (h a)) g) as [pid g1].
    simpl in Hmeta'.
    apply (Hdrop g1); [by intros [c [=]] | done | ..];
      unfold storeProto, console_assert; by destruct (negb _).
  - by apply meta_visitPropertyDescriptors.
  - pose proof (getProperty_live h objs Hok a name Ha) as Hlive.
    unfold visitProperty. destruct (getProperty h a name) as [v|].
    + pose proof (meta_visitObject _ g _ Hinv Hmeta Hlive) as Hmeta'.
      destruct (visitObject h v g) as [id g1]. simpl in Hmeta'.
      apply (Hdrop g1); [by intros [c [=]] | done | ..]; simpl; try done.
      apply dom_alter_L.
    + apply (Hdrop g); [by intros [c [=]] | done | ..]; simpl; try done.
      apply dom_alter_L.
Qed.

Lemma meta_dequeue (n : nat) (g : ObjectGraph) :
  capture_inv h objs [] g → metadata_inv h objs [] g →
  metadata_inv h objs [] (dequeue rewriteName h n g).
Proof.
  revert g. induction n as [|n IH]; intros g Hinv Hmeta; simpl; [done|].
  destruct (q g) as [|t rest] eqn:Hq; [done|].
  pose proof (inv_pop h objs g t rest Hinv Hq) as Hinv1.
  apply IH; [by apply inv_run_task | apply meta_run_task; [done|]].
  apply (meta_frame [] [t] g); try done. intros a. simpl. by rewrite Hq.
Qed.

Lemma meta_same (g g' : ObjectGraph) :
  metadata_inv h objs [] g →
  data g' = data g → metadata g' = metadata g → q g' = q g →
  blacklistedKeys g' = blacklistedKeys g →
  blacklistedObjects g' = blacklistedObjects g →
  metadata_inv h objs [] g'.
Proof.
  intros Hmeta Hd Hm Hq Hk Ho.
  apply (meta_frame [] [] g); try done; [by rewrite Hd|].
  intros a. by rewrite Hq.
Qed.

Lemma meta_flush (fuel : nat) (g g' : ObjectGraph) :
  capture_inv h objs [] g → metadata_inv h objs [] g →
  flush rewriteName h fuel g = Ret g' → metadata_inv h objs [] g'.
Proof.
  intros Hinv Hmeta. destruct fuel as [|fuel]; [done|].
  rewrite flush_eq. cbv zeta.
  assert (Hinv1 : capture_inv h objs [] (log EvTick g)).
  { apply (inv_same h objs g); try done. apply (inv_onDone _ _ _ _ Hinv). }
  assert (Hmeta1 : metadata_inv h objs [] (log EvTick g))
    by (by apply (meta_same g)).
  pose proof (inv_dequeue h objs Hok rewriteName (maxDequeueSize g) _ Hinv1)
    as Hinv2.
  pose proof (meta_dequeue (maxDequeueSize g) _ Hinv1 Hmeta1) as Hmeta2.
  simpl maxDequeueSize.
  set (g1 := dequeue rewriteName h (maxDequeueSize g) (log EvTick g)) in *.
  destruct (q g1) as [|t rest] eqn:Hq1.
  - intros Hcall.
    destruct (call_same rewriteName h _ (inv_onDone _ _ _ _ Hinv2) _ _ _ Hcall)
      as ((Hd&Hm&_&_&_&_&Hq&_&_&_&Ho&Hk&_) & _).
    by apply (meta_same g1).
  - intros [= <-]. by apply (meta_same g1).
Qed.

Variable o : value.
Variable opts : captureOpts.
Variable g0 : ObjectGraph.
Hypothesis Hidle : idle g0.
Hypothesis Htimers : timers g0 = 0.
Hypothesis Hlive : live_value objs o = true.
Hypothesis Hbl : o ∉ blacklistedObjects g0.

Lemma capturing_metadata (g : ObjectGraph) :
  capturing rewriteName h g0 o opts g → metadata_inv h objs [] g.
Proof.
  induction 1 as [fuel g Hc | fuel g g' Hg IH Hto].
  - destruct Hidle as [Hbusy Hq Hcb]. destruct fuel as [|fuel]; [done|].
    rewrite capture_eq, Hbusy in Hc. cbv zeta in Hc.
    rewrite bool_decide_eq_false_2 in Hc by done.
    set (g1 := with_onDone (CbCaptureDone (onDone g0) (optOnDone opts))
                 (log EvCapture (reset (rootKey opts) (rootOf h o) g0))) in *.
    assert (Hinv1 : capture_inv h objs [] g1) by (by apply inv_reset).
    assert (Hmeta1 : metadata_inv h objs [] g1).
    { intros a _ [m Hm]. simpl in Hm. by rewrite lookup_empty in Hm. }
    destruct (inv_visitObject h objs Hok [] g1 o Hinv1 Hlive) as (Hinv2 & _).
    pose proof (meta_visitObject [] g1 o Hinv1 Hmeta1 Hlive) as Hmeta2.
    by eapply meta_flush.
  - pose proof (capturing_run_ok h objs Hok rewriteName o opts g0 g
                  Hidle Htimers Hlive Hbl Hg) as (Hinv & _).
    unfold timeout in Hto. destruct (timers g) as [|n]; [by injection Hto as <-|].
    apply (meta_flush fuel (with_timers n g)); [| |done].
    + apply (inv_same h objs g); try done. apply (inv_onDone _ _ _ _ Hinv).
    + by apply (meta_same g).
Qed.

(** X6: once a capture is done, the metadata of every stored object
    whose own names are distinct holds an entry under no name that is
    not visited, and under a visited name the parts, as 1 or 0, of the
    descriptor that the variable of [visitPropertyDescriptors] holds when
    the name is reached: the descriptor of the name when the read returns
    one, no entry when the read returns undefined, and, when the read
    throws, what the name visited before it got (the variable is not
    reset), no entry when the name is the first. *)
Theorem capture_records_descriptors (g : ObjectGraph) (a : addr) :
  capturing rewriteName h g0 o opts g → busy g = false →
  a ∈ objs → stored h g a → NoDup (getOwnPropertyNames h a) →
  ∃ m, metadata g !! UID (h a) = Some m
       ∧ (∀ name, name ∉ visitedNames h g0 a → m !! name = None)
       ∧ ∀ pre name post, visitedNames h g0 a = pre ++ name :: post →
           m !! name = describe <$> descriptor_after h a (pre ++ [name])
           ∧ (∀ d, getOwnPropertyDescriptor h a name = Descriptor d →
                   m !! name = Some (describe d))
           ∧ (getOwnPropertyDescriptor h a name = NoDescriptor →
              m !! name = None)
           ∧ (getOwnPropertyDescriptor h a name = DescriptorRaises →
              m !! name = describe <$> descriptor_after h a pre
              ∧ ∀ pre' name', pre = pre' ++ [name'] →
                  m !! name = m !! name').
Proof.
  intros Hg Hb Ha Hst Hnodup.
  pose proof (capturing_run_ok h objs Hok rewriteName o opts g0 g
                Hidle Htimers Hlive Hbl Hg) as (Hinv & _ & Hk & Ho & _ & _ & Hs).
  rewrite Hb in Hs. destruct Hs as [_ Hq].
  destruct (capturing_metadata g Hg a Ha Hst) as [[Hin _] | Hm].
  { rewrite Hq in Hin. by apply elem_of_nil in Hin. }
  exists (descriptors_of h g a). split; [done|].
  unfold descriptors_of. rewrite (visitedNames_blacklists h g0 g a Hk Ho).
  assert (Hvisited : NoDup (visitedNames h g0 a)).
  { unfold visitedNames. by apply NoDup_filter. }
  split.
  { intros name Hname. by rewrite descriptors_loop_other, lookup_empty. }
  assert (Hat : ∀ pre name post, visitedNames h g0 a = pre ++ name :: post →
            descriptors_loop h a (visitedNames h g0 a) None ∅ !! name
            = describe <$> descriptor_after h a (pre ++ [name])).
  { intros pre name post Heq. rewrite Heq in Hvisited |- *.
    apply NoDup_app in Hvisited as (_ & Hpre & [Hpost _]%NoDup_cons).
    rewrite descriptors_loop_lookup;
      [|intros Hin; apply (Hpre _ Hin); left|done].
    unfold descriptor_after. rewrite lookup_empty.
    by destruct (foldl _ _ (pre ++ [name])). }
  intros pre name post Heq. rewrite (Hat pre name post Heq).
  assert (Hstep : descriptor_after h a (pre ++ [name])
                  = readDescriptor h a name (descriptor_after h a pre)).
  { unfold descriptor_after. by rewrite foldl_app. }
  split; [done|]. rewrite Hstep. unfold readDescriptor.
  split; [by intros d ->|]. split; [by intros ->|].
  intros ->. split; [done|]. intros pre' name' ->.
  symmetry. rewrite <- (assoc_L (++)) in Heq. by apply (Hat pre' name' _ Heq).
Qed.

End Descriptors.

Lemma capture_records_descriptors_witness :
  ∃ m, metadata stale_graph !! UID (stale_heap 0) = Some m
       ∧ (∀ name, name ∉ visitedNames stale_heap fresh_graph 0 →
                  m !! name = None)
       ∧ ∀ pre name post,
           visitedNames stale_heap fresh_graph 0 = pre ++ name :: post →
           m !! name
           = describe <$> descriptor_after stale_heap 0 (pre ++ [name])
           ∧ (∀ d, getOwnPropertyDescriptor stale_heap 0 name = Descriptor d →
                   m !! name = Some (describe d))
           ∧ (getOwnPropertyDescriptor stale_heap 0 name = NoDescriptor →
              m !! name = None)
           ∧ (getOwnPropertyDescriptor stale_heap 0 name = DescriptorRaises →
              m !! name = describe <$> descriptor_after stale_heap 0 pre
              ∧ ∀ pre' name', pre = pre' ++ [name'] →
                  m !! name = m !! name').
Proof.
  apply (capture_records_descriptors stale_heap [0] eq_refl id (VObj 0)
           no_opts fresh_graph fresh_graph_idle eq_refl eq_refl).
  - vm_compute. intros H. inversion H as [|? ? ? H']; subst. inversion H'.
  - apply (capturing_call id stale_heap fresh_graph (VObj 0) no_opts 8).
    vm_compute. reflexivity.
  - reflexivity.
  - apply list_elem_of_here.
  - vm_compute. eexists. reflexivity.
  - apply (proj1 (bool_decide_eq_true _)). vm_compute. reflexivity.
Defined.

(** The capture of [stale_heap]: the descriptor of "a" is stored under
    "b" as well, and nothing is reported. *)
Lemma capture_stale_descriptor :
  metadata stale_graph !! 100%N
  = Some {[ "a" := describe [("value", true); ("writable", false)];
            "b" := describe [("value", true); ("writable", false)] ]}
  ∧ ∀ name id, EvWarn name id ∉ trace stale_graph.
Proof.
  split; [by vm_compute|].
  assert (H : Forall (λ e, ∀ name id, e ≠ EvWarn name id) (trace stale_graph)).
  { vm_compute. repeat constructor; discriminate. }
  intros name id Hin. rewrite Forall_forall in H. by apply (H _ Hin name id).
Qed.

(** ** Type names *)

(** X7: [getType] names the types: it inverts [types] on the seven
    sentinels, every other number is an 'object'; so the identity of a
    captured value gives the typeof of a primitive, 'null' for null, and
    'object' for every object, a function too. *)
Theorem getType_inverts_types (h : heap) :
  (∀ name id, types name = Some id → getType id = Some name)
  ∧ (∀ id, isType id = true →
           ∃ name, getType id = Some name ∧ types name = Some id)
  ∧ (∀ id, isType id = false → getType id = Some "object")
  ∧ (∀ v, (∀ a, v = VObj a → identity (UID (h a))) →
          getType (id_of h v)
          = Some match v with
                 | VNull => "null"
                 | VObj _ => "object"
                 | _ => typeOf h v
                 end).
Proof.
  split; [|split; [|split]].
  - intros name id. unfold types.
    repeat match goal with
           | |- context [String.eqb name ?s] =>
               destruct (String.eqb_spec name s) as [->|_];
               [by intros [= <-]|]
           end.
    done.
  - intros id. unfold isType, FIRST_TYPE, LAST_TYPE.
    intros [H1%N.leb_le H2%N.leb_le]%andb_true_iff.
    assert (id = 1 ∨ id = 2 ∨ id = 3 ∨ id = 4 ∨ id = 5 ∨ id = 6 ∨ id = 7)%N
      as Hid by lia.
    destruct Hid as [->|[->|[->|[->|[->|[->| ->]]]]]]; by eexists.
  - intros id Hid. unfold getType. by rewrite Hid.
  - intros v Hv. destruct v as [| |b|n|s| |a]; try done.
    simpl. unfold getType. by rewrite identity_not_type by (by apply Hv).
Qed.

Lemma getType_inverts_types_witness :
  getType (id_of diamond (VObj 4)) = Some "object"
  ∧ getType (id_of diamond (VString "inherited")) = Some "string".
Proof.
  split.
  - apply (proj2 (proj2 (proj2 (getType_inverts_types diamond))) (VObj 4)).
    intros a [= <-]. vm_compute. reflexivity.
  - apply (proj2 (proj2 (proj2 (getType_inverts_types diamond)))
             (VString "inherited")).
    intros a H. discriminate H.
Defined.

(** ** Names of an object *)

Lemma sort_strings_sorted (l : list string) :
  Sorted (λ a b : string, String.leb a b) (sort_strings l).
Proof.
  unfold sort_strings. apply (Sorted_merge_sort (λ a b : string, String.leb a b)).
Qed.

Lemma sort_strings_permutation (l : list string) : sort_strings l ≡ₚ l.
Proof. apply merge_sort_Permutation. Qed.

Lemma ownNames_elem {A} (m : gmap string A) (k : string) :
  k ∈ ownNames m ↔ is_Some (m !! k).
Proof.
  unfold ownNames. rewrite list_elem_of_fmap. split.
  - intros ([k' v] & -> & Hin%elem_of_map_to_list). by exists v.
  - intros [v Hv]. exists (k, v). split; [done|]. by apply elem_of_map_to_list.
Qed.

(** X8: [getObjectKeys] returns the names of the entries of an identity
    (those that the predicate accepts, when one is given), each once
    and in ascending order; of an identity that is not stored it
    returns none. *)
Theorem getObjectKeys_sorted_names (g : ObjectGraph) (id : N)
  (opt_predicate : option (N → string → bool)) :
  Sorted (λ a b : string, String.leb a b) (getObjectKeys g id opt_predicate)
  ∧ NoDup (getObjectKeys g id opt_predicate)
  ∧ (∀ k, k ∈ getObjectKeys g id opt_predicate
          ↔ ∃ m v, data g !! id = Some m ∧ m !! k = Some v
                   ∧ match opt_predicate with
                     | Some p => p v k = true
                     | None => True
                     end)
  ∧ (data g !! id = None → getObjectKeys g id opt_predicate = []).
Proof.
  unfold getObjectKeys. destruct (data g !! id) as [m|] eqn:Hm.
  - destruct opt_predicate as [p|].
    + split; [apply sort_strings_sorted|]. split; [|split; [|done]].
      * rewrite sort_strings_permutation. apply NoDup_filter.
        apply NoDup_fst_map_to_list.
      * intros k. rewrite sort_strings_permutation, list_elem_of_filter,
          ownNames_elem. split.
        -- intros [Hp [v Hv]]. exists m, v. rewrite Hv in Hp. done.
        -- intros (m' & v & [= <-] & Hv & Hp). rewrite Hv. split; [done|eauto].
    + split; [apply sort_strings_sorted|]. split; [|split; [|done]].
      * rewrite sort_strings_permutation. apply NoDup_fst_map_to_list.
      * intros k. rewrite sort_strings_permutation, ownNames_elem. split.
        -- intros [v Hv]. by exists m, v.
        -- intros (m' & v & [= <-] & Hv & _). eauto.
  - split; [constructor|]. split; [constructor|]. split; [|done].
    intros k. split; [by intros ?%elem_of_nil|].
    by intros (m & v & [=] & _).
Qed.

(** ** Removal *)

Lemma foldl_delete_lookup {A} (ids : list N) (m : gmap N A) (id : N) :
  foldl (λ m id, delete id m) m ids !! id
  = if decide (id ∈ ids) then None else m !! id.
Proof.
  revert m. induction ids as [|i ids IH]; intros m; cbn [foldl].
  - by rewrite decide_False by (by intros ?%elem_of_nil).
  - rewrite IH. destruct (decide (id ∈ ids)) as [Hin|Hnin].
    + by rewrite decide_True by (by right).
    + destruct (decide (i = id)) as [->|Hne].
      * rewrite lookup_delete_eq. by rewrite decide_True by left.
      * rewrite lookup_delete_ne by done. rewrite decide_False; [done|].
        rewrite elem_of_cons. naive_solver.
Qed.

(** [removeIds] as one update of the fields. *)
Lemma removeIds_fields (ids : list N) (g : ObjectGraph) :
  removeIds ids g
  = with_functions (filter (λ f, f ∉ ids))
      (with_metadata (λ m, foldl (λ m id, delete id m) m ids)
         (with_protos (λ m, foldl (λ m id, delete id m) m ids)
            (with_data (λ m, foldl (λ m id, delete id m) m ids) g))).
Proof.
  unfold removeIds. f_equal. revert g.
  induction ids as [|i ids IH]; intros g; simpl.
  - by destruct g.
  - rewrite IH. by destruct g.
Qed.

Lemma removeIds_data (ids : list N) (g : ObjectGraph) (id : N) :
  data (removeIds ids g) !! id
  = if decide (id ∈ ids) then None else data g !! id.
Proof. rewrite removeIds_fields. apply foldl_delete_lookup. Qed.

(** X9: [removeIds] deletes the identities from [data], [protos] and
    [metadata] and from the functions, and nothing else: the entries of
    the other identities stay as they are, those that refer to a removed
    identity too, and the keys cache is not reset. *)
Theorem removeIds_removes (ids : list N) (g : ObjectGraph) :
  (∀ id, data (removeIds ids g) !! id
         = if decide (id ∈ ids) then None else data g !! id)
  ∧ (∀ id, protos (removeIds ids g) !! id
           = if decide (id ∈ ids) then None else protos g !! id)
  ∧ (∀ id, metadata (removeIds ids g) !! id
           = if decide (id ∈ ids) then None else metadata g !! id)
  ∧ (∀ id, id ∈ functions (removeIds ids g) ↔ id ∈ functions g ∧ id ∉ ids)
  ∧ keysCache (removeIds ids g) = keysCache g
  ∧ root (removeIds ids g) = root g ∧ key (removeIds ids g) = key g
  ∧ blacklistedKeys (removeIds ids g) = blacklistedKeys g.
Proof.
  rewrite removeIds_fields. simpl.
  repeat (split; [intros id; apply foldl_delete_lookup|]).
  split; [|done]. intros id. rewrite list_elem_of_filter. tauto.
Qed.

Lemma filter_not_in_app (l1 l2 fs : list N) :
  filter (λ f, f ∉ l2) (filter (λ f, f ∉ l1) fs)
  = filter (λ f, f ∉ l1 ++ l2) fs.
Proof.
  induction fs as [|f fs IH]; [done|].
  destruct (decide (f ∈ l1)) as [H1|H1].
  - rewrite (filter_cons_False _ f fs) by tauto.
    rewrite (filter_cons_False _ f fs); [done|]. rewrite elem_of_app. tauto.
  - rewrite (filter_cons_True (λ f, f ∉ l1) f fs) by done.
    destruct (decide (f ∈ l2)) as [H2|H2].
    + rewrite filter_cons_False by tauto.
      rewrite (filter_cons_False _ f fs); [done|]. rewrite elem_of_app. tauto.
    + rewrite filter_cons_True by done.
      rewrite (filter_cons_True _ f fs); [by rewrite IH|].
      rewrite elem_of_app. tauto.
Qed.

Lemma filter_not_in_nil (fs : list N) : filter (λ f, f ∉ []) fs = fs.
Proof.
  induction fs as [|f fs IH]; [done|].
  rewrite filter_cons_True by (by intros ?%elem_of_nil). by rewrite IH.
Qed.

Lemma removeIds_nil (g : ObjectGraph) : removeIds [] g = g.
Proof.
  rewrite removeIds_fields. destruct g; unfold with_functions; simpl. f_equal.
  apply filter_not_in_nil.
Qed.

(** X10: removals compose: removing [l1] and then [l2] is removing
    [l1 ++ l2], so that removing the same identities again changes
    nothing, and removing none changes nothing. *)
Theorem removeIds_compose (l1 l2 : list N) (g : ObjectGraph) :
  removeIds l2 (removeIds l1 g) = removeIds (l1 ++ l2) g
  ∧ removeIds l1 (removeIds l1 g) = removeIds l1 g
  ∧ removeIds [] g = g.
Proof.
  assert (Hcomp : ∀ a b, removeIds b (removeIds a g) = removeIds (a ++ b) g).
  { intros a b. rewrite !removeIds_fields. unfold with_functions; simpl.
    rewrite !foldl_app, filter_not_in_app. done. }
  split; [apply Hcomp|]. split.
  - rewrite Hcomp, !removeIds_fields. unfold with_functions; simpl. f_equal.
    + apply map_eq. intros i. rewrite !foldl_delete_lookup.
      destruct (decide (i ∈ l1 ++ l1)) as [H|H], (decide (i ∈ l1)) as [H'|H'];
        try done; rewrite elem_of_app in H; tauto.
    + apply map_eq. intros i. rewrite !foldl_delete_lookup.
      destruct (decide (i ∈ l1 ++ l1)) as [H|H], (decide (i ∈ l1)) as [H'|H'];
        try done; rewrite elem_of_app in H; tauto.
    + apply map_eq. intros i. rewrite !foldl_delete_lookup.
      destruct (decide (i ∈ l1 ++ l1)) as [H|H], (decide (i ∈ l1)) as [H'|H'];
        try done; rewrite elem_of_app in H; tauto.
    + apply list_filter_iff. intros f. rewrite elem_of_app. tauto.
  - apply removeIds_nil.
Qed.

(** X11: [removeIds] leaves dangling references: where an entry of an
    identity that stays refers to a removed identity, a lookup through
    it throws a TypeError. *)
Theorem removeIds_leaves_references (ids : list N) (g : ObjectGraph)
  (a id : N) (m : gmap string N) (name next : string) (rest : list string)
  (fuel : nat) :
  data g !! a = Some m → m !! name = Some id → a ∉ ids → id ∈ ids →
  identity a → identity id →
  name ≠ "__proto__" → next ≠ "__proto__" →
  (data (removeIds ids g) !! a) ≫= (.!! name) = Some id
  ∧ data (removeIds ids g) !! id = None
  ∧ lookup_ (S fuel) (removeIds ids g) (name :: next :: rest) (Num a)
    = Thrown TypeError.
Proof.
  intros Ha Hname Hna Hid Hta%identity_not_type Hiid Hn Hnext.
  pose proof (identity_not_type id Hiid) as Htid.
  assert (Ha' : data (removeIds ids g) !! a = Some m).
  { by rewrite removeIds_data, decide_False. }
  assert (Hid' : data (removeIds ids g) !! id = None).
  { by rewrite removeIds_data, decide_True. }
  split; [by rewrite Ha'|]. split; [done|].
  cbn [lookup_ lookup_while].
  rewrite (proj2 (String.eqb_neq _ _) Hn), Hta, Ha', Hname.
  rewrite (identity_truthy id Hiid). cbn [res_bind].
  rewrite (proj2 (String.eqb_neq _ _) Hnext), Htid, Hid'. done.
Qed.

Lemma removeIds_leaves_references_witness :
  (data (removeIds [100%N] diamond_graph) !! 104%N) ≫= (.!! "up")
  = Some 100%N
  ∧ data (removeIds [100%N] diamond_graph) !! 100%N = None
  ∧ lookup_ 1 (removeIds [100%N] diamond_graph) ["up"; "a"] (Num 104)
    = Thrown TypeError.
Proof.
  refine (removeIds_leaves_references [100%N] diamond_graph 104 100
            _ "up" "a" [] 0 _ _ _ _ _ _ _ _).
  - vm_compute. reflexivity.
  - vm_compute. reflexivity.
  - vm_compute. intros H. inversion H as [|? ? ? H']; subst. inversion H'.
  - apply list_elem_of_here.
  - reflexivity.
  - reflexivity.
  - discriminate.
  - discriminate.
Defined.

Lemma delete_entry_lookup (d : gmap N (gmap string N)) (i id : N)
  (k key : string) :
  (alter (delete k) i d !! id) ≫= (.!! key)
  = if decide ((id, key) = (i, k)) then None else (d !! id) ≫= (.!! key).
Proof.
  destruct (decide (i = id)) as [->|Hne].
  - rewrite lookup_alter_eq. destruct (d !! id) as [m|]; simpl.
    + destruct (decide (k = key)) as [->|Hk].
      * rewrite lookup_delete_eq. by rewrite decide_True.
      * rewrite lookup_delete_ne by done. rewrite decide_False; [done|congruence].
    + by destruct (decide _).
  - rewrite lookup_alter_ne by done. rewrite decide_False; [done|congruence].
Qed.

Lemma isPrimitiveEntry_entry (g : ObjectGraph) (p : idKeyPair) :
  isPrimitiveEntry g p
  = match (data g !! pair_id p) ≫= (.!! pair_key p) with
    | Some v => isType v
    | None => false
    end.
Proof. unfold isPrimitiveEntry. by destruct (data g !! pair_id p). Qed.

(** X12: given pairs that are distinct and each name an entry of the
    graph that holds a sentinel, [removePrimitives] returns normally on
    every host and removes exactly these entries: the other entries,
    the identities, [protos], the functions, the descriptors in
    [metadata] (those of the removed entries too) and the keys cache
    stay as they are, and no assertion is reported. *)
Theorem removePrimitives_removes (assertThrows : bool)
  (idKeyPairs : list idKeyPair) (g : ObjectGraph) :
  Forall (λ p, isPrimitiveEntry g p = true) idKeyPairs →
  NoDup (map pair_of idKeyPairs) →
  ∃ g', removePrimitives assertThrows idKeyPairs g = (g', None)
    ∧ (∀ id k, (data g' !! id) ≫= (.!! k)
               = if decide ((id, k) ∈ map pair_of idKeyPairs) then None
                 else (data g !! id) ≫= (.!! k))
    ∧ dom (data g') = dom (data g)
    ∧ protos g' = protos g ∧ metadata g' = metadata g
    ∧ functions g' = functions g ∧ keysCache g' = keysCache g
    ∧ trace g' = trace g.
Proof.
  revert g. induction idKeyPairs as [|p rest IH]; intros g Hall Hnd.
  - exists g. split; [done|]. split; [|done]. intros id k.
    by rewrite decide_False by (by intros ?%elem_of_nil).
  - apply Forall_cons in Hall as [Hp Hall].
    change (map pair_of (p :: rest)) with (pair_of p :: map pair_of rest) in *.
    apply NoDup_cons in Hnd as [Hnew Hnd].
    cbn [removePrimitives]. rewrite Hp.
    set (g1 := with_data (alter (delete (pair_key p)) (pair_id p)) g).
    assert (Hentry : ∀ id k, (data g1 !! id) ≫= (.!! k)
              = if decide ((id, k) = pair_of p) then None
                else (data g !! id) ≫= (.!! k)).
    { intros id k. apply delete_entry_lookup. }
    destruct (IH g1) as (g' & -> & Hd & Hdom & Hpr & Hm & Hf & Hc & Ht);
      [|done|].
    { rewrite Forall_forall in Hall |- *. intros p' Hp'.
      rewrite isPrimitiveEntry_entry, Hentry, decide_False.
      - rewrite <- isPrimitiveEntry_entry. by apply Hall.
      - intros Heq. apply Hnew. rewrite <- Heq.
        change (pair_id p', pair_key p') with (pair_of p').
        by apply list_elem_of_fmap_2. }
    exists g'. split; [done|]. split; [|split].
    + intros id k. rewrite Hd, Hentry.
      destruct (decide ((id, k) ∈ map pair_of rest)) as [Hin|Hnin].
      * by rewrite decide_True by (by right).
      * destruct (decide ((id, k) = pair_of p)) as [Heq|Hne].
        -- rewrite decide_True; [done|]. rewrite Heq. by left.
        -- rewrite decide_False; [done|]. rewrite elem_of_cons. tauto.
    + rewrite Hdom. simpl. apply dom_alter_L.
    + by rewrite Hpr, Hm, Hf, Hc, Ht.
Qed.

Lemma removePrimitives_removes_witness :
  ∃ g', removePrimitives true [root_a] diamond_graph = (g', None)
    ∧ (∀ id k, (data g' !! id) ≫= (.!! k)
               = if decide ((id, k) ∈ map pair_of [root_a]) then None
                 else (data diamond_graph !! id) ≫= (.!! k))
    ∧ dom (data g') = dom (data diamond_graph)
    ∧ protos g' = protos diamond_graph ∧ metadata g' = metadata diamond_graph
    ∧ functions g' = functions diamond_graph
    ∧ keysCache g' = keysCache diamond_graph
    ∧ trace g' = trace diamond_graph.
Proof.
  apply (removePrimitives_removes true [root_a] diamond_graph).
  - apply Forall_singleton. vm_compute. reflexivity.
  - apply NoDup_singleton.
Defined.

(** ** Clones *)

Lemma lookup_while_stores (g g' : ObjectGraph) (fuel : nat) (name : string)
  (id : N) :
  data g = data g' → protos g = protos g' →
  lookup_while fuel g name id = lookup_while fuel g' name id.
Proof.
  intros Hd Hp. revert id. induction fuel as [|fuel IH]; intros id; simpl;
    [done|].
  unfold getPrototype. rewrite Hd, Hp.
  destruct (isType id); [done|]. destruct (data g' !! id) as [m|]; [|done].
  destruct (m !! name) as [v|]; [destruct (truthy v); [done | apply IH]|].
  destruct (isInherited name); [done | apply IH].
Qed.

Lemma lookup__stores (g g' : ObjectGraph) (fuel : nat) (path : list string)
  (id : ident) :
  data g = data g' → protos g = protos g' →
  lookup_ fuel g path id = lookup_ fuel g' path id.
Proof.
  intros Hd Hp. revert id.
  induction path as [|name path IH]; intros [id|id]; simpl; [done | done | |].
  - destruct (String.eqb name "__proto__").
    + destruct (isType id); [done|]. unfold getPrototype. rewrite Hp. apply IH.
    + rewrite (lookup_while_stores g g' fuel name id Hd Hp).
      destruct (lookup_while fuel g' name id) as [[v|] | e |]; simpl; try done.
  - destruct (String.eqb name "__proto__"); [apply IH | done].
Qed.

(** X13: a clone holds the stores of the graph without the removed
    identities, and shares its keys cache, but has no root: [lookup_]
    from a given identity resolves as on the graph after the removal,
    whereas [getKeys] reconstructs no key for any identity that the
    cache does not hold.  [clone] removes nothing. *)
Theorem cloneWithout_stores (now : N) (ua : string) (withoutIds : list N)
  (g : ObjectGraph) :
  data (cloneWithout now ua withoutIds g) = data (removeIds withoutIds g)
  ∧ protos (cloneWithout now ua withoutIds g) = protos (removeIds withoutIds g)
  ∧ metadata (cloneWithout now ua withoutIds g)
    = metadata (removeIds withoutIds g)
  ∧ functions (cloneWithout now ua withoutIds g)
    = functions (removeIds withoutIds g)
  ∧ keysCache (cloneWithout now ua withoutIds g) = keysCache g
  ∧ root (cloneWithout now ua withoutIds g) = VUndefined
  ∧ busy (cloneWithout now ua withoutIds g) = false
  ∧ q (cloneWithout now ua withoutIds g) = []
  ∧ (∀ fuel path id,
       lookup_ fuel (cloneWithout now ua withoutIds g) path id
       = lookup_ fuel (removeIds withoutIds g) path id)
  ∧ (∀ id ks c, keysCache g !! id = None →
       getKeys (cloneWithout now ua withoutIds g) id = Ret (ks, c) → ks = [])
  ∧ data (clone now ua g) = data g ∧ protos (clone now ua g) = protos g
  ∧ metadata (clone now ua g) = metadata g
  ∧ functions (clone now ua g) = functions g.
Proof.
  assert (Hfields : ∀ ids,
    data (cloneWithout now ua ids g) = data (removeIds ids g)
    ∧ protos (cloneWithout now ua ids g) = protos (removeIds ids g)
    ∧ metadata (cloneWithout now ua ids g) = metadata (removeIds ids g)
    ∧ functions (cloneWithout now ua ids g) = functions (removeIds ids g)
    ∧ keysCache (cloneWithout now ua ids g) = keysCache g
    ∧ root (cloneWithout now ua ids g) = VUndefined
    ∧ busy (cloneWithout now ua ids g) = false
    ∧ q (cloneWithout now ua ids g) = []).
  { intros ids. unfold cloneWithout. by rewrite !removeIds_fields. }
  destruct (Hfields withoutIds) as (Hd & Hp & Hm & Hf & Hc & Hr & Hb & Hq).
  repeat (split; [done|]).
  split; [intros fuel path id; by apply lookup__stores|].
  split.
  - intros id ks c Hmiss. unfold getKeys. rewrite Hc, Hmiss.
    destruct (getKeys_ _ _ id ∅) as [r | e |] eqn:Hr'; simpl; try discriminate.
    intros [= <- _].
    destruct (getKeys__single _ _ id ∅ r (not_elem_of_empty id) Hr')
      as (_ & Hlen & Hroot & _).
    destruct r.1 as [|k ks'] eqn:Hks; [done|].
    destruct Hroot as (rt & Hrt & _); [done|]. congruence.
  - unfold clone. destruct (Hfields []) as (-> & -> & -> & -> & _).
    by rewrite removeIds_nil.
Qed.

(** ** All keys *)

(** What [getKeys] returns on a graph that has the stores of [g]. *)
Lemma getKeys_same_stores (g g0 : ObjectGraph) (id : N) :
  cache_ok g → cache_ok g0 → same_stores g0 g →
  ∃ ks g1 g2, getKeys g0 id = Ret (ks, g1) ∧ getKeys g id = Ret (ks, g2)
              ∧ cache_ok g1 ∧ same_stores g1 g.
Proof.
  intros Hg Hg0 Hsame.
  destruct (getKeys_computes g0 id Hg0) as (r0 & g1 & Hk0 & Hr0 & _).
  destruct (getKeys_computes g id Hg) as (r & g2 & Hk & Hr & _).
  rewrite (getKeys_fuel_ext g0 g Hsame), (getKeys__ext g0 g _ _ _ Hsame) in Hr0.
  assert (r0 = r) as -> by congruence.
  exists r.1, g1, g2. split; [done|]. split; [done|].
  destruct (getKeys_cache_ok g0 g1 id r.1 Hg0 Hk0) as [Hc (?&?&?&?&?)].
  destruct Hsame as (?&?&?&?&?). split; [done|]. repeat split; congruence.
Qed.

Lemma getAllKeys_loop_spec (g : ObjectGraph) :
  cache_ok g →
  ∀ ids map g0, cache_ok g0 → same_stores g0 g →
    ∃ m g', getAllKeys_loop ids map g0 = Ret (m, g')
      ∧ cache_ok g' ∧ same_stores g' g
      ∧ (∀ id, id ∈ ids → ∃ ks g1, getKeys g id = Ret (ks, g1)
                                    ∧ m !! id = Some ks)
      ∧ (∀ id, id ∉ ids → m !! id = map !! id).
Proof.
  intros Hg. induction ids as [|i ids IH]; intros map g0 Hg0 Hsame.
  - exists map, g0. split; [done|]. split; [done|]. split; [done|].
    split; [by intros id ?%elem_of_nil | done].
  - destruct (getKeys_same_stores g g0 i Hg Hg0 Hsame)
      as (ks & g1 & g2 & Hk0 & Hk & Hc1 & Hs1).
    cbn [getAllKeys_loop]. rewrite Hk0. cbn [res_bind fst snd].
    destruct (IH (<[i:=ks]> map) g1 Hc1 Hs1) as (m & g' & -> & Hc & Hs & Hin & Hout).
    exists m, g'. split; [done|]. split; [done|]. split; [done|]. split.
    + intros id. destruct (decide (id ∈ ids)) as [Hid|Hid]; [auto|].
      intros [->|?]%elem_of_cons; [|done].
      exists ks, g2. split; [done|]. by rewrite (Hout i Hid), lookup_insert_eq.
    + intros id Hid. rewrite elem_of_cons in Hid.
      rewrite Hout by tauto. rewrite lookup_insert_ne; [done|]. naive_solver.
Qed.

(** X14: on a graph whose keys cache is right, [getAllKeys_] returns a
    map that has an entry for exactly the identities of [getAllIds_],
    each holding what [getKeys] returns for the identity; the stores are
    as before and the cache is still right. *)
Theorem getAllKeys__maps (g : ObjectGraph) :
  cache_ok g →
  ∃ m g', getAllKeys_ g = Ret (m, g')
    ∧ (∀ id ks, m !! id = Some ks
                ↔ id ∈ getAllIds_ g ∧ ∃ g1, getKeys g id = Ret (ks, g1))
    ∧ cache_ok g' ∧ same_stores g' g.
Proof.
  intros Hg.
  destruct (getAllKeys_loop_spec g Hg (getAllIds_ g) ∅ g Hg)
    as (m & g' & Hm & Hc & Hs & Hin & Hout); [by repeat split|].
  exists m, g'. split; [done|]. split; [|done].
  intros id ks. destruct (decide (id ∈ getAllIds_ g)) as [Hid|Hid].
  - destruct (Hin id Hid) as (ks' & g1 & Hk & Hmid). rewrite Hmid. split.
    + intros [= <-]. eauto.
    + intros (_ & g1' & Hk'). congruence.
  - rewrite (Hout id Hid), lookup_empty. split; [done | tauto].
Qed.

Lemma getAllKeys__maps_witness :
  ∃ m g', getAllKeys_ diamond_graph = Ret (m, g')
    ∧ (∀ id ks, m !! id = Some ks
                ↔ id ∈ getAllIds_ diamond_graph
                  ∧ ∃ g1, getKeys diamond_graph id = Ret (ks, g1))
    ∧ cache_ok g' ∧ same_stores g' diamond_graph.
Proof.
  apply (getAllKeys__maps diamond_graph).
  apply cache_ok_empty. vm_compute. reflexivity.
Defined.

Lemma foldl_union_elem (ks : list string) (map : gset string) (k : string) :
  k ∈ foldl (λ map key, {[key]} ∪ map) map ks ↔ k ∈ ks ∨ k ∈ map.
Proof.
  revert map. induction ks as [|x ks IH]; intros map; simpl.
  - rewrite elem_of_nil. tauto.
  - rewrite IH, elem_of_cons. set_solver.
Qed.

Lemma getAllKeysMap_loop_spec (g : ObjectGraph) :
  cache_ok g →
  ∀ ids map g0, cache_ok g0 → same_stores g0 g →
    ∃ s g', getAllKeysMap_loop ids map g0 = Ret (s, g')
      ∧ cache_ok g' ∧ same_stores g' g
      ∧ ∀ k, k ∈ s ↔ k ∈ map
                     ∨ ∃ id ks g1, id ∈ ids ∧ getKeys g id = Ret (ks, g1)
                                   ∧ k ∈ ks.
Proof.
  intros Hg. induction ids as [|i ids IH]; intros map g0 Hg0 Hsame.
  - exists map, g0. split; [done|]. split; [done|]. split; [done|].
    intros k. split; [by left|]. intros [?|(id & ks & g1 & []%elem_of_nil & _)].
    done.
  - destruct (getKeys_same_stores g g0 i Hg Hg0 Hsame)
      as (ks & g1 & g2 & Hk0 & Hk & Hc1 & Hs1).
    cbn [getAllKeysMap_loop]. rewrite Hk0. cbn [res_bind fst snd].
    destruct (IH (foldl (λ map key, {[key]} ∪ map) map ks) g1 Hc1 Hs1)
      as (s & g' & -> & Hc & Hs & Hin).
    exists s, g'. split; [done|]. split; [done|]. split; [done|].
    intros k. rewrite Hin, foldl_union_elem. split.
    + intros [[Hks | Hmap] | (id & ks' & g1' & Hid & Hk' & Hkin)].
      * right. exists i, ks, g2. split; [by left | done].
      * by left.
      * right. exists id, ks', g1'. split; [by right | done].
    + intros [Hmap | (id & ks' & g1' & Hid & Hk' & Hkin)]; [left; by right|].
      apply elem_of_cons in Hid as [->|Hid].
      * left. left. congruence.
      * right. by exists id, ks', g1'.
Qed.

(** X15: on a graph whose keys cache is right, [getAllKeysMap_] returns
    the set of the keys that [getKeys] returns for the identities of
    [getAllIds_], at most one for each. *)
Theorem getAllKeysMap__keys (g : ObjectGraph) :
  cache_ok g →
  ∃ s g', getAllKeysMap_ g = Ret (s, g')
    ∧ (∀ k, k ∈ s ↔ ∃ id ks g1, id ∈ getAllIds_ g
                                ∧ getKeys g id = Ret (ks, g1) ∧ k ∈ ks)
    ∧ (∀ id ks g1, getKeys g id = Ret (ks, g1) → length ks ≤ 1)
    ∧ cache_ok g' ∧ same_stores g' g.
Proof.
  intros Hg.
  destruct (getAllKeysMap_loop_spec g Hg (getAllIds_ g) ∅ g Hg)
    as (s & g' & Hs & Hc & Hsame & Hin); [by repeat split|].
  exists s, g'. split; [done|]. split; [|split; [|done]].
  - intros k. rewrite Hin. set_solver.
  - intros id ks g1 Hk.
    destruct (getKeys_computes g id Hg) as (r & g2 & Hk' & _ & Hlen).
    congruence.
Qed.

Lemma getAllKeysMap__keys_witness :
  ∃ s g', getAllKeysMap_ diamond_graph = Ret (s, g')
    ∧ (∀ k, k ∈ s ↔ ∃ id ks g1, id ∈ getAllIds_ diamond_graph
                                ∧ getKeys diamond_graph id = Ret (ks, g1)
                                ∧ k ∈ ks)
    ∧ (∀ id ks g1, getKeys diamond_graph id = Ret (ks, g1) → length ks ≤ 1)
    ∧ cache_ok g' ∧ same_stores g' diamond_graph.
Proof.
  apply (getAllKeysMap__keys diamond_graph).
  apply cache_ok_empty. vm_compute. reflexivity.
Defined.

(** ** Hidden names of style declarations *)

Section BrowserNames.

Variable toUpperCase : string → string.
Variable get : string → access.

Import BrowserObjectGraph.

Lemma probe_cases (propNames new : list string) (p : string) :
  (probe toUpperCase get propNames new p = new
   ∧ (String.prefix "webkit" p = true ∨ (webkitName toUpperCase p ∈ propNames)
      ∨ (webkitName toUpperCase p ∈ new)
      ∨ get (webkitName toUpperCase p) = Reads VUndefined))
  ∨ (probe toUpperCase get propNames new p = new ++ [webkitName toUpperCase p]
     ∧ String.prefix "webkit" p = false
     ∧ (webkitName toUpperCase p ∉ propNames)
     ∧ (webkitName toUpperCase p ∉ new)
     ∧ get (webkitName toUpperCase p) ≠ Reads VUndefined).
Proof.
  unfold probe.
  destruct (String.prefix "webkit" p); [left; auto|].
  case_bool_decide; [left; auto|]. case_bool_decide; [left; auto|].
  destruct (get (webkitName toUpperCase p)) as [[]|] eqn:Hget;
    try (right; repeat split; try done; congruence).
  left. auto.
Qed.

Lemma probe_loop (propNames : list string) (ps new : list string) :
  (∀ p, p ∈ ps → p ∈ propNames) →
  NoDup new → Forall (hidden toUpperCase get propNames) new →
  let r := foldl (probe toUpperCase get propNames) new ps in
  NoDup r ∧ Forall (hidden toUpperCase get propNames) r
  ∧ (∀ w, w ∈ new → w ∈ r)
  ∧ (∀ p, p ∈ ps → String.prefix "webkit" p = false →
          webkitName toUpperCase p ∉ propNames →
          get (webkitName toUpperCase p) ≠ Reads VUndefined → webkitName toUpperCase p ∈ r).
Proof.
  revert new. induction ps as [|p ps IH]; intros new Hsub Hnd Hall; simpl.
  - split; [done|]. split; [done|]. split; [done|].
    by intros p ?%elem_of_nil.
  - assert (Hsub' : ∀ p', p' ∈ ps → p' ∈ propNames).
    { intros p' Hp'. apply Hsub. by right. }
    destruct (probe_cases propNames new p)
      as [(-> & Hwhy) | (-> & Hpre & Hnp & Hnn & Hget)].
    + destruct (IH new Hsub' Hnd Hall) as (Hnd' & Hall' & Hkeep & Hadd).
      split; [done|]. split; [done|]. split; [done|].
      intros p' [->|Hp']%elem_of_cons Hpre Hnp Hget; [|by apply Hadd].
      destruct Hwhy as [?|[?|[?|?]]]; try congruence; try done.
      by apply Hkeep.
    + destruct (IH (new ++ [webkitName toUpperCase p]) Hsub') as (Hnd' & Hall' & Hkeep & Hadd).
      * apply NoDup_app. split; [done|]. split; [|apply NoDup_singleton].
        intros w Hw ->%list_elem_of_singleton. done.
      * apply Forall_app. split; [done|]. apply Forall_singleton.
        split; [done|]. split; [done|]. exists p. split; [|done].
        apply Hsub. by left.
      * split; [done|]. split; [done|]. split.
        -- intros w Hw. apply Hkeep. rewrite elem_of_app. by left.
        -- intros p' [->|Hp']%elem_of_cons Hpre' Hnp' Hget'; [|by apply Hadd].
           apply Hkeep. rewrite elem_of_app. right. by left.
Qed.

(** X16: for a style declaration, [getOwnPropertyNames] returns the own
    names as they are, followed by hidden names, each once: a hidden
    name is the webkit-prefixed form of an own name that does not start
    with 'webkit', is no own name, and reads as a value other than
    undefined or throws; and every such name is returned.  So no name
    is returned twice when no own name is. *)
Theorem css_getOwnPropertyNames_hidden (propNames : list string) :
  ∃ added,
    BrowserObjectGraph.getOwnPropertyNames toUpperCase get propNames
    = propNames ++ added
    ∧ NoDup added
    ∧ (∀ w, w ∈ added ↔ hidden toUpperCase get propNames w)
    ∧ (NoDup propNames →
       NoDup (BrowserObjectGraph.getOwnPropertyNames toUpperCase get propNames)).
Proof.
  unfold BrowserObjectGraph.getOwnPropertyNames.
  destruct (probe_loop propNames propNames [])
    as (Hnd & Hall & _ & Hadd); [done | constructor | constructor|].
  cbv zeta in Hnd, Hall, Hadd.
  exists (foldl (probe toUpperCase get propNames) [] propNames).
  split; [done|]. split; [done|]. split.
  - intros w. split.
    + rewrite Forall_forall in Hall. apply Hall.
    + intros (Hnp & Hget & p & Hp & Hpre & ->). by apply Hadd.
  - intros Hnp. apply NoDup_app. split; [done|]. split; [|done].
    intros w Hw Hw'. rewrite Forall_forall in Hall.
    by destruct (Hall w Hw').
Qed.

End BrowserNames.

(** ** Keys of a captured graph *)

Section CapturedKeys.

Variable h : heap.
Variable objs : list addr.
Hypothesis Hok : heap_ok h objs = true.
Variable rewriteName : string → string.

Variable a : addr.
Variable opts : captureOpts.
Variable g0 : ObjectGraph.
Hypothesis Hidle : idle g0.
Hypothesis Htimers : timers g0 = 0.
Hypothesis Ha : a ∈ objs.
Hypothesis Hbl : VObj a ∉ blacklistedObjects g0.

(** X17: the keys of a captured graph lead back to the identity: after
    the capture of an object that is no function, with "__proto__" a
    blacklisted key, [getKeys] returns for every identity at most one
    key, made of the key of the root and of segments that [lookup_]
    resolves from the root to that identity. *)
Theorem capture_keys_resolve (g : ObjectGraph) (id : N) :
  callable (h a) = false → isKeyBlacklisted g0 "__proto__" = true →
  capturing rewriteName h g0 (VObj a) opts g →
  ∃ ks g', getKeys g id = Ret (ks, g') ∧ length ks ≤ 1
    ∧ ∀ p, p ∈ ks →
        ∃ segs, p = path_of (rootKey opts) segs
                ∧ ∀ f, lookup_ (S f) g segs (Num (UID (h a)))
                       = Ret (Some (Num id)).
Proof.
  intros Hfn Hproto Hg.
  destruct (capturing_well_formed h objs Hok rewriteName a opts g0 g
              Hidle Htimers Ha Hbl Hfn Hproto Hg) as (Hwf & Hc & Hroot & Hkey).
  destruct (getKeys_computes g id Hc) as (r & g' & Hk & Hr & Hlen).
  exists r.1, g'. split; [done|]. split; [done|]. intros p Hp.
  destruct (getKeys__sound g (UID (h a)) _ id ∅ r Hwf Hroot Hr p Hp)
    as (segs & -> & _ & Hres).
  exists segs. by rewrite Hkey.
Qed.

(** X18: the capture of a function leaves a graph without keys: the
    root is then the function itself and no identity, so that [getKeys]
    returns no key for any identity. *)
Theorem capture_function_no_keys (g : ObjectGraph) (id : N) :
  callable (h a) = true →
  capturing rewriteName h g0 (VObj a) opts g →
  root g = VObj a ∧ getKeys g id = Ret ([], with_keysCache (insert id []) g).
Proof.
  intros Hfn Hg.
  assert (Hlive : live_value objs (VObj a) = true)
    by (by apply bool_decide_eq_true).
  destruct (capturing_query h objs Hok rewriteName _ opts g0 g
              Hidle Htimers Hlive Hbl Hg) as (Hroot & _ & Hcache).
  simpl in Hroot. rewrite Hfn in Hroot. split; [done|].
  unfold getKeys. rewrite Hcache, lookup_empty.
  destruct (getKeys_computes g id (cache_ok_empty g Hcache))
    as (r & g' & _ & Hr & _).
  rewrite Hr. cbn [res_bind].
  destruct (getKeys__single g _ id ∅ r (not_elem_of_empty id) Hr)
    as (_ & _ & Hseen & _).
  destruct r.1 as [|k ks]; [done|].
  destruct Hseen as (rt & Hrt & _); [done|]. congruence.
Qed.

End CapturedKeys.

Lemma capture_keys_resolve_witness :
  ∃ ks g', getKeys diamond_graph 104 = Ret (ks, g') ∧ length ks ≤ 1
    ∧ ∀ p, p ∈ ks →
        ∃ segs, p = path_of (rootKey no_opts) segs
                ∧ ∀ f, lookup_ (S f) diamond_graph segs
                         (Num (UID (diamond 0)))
                       = Ret (Some (Num 104)).
Proof.
  apply (capture_keys_resolve diamond [0; 1; 2; 3; 4; 5; 6] diamond_heap_ok id
           0 no_opts fresh_graph fresh_graph_idle eq_refl).
  - apply (proj1 (bool_decide_eq_true _)). vm_compute. reflexivity.
  - exact diamond_root_visited.
  - reflexivity.
  - vm_compute. reflexivity.
  - exact diamond_captured.
Defined.

Lemma capture_function_no_keys_witness :
  root function_graph = VObj 0
  ∧ getKeys function_graph 201
    = Ret ([], with_keysCache (insert 201%N []) function_graph).
Proof.
  apply (capture_function_no_keys function_heap [0; 1] eq_refl id 0 no_opts
           fresh_graph fresh_graph_idle eq_refl).
  - apply (proj1 (bool_decide_eq_true _)). vm_compute. reflexivity.
  - vm_compute. intros H. inversion H as [|? ? ? H']; subst. inversion H'.
  - reflexivity.
  - apply (capturing_call id function_heap fresh_graph (VObj 0) no_opts 8).
    vm_compute. reflexivity.
Defined.

(** ** A capture that was requested while the graph was busy *)

Lemma call_never_throws (rewriteName : string → string) (h : heap)
  (cb : callback) :
  no_recapture cb = true →
  ∀ fuel g e, call rewriteName h fuel cb g ≠ Thrown e.
Proof.
  induction cb as [|c|prev IH user|prev IH o opts]; intros Hcb fuel g e;
    simpl in Hcb; try discriminate;
    (destruct fuel as [|fuel]; [done|]); rewrite call_eq; try done.
  specialize (IH Hcb fuel (stamp g)).
  destruct (call rewriteName h fuel prev (stamp g)) as [g1 | e' |]; simpl;
    [done | by destruct (IH e') | done].
Qed.

(** The visit of a value that is no object changes nothing. *)
Lemma visitObject_primitive (h : heap) (g : ObjectGraph) (o : value) :
  (∀ a, o ≠ VObj a) → (visitObject h o g).2 = g.
Proof.
  intros Ho. destruct (maybeSkip_primitive h g o Ho) as (t & Ht & _).
  unfold visitObject. by rewrite Ht.
Qed.

Section Recapture.

Variable rewriteName : string → string.
Variable h : heap.
Variable o : value.
Variable opts : captureOpts.

Lemma recaptures_call (bl : list value) :
  o ∈ bl ∨ (∀ a, o ≠ VObj a) →
  ∀ fuel cb g,
    recaptures o opts cb → recaptures o opts (onDone g) → q g = [] →
    blacklistedObjects g = bl →
    call rewriteName h fuel cb g = OutOfFuel.
Proof.
  intros Ho fuel. induction fuel as [fuel IH] using lt_wf_ind.
  intros cb g Hcb HonDone Hq Hbl. destruct fuel as [|fuel]; [done|].
  rewrite call_eq. destruct Hcb as [prev user Hprev | cb user Hcb].
  - pose proof (call_never_throws rewriteName h (CbCaptureDone prev user)
                  Hprev fuel g) as Hthrow.
    destruct (call rewriteName h fuel (CbCaptureDone prev user) g)
      as [g1 | e |] eqn:Hcall; [|by destruct (Hthrow e) | done].
    cbn [res_bind].
    destruct (call_same rewriteName h (CbCaptureDone prev user) Hprev _ _ _ Hcall)
      as ((_&_&_&_&_&_&Hq1&_&HonDone1&_&Hbl1&_) & _ & _ & Hbusy).
    destruct fuel as [|fuel]; [reflexivity|]. rewrite capture_eq, Hbusy. cbv zeta.
    set (g2 := with_onDone (CbCaptureDone (onDone g1) (optOnDone opts))
                 (log EvCapture (reset (rootKey opts) (rootOf h o) g1))).
    assert (Hflush : flush rewriteName h fuel g2 = OutOfFuel).
    { destruct fuel as [|fuel]; [reflexivity|]. rewrite flush_eq. cbv zeta.
      rewrite dequeue_empty by (simpl; congruence). simpl q. rewrite Hq1, Hq.
      simpl onDone. apply IH; [lia| | |simpl; congruence|simpl; congruence].
      - apply recaptures_done. by rewrite HonDone1.
      - simpl. apply recaptures_done. by rewrite HonDone1. }
    case_bool_decide as Hin; [done|].
    destruct Ho as [Ho | Ho]; [destruct Hin; simpl; congruence|].
    by rewrite visitObject_primitive.
  - rewrite (IH fuel ltac:(lia) cb (stamp g)); done.
Qed.

(** X19: a capture that is requested while the graph is busy never
    completes when its object is blacklisted or is no object: the call
    returns at once and puts the capture behind the completion callback,
    and the flush that then empties the queue does not return, since
    each capture that the callback starts completes in the same call
    and calls the callback again. *)
Theorem recapture_never_ends (g : ObjectGraph) (prev : callback)
  (user : option nat) :
  busy g = true → onDone g = CbCaptureDone prev user →
  no_recapture prev = true →
  o ∈ blacklistedObjects g ∨ (∀ a, o ≠ VObj a) →
  (∀ fuel, capture rewriteName h (S fuel) o opts g
           = Ret (with_onDone (CbRecapture (onDone g) o opts) g))
  ∧ ∀ g' fuel,
      onDone g' = CbRecapture (onDone g) o opts →
      blacklistedObjects g' = blacklistedObjects g →
      q (dequeue rewriteName h (maxDequeueSize g') (log EvTick g')) = [] →
      flush rewriteName h fuel g' = OutOfFuel.
Proof.
  intros Hbusy HonDone Hprev Ho. split.
  - intros fuel. by rewrite capture_eq, Hbusy.
  - intros g' fuel HonDone' Hbl Hq. destruct fuel as [|fuel]; [done|].
    rewrite flush_eq. cbv zeta. simpl maxDequeueSize. rewrite Hq.
    pose proof (dequeue_frame rewriteName h (maxDequeueSize g') (log EvTick g'))
      as (_ & _ & _ & _ & HonDone2 & _ & Hbl2).
    simpl in HonDone2, Hbl2.
    assert (Hrec : recaptures o opts
              (onDone (dequeue rewriteName h (maxDequeueSize g')
                         (log EvTick g')))).
    { rewrite HonDone2, HonDone', HonDone. by apply recaptures_queued. }
    apply (recaptures_call (blacklistedObjects g) Ho); try done.
    congruence.
Qed.

End Recapture.

(** The capture of the blacklisted object 5 that is requested while the
    capture of the diamond is in flight: the flush that the host then
    runs does not return. *)
Lemma recapture_never_ends_witness :
  timeout id diamond 100
    (with_onDone (CbRecapture (onDone diamond_started) (VObj 5) with_callback)
       diamond_started)
  = OutOfFuel.
Proof.
  destruct (recapture_never_ends id diamond (VObj 5) with_callback
              diamond_started CbNoop None) as [_ Hflush].
  - vm_compute. reflexivity.
  - vm_compute. reflexivity.
  - reflexivity.
  - left. vm_compute. apply list_elem_of_here.
  - unfold timeout.
    replace (timers (with_onDone
                       (CbRecapture (onDone diamond_started) (VObj 5)
                          with_callback) diamond_started))
      with 1 by (vm_compute; reflexivity).
    apply Hflush; vm_compute; reflexivity.
Defined.

(** *** Lookups on a captured graph *)

Lemma lookup_while_eq (fuel : nat) (g : ObjectGraph) (name : string) (id : N) :
  lookup_while (S fuel) g name id
  = if isType id then Ret None
    else match data g !! id with
         | None => Thrown TypeError
         | Some m =>
             match m !! name with
             | Some nextId =>
                 if truthy nextId then Ret (Some (Num nextId))
                 else lookup_while fuel g name (getPrototype g id)
             | None =>
                 if isInherited name then Ret (Some (Method name))
                 else lookup_while fuel g name (getPrototype g id)
             end
         end.
Proof. reflexivity. Qed.

(** More fuel does not change what a lookup returns. *)
Lemma lookup_while_mono (g : ObjectGraph) (name : string) (fuel : nat) :
  ∀ id r, lookup_while fuel g name id = Ret r →
          lookup_while (S fuel) g name id = Ret r.
Proof.
  induction fuel as [|fuel IH]; intros id r; [done|].
  rewrite (lookup_while_eq (S fuel)), (lookup_while_eq fuel).
  destruct (isType id); [done|]. destruct (data g !! id) as [m|]; [|done].
  destruct (m !! name) as [v|]; [destruct (truthy v); [done | apply IH]|].
  destruct (isInherited name); [done | apply IH].
Qed.

Lemma lookup__mono (g : ObjectGraph) (fuel : nat) (path : list string) :
  ∀ id r, lookup_ fuel g path id = Ret r → lookup_ (S fuel) g path id = Ret r.
Proof.
  induction path as [|name path IH]; intros [id|id] r; cbn [lookup_];
    [done | done | |].
  - destruct (String.eqb name "__proto__").
    + destruct (isType id); [done | apply IH].
    + destruct (lookup_while fuel g name id) as [[next|] | e |] eqn:Hw;
        cbn [res_bind]; try done;
        rewrite (lookup_while_mono g name fuel id _ Hw); cbn [res_bind];
        [apply IH | done].
  - destruct (String.eqb name "__proto__"); [apply IH | done].
Qed.

Lemma lookup__mono_le (g : ObjectGraph) (path : list string) (id : ident)
  (r : option ident) (fuel fuel' : nat) :
  fuel ≤ fuel' → lookup_ fuel g path id = Ret r →
  lookup_ fuel' g path id = Ret r.
Proof.
  induction 1 as [|fuel' _ IH]; [done|]. intros Hl. by apply lookup__mono, IH.
Qed.

Section Lookup.

Variable h : heap.
Variable objs : list addr.
Hypothesis Hok : heap_ok h objs = true.
Variable rewriteName : string → string.

Variable o : value.
Variable opts : captureOpts.
Variable g0 : ObjectGraph.
Hypothesis Hidle : idle g0.
Hypothesis Htimers : timers g0 = 0.
Hypothesis Hlive : live_value objs o = true.
Hypothesis Hbl : o ∉ blacklistedObjects g0.

(** X5: once a capture is done, [lookup] from a stored object follows
    the heap: where the visited names of each object are rewritten to
    distinct names that have no dot and are not "__proto__", a path by
    properties (own ones, or, for a segment that is not a name of a
    method of Object.prototype, those of the nearest object on the
    delegation chain that has one of the name) and delegation links
    resolves to the identity of the object that it leads to in the heap,
    or to the sentinel of the value that ends it. *)
Theorem capture_lookup_follows_heap (g : ObjectGraph) (a : addr)
  (segs : list string) (id : N) :
  (∀ b n1 n2, b ∈ objs → n1 ∈ visitedNames h g0 b →
              n2 ∈ visitedNames h g0 b →
              rewriteName n1 = rewriteName n2 → n1 = n2) →
  (∀ b name, b ∈ objs → name ∈ visitedNames h g0 b →
             rewriteName name ≠ "__proto__"
             ∧ dot_free (rewriteName name) = true) →
  capturing rewriteName h g0 o opts g → busy g = false →
  a ∈ objs → stored h g a →
  heap_path rewriteName h g0 a segs id →
  ∃ n, (∀ fuel, n ≤ fuel →
          lookup_ fuel g segs (Num (UID (h a))) = Ret (Some (Num id)))
       ∧ (segs ≠ [] →
          ∀ fuel, n ≤ fuel →
            lookup fuel g (relative segs) (Some (UID (h a)))
            = Ret (Some (Num id))).
Proof.
  intros Hdistinct Hnames Hg Hb Ha Hst Hpath.
  pose proof (capturing_run_ok h objs Hok rewriteName o opts g0 g
                Hidle Htimers Hlive Hbl Hg) as (Hinv & _ & Hk & Ho & _ & _ & Hs).
  pose proof (capturing_record h objs Hok rewriteName o opts g0 g
                Hidle Htimers Hlive Hbl Hg) as Hrec.
  rewrite Hb in Hs. destruct Hs as [_ Hq].
  assert (Hvn : ∀ b, visitedNames h g b = visitedNames h g0 b).
  { intros b. by apply visitedNames_blacklists. }
  assert (Huid : ∀ b, b ∈ objs → truthy (UID (h b)) = true
                               ∧ isType (UID (h b)) = false).
  { intros b Hb'. destruct (heap_ok_object h objs Hok b Hb') as (Hid & _).
    split; [by apply identity_truthy | by apply identity_not_type]. }
  assert (Hprop : ∀ b name, b ∈ objs → stored h g b →
            name ∈ visitedNames h g0 b →
            ∀ fuel, lookup_while (S fuel) g (rewriteName name) (UID (h b))
                    = Ret (Some (Num (id_of_access h (getProperty h b name))))).
  { intros b name Hb' [m Hm] Hname fuel. simpl.
    destruct (Huid b Hb') as [_ ->]. rewrite Hm.
    rewrite <- Hvn in Hname.
    destruct (rec_property _ _ _ _ _ Hrec b name Hb' (ex_intro _ m Hm) Hname)
      as [Hin | (name' & Hn' & Heq & Hp)].
    { rewrite Hq in Hin. by apply elem_of_nil in Hin. }
    rewrite Hvn in Hname, Hn'.
    assert (name' = name) as -> by (by apply (Hdistinct b)).
    rewrite Hm in Hp. simpl in Hp. rewrite Hp.
    by rewrite truthy_ne0 by (by eapply id_of_access_nonzero). }
  assert (Hproto : ∀ b, b ∈ objs → stored h g b →
            getPrototype g (UID (h b)) = id_of h (proto (h b))
            ∧ truthy (id_of h (proto (h b))) = true).
  { intros b Hb' Hsb.
    destruct (rec_proto _ _ _ _ _ Hrec b Hb' Hsb) as [Hin | Hp].
    { rewrite Hq in Hin. by apply elem_of_nil in Hin. }
    destruct (heap_ok_object h objs Hok b Hb') as (_ & Hlp & _).
    assert (truthy (id_of h (proto (h b))) = true) as Ht
      by (apply truthy_ne0; by eapply id_of_nonzero).
    split; [|done]. unfold getPrototype. by rewrite Hp, Ht. }
  assert (Hnext : ∀ b c, b ∈ objs → stored h g b →
            (proto (h b) = VObj c → c ∈ objs ∧ stored h g c)
            ∧ (∀ name, name ∈ visitedNames h g0 b →
                 getProperty h b name = Reads (VObj c) →
                 c ∈ objs ∧ stored h g c)).
  { intros b c Hb' Hsb.
    destruct (inv_closed _ _ _ _ Hinv b Hb' Hsb) as [Hp Hn]. split.
    - intros Hpc.
      destruct (heap_ok_object h objs Hok b Hb') as (_ & Hlp & _).
      rewrite Hpc in Hlp. simpl in Hlp. apply bool_decide_eq_true in Hlp.
      split; [done|]. destruct Hp as [Hin | Hv].
      + rewrite Hq in Hin. by apply elem_of_nil in Hin.
      + by rewrite Hpc in Hv.
    - intros name Hname Hget.
      pose proof (getProperty_live h objs Hok b name Hb') as Hlp.
      rewrite Hget in Hlp. simpl in Hlp. apply bool_decide_eq_true in Hlp.
      split; [done|]. rewrite <- Hvn in Hname.
      destruct (Hn name Hname) as [Hin | Hv].
      + rewrite Hq in Hin. by apply elem_of_nil in Hin.
      + by rewrite Hget in Hv. }
  assert (Hlacks : ∀ b seg m, b ∈ objs → data g !! UID (h b) = Some m →
            (∀ name, name ∈ visitedNames h g0 b → rewriteName name ≠ seg) →
            m !! seg = None).
  { intros b seg m Hb' Hm Hno. destruct (m !! seg) as [v|] eqn:Hv; [|done].
    destruct (rec_entries _ _ _ _ _ Hrec _ m seg v Hm Hv)
      as (b' & name & Hb'' & Heq & Hname & -> & _).
    apply (heap_ok_inj h objs Hok) in Heq as ->; [|done..].
    rewrite Hvn in Hname. by destruct (Hno name Hname). }
  assert (Hall : Forall (λ s, dot_free s = true) segs
                 ∧ ∃ n, ∀ fuel, n ≤ fuel →
                     lookup_ fuel g segs (Num (UID (h a)))
                     = Ret (Some (Num id))).
  { induction Hpath as [a|a name Hname _|a name b segs id Hname Hget _ IH
                        |a _|a b segs id Hpb _ IH
                        |a b seg segs id Hno Hseg Hinh Hpb _ IH].
    - split; [done|]. exists 0. intros fuel _. simpl lookup_.
      by destruct (Huid a Ha) as [-> _].
    - destruct (Hnames a name Ha Hname) as [Hne Hdot].
      split; [by repeat constructor|]. exists 1. intros [|fuel] Hfuel; [lia|].
      cbn [lookup_]. rewrite (proj2 (String.eqb_neq _ _) Hne).
      rewrite (Hprop a name Ha Hst Hname fuel). cbn [res_bind].
      by rewrite truthy_ne0 by (by eapply id_of_access_nonzero).
    - destruct (Hnames a name Ha Hname) as [Hne Hdot].
      destruct (Hnext a b Ha Hst) as [_ Hn].
      destruct (Hn name Hname Hget) as [Hb' Hsb].
      destruct (IH Hb' Hsb) as [Hf [n Hl]].
      split; [by constructor|]. exists (S n). intros [|fuel] Hfuel; [lia|].
      cbn [lookup_]. rewrite (proj2 (String.eqb_neq _ _) Hne).
      rewrite (Hprop a name Ha Hst Hname fuel). cbn [res_bind].
      rewrite Hget. apply Hl. lia.
    - split; [by repeat constructor|]. exists 0. intros fuel _.
      cbn [lookup_]. rewrite String.eqb_refl.
      destruct (Huid a Ha) as [_ ->].
      destruct (Hproto a Ha Hst) as [-> ->]. done.
    - destruct (Hnext a b Ha Hst) as [Hp _].
      destruct (Hp Hpb) as [Hb' Hsb]. destruct (IH Hb' Hsb) as [Hf [n Hl]].
      split; [by constructor|]. exists n. intros fuel Hfuel.
      cbn [lookup_]. rewrite String.eqb_refl.
      destruct (Huid a Ha) as [_ ->].
      destruct (Hproto a Ha Hst) as [-> _]. rewrite Hpb. by apply Hl.
    - destruct (Hnext a b Ha Hst) as [Hp _].
      destruct (Hp Hpb) as [Hb' Hsb]. destruct (IH Hb' Hsb) as [Hf [n Hl]].
      split; [done|]. exists (S n). intros [|fuel] Hfuel; [lia|].
      specialize (Hl fuel ltac:(lia)). cbn [lookup_] in Hl |- *.
      rewrite (proj2 (String.eqb_neq _ _) Hseg) in Hl |- *.
      destruct Hst as [m Hm]. rewrite lookup_while_eq.
      destruct (Huid a Ha) as [_ ->]. rewrite Hm.
      rewrite (Hlacks a seg m Ha Hm Hno), Hinh.
      destruct (Hproto a Ha (ex_intro _ m Hm)) as [-> _]. rewrite Hpb.
      cbn [id_of].
      destruct (lookup_while fuel g seg (UID (h b))) as [[next|] | e |];
        cbn [res_bind] in Hl |- *; try done.
      by apply lookup__mono. }
  destruct Hall as [Hfree [n Hl]]. exists n. split; [done|].
  intros Hne fuel Hfuel. unfold lookup. destruct (Huid a Ha) as [-> _].
  destruct segs as [|s segs]; [done|]. simpl relative.
  apply Forall_cons in Hfree as [Hs Hfree].
  rewrite split_dot_path_of by done. by apply Hl.
Qed.

End Lookup.

Lemma diamond_path :
  heap_path id diamond fresh_graph 0 ["l"; "d"; "x"] 4.
Proof.
  apply (path_property id diamond fresh_graph 0 "l" 2).
  { apply (proj1 (bool_decide_eq_true _)). vm_compute. reflexivity. }
  { vm_compute. reflexivity. }
  apply (path_property id diamond fresh_graph 2 "d" 4).
  { apply (proj1 (bool_decide_eq_true _)). vm_compute. reflexivity. }
  { vm_compute. reflexivity. }
  apply (path_inherited id diamond fresh_graph 4 6).
  { assert (H : Forall (λ name, name ≠ "x") (visitedNames diamond fresh_graph 4)).
    { apply (proj1 (bool_decide_eq_true _)). vm_compute. reflexivity. }
    rewrite Forall_forall in H. exact H. }
  { discriminate. }
  { reflexivity. }
  { reflexivity. }
  apply (path_property_end id diamond fresh_graph 6 "x").
  { apply (proj1 (bool_decide_eq_true _)). vm_compute. reflexivity. }
  { intros b. vm_compute. discriminate. }
Qed.

Lemma capture_lookup_follows_heap_witness :
  ∃ n, (∀ fuel, n ≤ fuel →
          lookup_ fuel diamond_graph ["l"; "d"; "x"] (Num (UID (diamond 0)))
          = Ret (Some (Num 4)))
       ∧ (["l"; "d"; "x"] ≠ [] →
          ∀ fuel, n ≤ fuel →
            lookup fuel diamond_graph (relative ["l"; "d"; "x"])
              (Some (UID (diamond 0)))
            = Ret (Some (Num 4))).
Proof.
  apply (capture_lookup_follows_heap diamond [0; 1; 2; 3; 4; 5; 6]
           diamond_heap_ok id (VObj 0) no_opts fresh_graph fresh_graph_idle
           eq_refl diamond_root_live diamond_root_visited diamond_graph 0
           ["l"; "d"; "x"] 4).
  - intros b n1 n2 _ _ _ H. exact H.
  - exact diamond_names_plain.
  - exact diamond_captured.
  - exact diamond_done.
  - apply (proj1 (bool_decide_eq_true _)). vm_compute. reflexivity.
  - vm_compute. eexists. reflexivity.
  - exact diamond_path.
Defined.

(** *** Only what is reachable is stored *)

Lemma reachable_blacklists (h : heap) (g g' : ObjectGraph) (o : value)
  (a : addr) :
  blacklistedKeys g' = blacklistedKeys g →
  blacklistedObjects g' = blacklistedObjects g →
  reachable h g o a → reachable h g' o a.
Proof.
  intros Hk Ho. induction 1 as [a Ha | a b _ IH Hp | a name b _ IH Hname Hget].
  - by apply reach_root.
  - by eapply reach_proto.
  - eapply reach_property; [done| |done].
    by rewrite (visitedNames_blacklists h g g' a Hk Ho).
Qed.

Lemma reached_mono (h : heap) (objs : list addr) (g g' : ObjectGraph)
  (o : value) (a : addr) :
  dom (data g) ⊆ dom (data g') →
  blacklistedKeys g' = blacklistedKeys g →
  blacklistedObjects g' = blacklistedObjects g →
  reached h objs o g a → reached h objs o g' a.
Proof.
  intros Hd Hk Ho.
  induction 1 as [a Ha | a b _ IH Ha Hs Hp | a name b _ IH Ha Hs Hname Hget].
  - by apply reached_root.
  - eapply reached_proto; [done | done | | done]. apply stored_dom.
    apply stored_dom in Hs. set_solver.
  - eapply reached_property; [done | done | | | done].
    + apply stored_dom. apply stored_dom in Hs. set_solver.
    + by rewrite (visitedNames_blacklists h g g' a Hk Ho).
Qed.

Lemma reached_reachable (h : heap) (objs : list addr) (g : ObjectGraph)
  (o : value) (a : addr) :
  reached h objs o g a → reachable h g o a.
Proof.
  induction 1 as [a Ha | a b _ IH _ _ Hp | a name b _ IH _ _ Hname Hget].
  - by apply reach_root.
  - by eapply reach_proto.
  - by eapply reach_property.
Qed.

Section Reachable.

Variable h : heap.
Variable objs : list addr.
Hypothesis Hok : heap_ok h objs = true.
Variable o : value.

Lemma reach_frame (g g' : ObjectGraph) :
  only_reachable h objs o g →
  dom (data g') = dom (data g) →
  blacklistedKeys g' = blacklistedKeys g →
  blacklistedObjects g' = blacklistedObjects g →
  only_reachable h objs o g'.
Proof.
  intros Hr Hd Hk Ho a Ha. rewrite stored_dom, Hd. intros Hst%stored_dom.
  apply (reached_mono h objs g g'); [by rewrite Hd | done | done | by apply Hr].
Qed.

Lemma reach_visitObject (running : list task) (g : ObjectGraph) (v : value) :
  capture_inv h objs running g → only_reachable h objs o g →
  live_value objs v = true → (∀ b, v = VObj b → reached h objs o g b) →
  only_reachable h objs o (visitObject h v g).2.
Proof.
  intros Hinv Hr Hlive Hv.
  destruct (visitObject_cases h objs Hok running g v Hinv Hlive)
    as [(id & -> & _) | (b & -> & Hb & Hnew & ->)]; cbn [fst snd]; [done|].
  intros a Ha.
  rewrite stored_dom, first_visit_data, dom_insert_L, elem_of_union,
    elem_of_singleton.
  intros [Heq | Hst%stored_dom];
    (apply (reached_mono h objs g);
     [rewrite first_visit_data, dom_insert_L; set_solver
     | apply first_visit_blacklistedKeys
     | apply first_visit_blacklistedObjects|]).
  - apply (heap_ok_inj h objs Hok) in Heq as ->; [|done..]. by apply Hv.
  - by apply Hr.
Qed.

Variable rewriteName : string → string.

Lemma reach_run_task (g : ObjectGraph) (t : task) :
  capture_inv h objs [t] g → record_inv rewriteName h objs [t] g →
  only_reachable h objs o g →
  only_reachable h objs o (run_task rewriteName h t g).
Proof.
  intros Hinv Hrec Hr.
  destruct (inv_tasks _ _ _ _ Hinv t) as [Ha Hst]; [by left|].
  destruct t as [a|a|a name]; simpl in Ha, Hst |- *.
  - destruct (heap_ok_object h objs Hok a Ha) as (_ & Hlive & _).
    assert (Hv : ∀ b, proto (h a) = VObj b → reached h objs o g b).
    { intros b Hb. eapply reached_proto; [by apply Hr | done | done | done]. }
    pose proof (reach_visitObject _ g _ Hinv Hr Hlive Hv) as Hr'.
    unfold visitPrototype. destruct (visitObject h (proto (h a)) g) as [pid g1].
    simpl in Hr'. apply (reach_frame g1); [done|..];
      unfold storeProto, console_assert; by destruct (negb _).
  - unfold visitPropertyDescriptors.
    destruct (visitPropertyDescriptors_metadata h a (visitedNames h g a)
                None g) as (_ & Hd & _ & Hk & Ho).
    cbv zeta in Hd, Hk, Ho. apply (reach_frame g); [done | by rewrite Hd |..];
      done.
  - pose proof (getProperty_live h objs Hok a name Ha) as Hlive.
    pose proof (rec_tasks _ _ _ _ _ Hrec a name) as Hname.
    unfold visitProperty. destruct (getProperty h a name) as [v|] eqn:Hget.
    + assert (Hv : ∀ b, v = VObj b → reached h objs o g b).
      { intros b ->.
        eapply reached_property; [by apply Hr | done | done | | done].
        apply Hname. by left. }
      pose proof (reach_visitObject _ g _ Hinv Hr Hlive Hv) as Hr'.
      destruct (visitObject h v g) as [id g1]. simpl in Hr'.
      apply (reach_frame g1); [done | | done..]. simpl. apply dom_alter_L.
    + apply (reach_frame g); [done | | done..]. simpl. apply dom_alter_L.
Qed.

Lemma reach_dequeue (n : nat) (g : ObjectGraph) :
  capture_inv h objs [] g → record_inv rewriteName h objs [] g →
  only_reachable h objs o g →
  only_reachable h objs o (dequeue rewriteName h n g).
Proof.
  revert g. induction n as [|n IH]; intros g Hinv Hrec Hr; simpl; [done|].
  destruct (q g) as [|t rest] eqn:Hq; [done|].
  pose proof (inv_pop h objs g t rest Hinv Hq) as Hinv1.
  pose proof (rec_pop h objs rewriteName g t rest Hrec Hq) as Hrec1.
  apply IH; [by apply inv_run_task | by apply rec_run_task|].
  apply reach_run_task; [done..|]. by apply (reach_frame g).
Qed.

Lemma reach_flush (fuel : nat) (g g' : ObjectGraph) :
  capture_inv h objs [] g → record_inv rewriteName h objs [] g →
  only_reachable h objs o g →
  flush rewriteName h fuel g = Ret g' → only_reachable h objs o g'.
Proof.
  intros Hinv Hrec Hr. destruct fuel as [|fuel]; [done|].
  rewrite flush_eq. cbv zeta.
  assert (Hinv1 : capture_inv h objs [] (log EvTick g)).
  { apply (inv_same h objs g); try done. apply (inv_onDone _ _ _ _ Hinv). }
  assert (Hrec1 : record_inv rewriteName h objs [] (log EvTick g))
    by (by apply (rec_same h objs rewriteName g)).
  assert (Hr1 : only_reachable h objs o (log EvTick g))
    by (by apply (reach_frame g)).
  pose proof (inv_dequeue h objs Hok rewriteName (maxDequeueSize g) _ Hinv1)
    as Hinv2.
  pose proof (reach_dequeue (maxDequeueSize g) _ Hinv1 Hrec1 Hr1) as Hr2.
  simpl maxDequeueSize.
  set (g1 := dequeue rewriteName h (maxDequeueSize g) (log EvTick g)) in *.
  destruct (q g1) as [|t rest] eqn:Hq1.
  - intros Hcall.
    destruct (call_same rewriteName h _ (inv_onDone _ _ _ _ Hinv2) _ _ _ Hcall)
      as ((Hd&_&_&_&_&_&_&_&_&_&Ho&Hk&_) & _).
    apply (reach_frame g1); [done | by rewrite Hd | done..].
  - intros [= <-]. by apply (reach_frame g1).
Qed.

Variable opts : captureOpts.
Variable g0 : ObjectGraph.
Hypothesis Hidle : idle g0.
Hypothesis Htimers : timers g0 = 0.
Hypothesis Hlive : live_value objs o = true.
Hypothesis Hbl : o ∉ blacklistedObjects g0.

Lemma capturing_reachable (g : ObjectGraph) :
  capturing rewriteName h g0 o opts g → only_reachable h objs o g.
Proof.
  induction 1 as [fuel g Hc | fuel g g' Hg IH Hto].
  - destruct Hidle as [Hbusy Hq Hcb]. destruct fuel as [|fuel]; [done|].
    rewrite capture_eq, Hbusy in Hc. cbv zeta in Hc.
    rewrite bool_decide_eq_false_2 in Hc by done.
    set (g1 := with_onDone (CbCaptureDone (onDone g0) (optOnDone opts))
                 (log EvCapture (reset (rootKey opts) (rootOf h o) g0))) in *.
    assert (Hinv1 : capture_inv h objs [] g1) by (by apply inv_reset).
    assert (Hrec1 : record_inv rewriteName h objs [] g1) by (by apply rec_reset).
    assert (Hr1 : only_reachable h objs o g1).
    { intros a _ [m Hm]. simpl in Hm. by rewrite lookup_empty in Hm. }
    destruct (inv_visitObject h objs Hok [] g1 o Hinv1 Hlive) as (Hinv2 & _).
    destruct (rec_visitObject h objs Hok rewriteName [] g1 o Hinv1 Hrec1 Hlive)
      as (Hrec2 & _).
    assert (Hr2 : only_reachable h objs o (visitObject h o g1).2).
    { apply (reach_visitObject [] g1 o Hinv1 Hr1 Hlive).
      intros b ->. by apply reached_root. }
    by eapply reach_flush.
  - pose proof (capturing_run_ok h objs Hok rewriteName o opts g0 g
                  Hidle Htimers Hlive Hbl Hg) as (Hinv & _).
    pose proof (capturing_record h objs Hok rewriteName o opts g0 g
                  Hidle Htimers Hlive Hbl Hg) as Hrec.
    unfold timeout in Hto. destruct (timers g) as [|n]; [by injection Hto as <-|].
    apply (reach_flush fuel (with_timers n g)); [| | |done].
    + apply (inv_same h objs g); try done. apply (inv_onDone _ _ _ _ Hinv).
    + by apply (rec_same h objs rewriteName g).
    + by apply (reach_frame g).
Qed.

(** X20: a capture stores what is reachable and nothing else: in every
    state of a capture each stored object is reachable from the root by
    delegation links and properties that are not blacklisted, and once
    the capture is done the keys of [data] are exactly the $UID values
    of the reachable objects. *)
Theorem capture_stores_reachable (g : ObjectGraph) :
  capturing rewriteName h g0 o opts g →
  (∀ a, a ∈ objs → stored h g a → reachable h g0 o a)
  ∧ (busy g = false →
     (∀ a, reachable h g0 o a ↔ a ∈ objs ∧ stored h g a)
     ∧ ∀ id, id ∈ dom (data g) ↔ ∃ a, reachable h g0 o a ∧ UID (h a) = id).
Proof.
  intros Hg.
  pose proof (capturing_run_ok h objs Hok rewriteName o opts g0 g
                Hidle Htimers Hlive Hbl Hg) as Hrun.
  pose proof Hrun as (Hinv & _ & Hk & Ho & _).
  pose proof (capturing_reachable g Hg) as Hr.
  assert (Hto : ∀ a, reachable h g o a → reachable h g0 o a).
  { intros a. by apply reachable_blacklists. }
  assert (Hfrom : ∀ a, reachable h g0 o a → reachable h g o a).
  { intros a. by apply reachable_blacklists. }
  split; [intros a Ha Hst; by apply Hto, (reached_reachable h objs), Hr|].
  intros Hb.
  assert (Hiff : ∀ a, reachable h g0 o a ↔ a ∈ objs ∧ stored h g a).
  { intros a. split.
    - intros Ha%Hfrom.
      apply (reachable_stored h objs Hok o opts g0 g a Hrun Hb Hlive Ha).
    - intros [Ha Hst]. by apply Hto, (reached_reachable h objs), Hr. }
  split; [done|]. intros id. split.
  - intros Hid. destruct (inv_live _ _ _ _ Hinv id Hid) as (a & Ha & <-).
    exists a. split; [|done]. apply Hiff. split; [done | by apply stored_dom].
  - intros (a & [_ Hst%stored_dom]%Hiff & <-). done.
Qed.

End Reachable.

Lemma capture_stores_reachable_witness :
  (∀ a, a ∈ [0; 1; 2; 3; 4; 5; 6] → stored diamond diamond_graph a →
        reachable diamond fresh_graph (VObj 0) a)
  ∧ (busy diamond_graph = false →
     (∀ a, reachable diamond fresh_graph (VObj 0) a
           ↔ a ∈ [0; 1; 2; 3; 4; 5; 6] ∧ stored diamond diamond_graph a)
     ∧ ∀ id, id ∈ dom (data diamond_graph)
             ↔ ∃ a, reachable diamond fresh_graph (VObj 0) a
                    ∧ UID (diamond a) = id).
Proof.
  exact (capture_stores_reachable diamond [0; 1; 2; 3; 4; 5; 6]
           diamond_heap_ok (VObj 0) id no_opts fresh_graph fresh_graph_idle
           eq_refl diamond_root_live diamond_root_visited diamond_graph
           diamond_captured).
Defined.

(** *** A capture is determined by the heap *)

Section Determined.

Variable h : heap.
Variable objs : list addr.
Hypothesis Hok : heap_ok h objs = true.
Variable rewriteName : string → string.
Variable o : value.
Hypothesis Hlive : live_value objs o = true.

(** What a finished capture has in its stores, in terms of the heap. *)
Lemma captured_stores (opts : captureOpts) (g0 g : ObjectGraph) :
  idle g0 → timers g0 = 0 → o ∉ blacklistedObjects g0 →
  (∀ b n1 n2, b ∈ objs → n1 ∈ visitedNames h g0 b →
              n2 ∈ visitedNames h g0 b →
              rewriteName n1 = rewriteName n2 → n1 = n2) →
  capturing rewriteName h g0 o opts g → busy g = false →
  (∀ id, id ∈ dom (data g) ↔ ∃ a, reachable h g0 o a ∧ UID (h a) = id)
  ∧ (∀ a k v, reachable h g0 o a →
       (data g !! UID (h a)) ≫= (.!! k) = Some v
       ↔ ∃ name, name ∈ visitedNames h g0 a ∧ k = rewriteName name
                 ∧ v = id_of_access h (getProperty h a name))
  ∧ (∀ a, reachable h g0 o a →
          protos g !! UID (h a) = Some (id_of h (proto (h a)))
          ∧ metadata g !! UID (h a) = Some (descriptors_of h g0 a))
  ∧ dom (protos g) ⊆ dom (data g) ∧ dom (metadata g) = dom (data g)
  ∧ ∀ id, id ∈ functions g ↔ id ∈ dom (data g)
                              ∧ is_function_id h objs id = true.
Proof.
  intros Hidle Ht Hbl Hdistinct Hg Hb.
  pose proof (capturing_run_ok h objs Hok rewriteName o opts g0 g
                Hidle Ht Hlive Hbl Hg) as Hrun.
  pose proof Hrun as (Hinv & _ & Hk & Ho & _ & _ & Hs).
  pose proof (capturing_record h objs Hok rewriteName o opts g0 g
                Hidle Ht Hlive Hbl Hg) as Hrec.
  pose proof (capturing_metadata h objs Hok rewriteName o opts g0
                Hidle Ht Hlive Hbl g Hg) as Hmeta.
  pose proof (capturing_reachable h objs Hok o rewriteName opts g0
                Hidle Ht Hlive Hbl g Hg) as Hr.
  rewrite Hb in Hs. destruct Hs as [_ Hq].
  assert (Hvn : ∀ b, visitedNames h g b = visitedNames h g0 b).
  { intros b. by apply visitedNames_blacklists. }
  assert (Hiff : ∀ a, reachable h g0 o a ↔ a ∈ objs ∧ stored h g a).
  { intros a. split.
    - intros Ha. apply (reachable_stored h objs Hok o opts g0 g a Hrun Hb Hlive).
      by apply (reachable_blacklists h g0 g).
    - intros [Ha Hst]. apply (reachable_blacklists h g g0); [done..|].
      by apply (reached_reachable h objs), Hr. }
  split; [|split; [|split; [|split; [|split]]]].
  - intros id. split.
    + intros Hid. destruct (inv_live _ _ _ _ Hinv id Hid) as (a & Ha & <-).
      exists a. split; [|done]. apply Hiff. split; [done | by apply stored_dom].
    + intros (a & [_ Hst%stored_dom]%Hiff & <-). done.
  - intros a k v [Ha Hst]%Hiff. pose proof Hst as [m Hm]. rewrite Hm. simpl.
    split.
    + intros Hkv.
      destruct (rec_entries _ _ _ _ _ Hrec _ m k v Hm Hkv)
        as (b & name & Hb' & Heq & Hname & -> & ->).
      apply (heap_ok_inj h objs Hok) in Heq as ->; [|done..].
      exists name. by rewrite <- Hvn.
    + intros (name & Hname & -> & ->). rewrite <- Hvn in Hname.
      destruct (rec_property _ _ _ _ _ Hrec a name Ha Hst Hname)
        as [Hin | (name' & Hn' & Heq & Hp)].
      { rewrite Hq in Hin. by apply elem_of_nil in Hin. }
      rewrite Hvn in Hname, Hn'.
      assert (name' = name) as -> by (by apply (Hdistinct a)).
      by rewrite Hm in Hp.
  - intros a [Ha Hst]%Hiff. split.
    + destruct (rec_proto _ _ _ _ _ Hrec a Ha Hst) as [Hin | Hp]; [|done].
      rewrite Hq in Hin. by apply elem_of_nil in Hin.
    + destruct (Hmeta a Ha Hst) as [[Hin _] | Hm].
      { rewrite Hq in Hin. by apply elem_of_nil in Hin. }
      rewrite Hm. unfold descriptors_of. by rewrite Hvn.
  - apply (inv_protos _ _ _ _ Hinv).
  - apply (inv_metadata _ _ _ _ Hinv).
  - intros id. rewrite (rec_functions _ _ _ _ _ Hrec), elem_of_rev,
      list_elem_of_filter, (inv_visits _ _ _ _ Hinv). tauto.
Qed.

(** X21: a capture forgets what the graph held and is determined by the
    heap and the blacklists: two finished captures of the same object,
    on graphs that agree on the blacklisted keys and objects, leave the
    same [data], [protos] and [metadata] and the same functions,
    whatever the graphs held before and whatever the options are (the
    visited names of each object being rewritten to distinct names). *)
Theorem capture_determined (opts opts' : captureOpts)
  (g0 g0' g g' : ObjectGraph) :
  idle g0 → timers g0 = 0 → idle g0' → timers g0' = 0 →
  blacklistedKeys g0' = blacklistedKeys g0 →
  blacklistedObjects g0' = blacklistedObjects g0 →
  o ∉ blacklistedObjects g0 →
  (∀ b n1 n2, b ∈ objs → n1 ∈ visitedNames h g0 b →
              n2 ∈ visitedNames h g0 b →
              rewriteName n1 = rewriteName n2 → n1 = n2) →
  capturing rewriteName h g0 o opts g → busy g = false →
  capturing rewriteName h g0' o opts' g' → busy g' = false →
  data g' = data g ∧ protos g' = protos g ∧ metadata g' = metadata g
  ∧ ∀ id, id ∈ functions g' ↔ id ∈ functions g.
Proof.
  intros Hidle Ht Hidle' Ht' Hk Ho Hbl Hdistinct Hg Hb Hg' Hb'.
  assert (Hvn : ∀ b, visitedNames h g0' b = visitedNames h g0 b).
  { intros b. by apply visitedNames_blacklists. }
  assert (Hre : ∀ a, reachable h g0' o a ↔ reachable h g0 o a).
  { intros a. split; by apply reachable_blacklists. }
  destruct (captured_stores opts g0 g Hidle Ht Hbl Hdistinct Hg Hb)
    as (Hd & He & Hp & Hpd & Hmd & Hf).
  destruct (captured_stores opts' g0' g' Hidle' Ht') as (Hd' & He' & Hp' & Hpd' & Hmd' & Hf');
    [by rewrite Ho | | done | done |].
  { intros b n1 n2 Hb0. rewrite !Hvn. by apply Hdistinct. }
  assert (Hdom : dom (data g') = dom (data g)).
  { apply set_eq. intros id. rewrite Hd, Hd'. by setoid_rewrite Hre. }
  split; [|split; [|split]].
  - apply map_eq. intros id.
    destruct (decide (id ∈ dom (data g))) as [Hid|Hid].
    + pose proof Hid as (a & Ha & <-)%Hd.
      pose proof Hid as [m Hm]%elem_of_dom.
      rewrite <- Hdom in Hid. apply elem_of_dom in Hid as [m' Hm'].
      rewrite Hm, Hm'. f_equal. apply map_eq. intros k.
      pose proof (He a k) as Hek. pose proof (He' a k) as Hek'.
      rewrite Hm in Hek. rewrite Hm' in Hek'. simpl in Hek, Hek'.
      destruct (m !! k) as [v|] eqn:Hv.
      * apply Hek'; [by apply Hre|]. rewrite Hvn. by apply Hek.
      * destruct (m' !! k) as [v'|] eqn:Hv'; [|done].
        assert (None = Some v') as [=]. apply Hek; [done|].
        rewrite <- Hvn. apply Hek'; [by apply Hre | done].
    + rewrite (proj1 (not_elem_of_dom _ _) Hid).
      rewrite <- Hdom in Hid. by rewrite (proj1 (not_elem_of_dom _ _) Hid).
  - apply map_eq. intros id.
    destruct (decide (id ∈ dom (data g))) as [Hid|Hid].
    + apply Hd in Hid as (a & Ha & <-).
      destruct (Hp a Ha) as [-> _]. apply Hre in Ha.
      by destruct (Hp' a Ha) as [-> _].
    + assert (id ∉ dom (protos g)) as Hn by set_solver.
      assert (id ∉ dom (protos g')) as Hn' by set_solver.
      by rewrite (proj1 (not_elem_of_dom _ _) Hn),
        (proj1 (not_elem_of_dom _ _) Hn').
  - apply map_eq. intros id.
    destruct (decide (id ∈ dom (data g))) as [Hid|Hid].
    + apply Hd in Hid as (a & Ha & <-).
      destruct (Hp a Ha) as [_ ->]. apply Hre in Ha.
      destruct (Hp' a Ha) as [_ ->]. unfold descriptors_of. by rewrite Hvn.
    + assert (id ∉ dom (metadata g)) as Hn by set_solver.
      assert (id ∉ dom (metadata g')) as Hn' by set_solver.
      by rewrite (proj1 (not_elem_of_dom _ _) Hn),
        (proj1 (not_elem_of_dom _ _) Hn').
  - intros id. by rewrite Hf, Hf', Hdom.
Qed.

End Determined.

Lemma diamond_graph_idle : idle diamond_graph.
Proof. split; vm_compute; reflexivity. Qed.

Lemma diamond_captured_again :
  capturing id diamond diamond_graph (VObj 0) with_callback diamond_again.
Proof.
  apply (capturing_timeout id diamond diamond_graph (VObj 0) with_callback 8
           diamond_again_started).
  - apply (capturing_call id diamond diamond_graph (VObj 0) with_callback 8).
    vm_compute. reflexivity.
  - vm_compute. reflexivity.
Qed.

Lemma capture_determined_witness :
  data diamond_again = data diamond_graph
  ∧ protos diamond_again = protos diamond_graph
  ∧ metadata diamond_again = metadata diamond_graph
  ∧ ∀ id, id ∈ functions diamond_again ↔ id ∈ functions diamond_graph.
Proof.
  apply (capture_determined diamond [0; 1; 2; 3; 4; 5; 6] diamond_heap_ok id
           (VObj 0) diamond_root_live no_opts with_callback
           fresh_graph diamond_graph diamond_graph diamond_again).
  - exact fresh_graph_idle.
  - reflexivity.
  - exact diamond_graph_idle.
  - vm_compute. reflexivity.
  - vm_compute. reflexivity.
  - vm_compute. reflexivity.
  - exact diamond_root_visited.
  - intros b n1 n2 _ _ _ H. exact H.
  - exact diamond_captured.
  - exact diamond_done.
  - exact diamond_captured_again.
  - vm_compute. reflexivity.
Defined.

(** ** Keys and the inverse index *)

Lemma remap_abc_nonempty (d : gmap N (gmap string N)) (c : N)
  (m : gmap string (list N)) :
  remap_abc d !! c = Some m → ∃ b l a, m !! b = Some l ∧ a ∈ l.
Proof.
  unfold remap_abc. revert c m.
  apply (foldl_invariant
           (λ acc : gmap N (gmap string (list N)),
              ∀ c m, acc !! c = Some m → ∃ b l a, m !! b = Some l ∧ a ∈ l)).
  - intros c m. by rewrite lookup_empty.
  - intros acc a _ Hacc. apply foldl_invariant; [done|].
    intros acc' [b c'] _ Hacc' c m. unfold remap_push. simpl.
    destruct (decide (c' = c)) as [->|Hne].
    + rewrite lookup_insert_eq. intros [= <-].
      exists b, (default [] (default ∅ (acc' !! c) !! b) ++ [a]), a.
      rewrite lookup_insert_eq. split; [done|]. rewrite elem_of_app. right.
      by left.
    + rewrite lookup_insert_ne by done. apply Hacc'.
Qed.

(** X22: [getKeys] needs a property that refers to the identity: for an
    identity other than the root that no entry of [data] refers to, it
    returns no key, also when the identity is the delegation parent of
    a stored object (the parents are only searched after a referring
    property has been found). *)
Theorem getKeys_needs_referrer (g : ObjectGraph) (id : N) :
  keysCache g !! id = None → VNumber id ≠ root g →
  (∀ a name, ¬ refers_by_data (data g) a name id) →
  getKeys g id = Ret ([], with_keysCache (insert id []) g)
  ∧ getShortestKey g id = Ret (None, with_keysCache (insert id []) g).
Proof.
  intros Hmiss Hroot Hnone.
  assert (Hk : getKeys g id = Ret ([], with_keysCache (insert id []) g)).
  { unfold getKeys, getKeys_fuel. rewrite Hmiss. cbn [getKeys_].
    rewrite decide_False by done.
    destruct (invData g !! id) as [m|] eqn:Hm; [|done].
    destruct (remap_abc_nonempty _ _ _ Hm) as (b & l & a & Hb & Ha).
    destruct (Hnone a b). by eapply remap_abc_referrers. }
  split; [done|]. unfold getShortestKey. by rewrite Hk.
Qed.

Lemma getKeys_needs_referrer_witness :
  getKeys diamond_graph 101
  = Ret ([], with_keysCache (insert 101%N []) diamond_graph)
  ∧ getShortestKey diamond_graph 101
    = Ret (None, with_keysCache (insert 101%N []) diamond_graph).
Proof.
  apply (getKeys_needs_referrer diamond_graph 101).
  - vm_compute. reflexivity.
  - vm_compute. discriminate.
  - assert (H : map_Forall (λ _ ma, map_Forall (λ _ v, v ≠ 101%N)
                                      (ma : gmap string N))
                           (data diamond_graph)).
    { apply (proj1 (bool_decide_eq_true _)). vm_compute. reflexivity. }
    intros a name (ma & Hma & Hv). exact (H a ma Hma name 101%N Hv eq_refl).
Defined.

Lemma getKeys_hit (g : ObjectGraph) (id : N) (ks : list string) :
  keysCache g !! id = Some ks → getKeys g id = Ret (ks, g).
Proof. intros Hc. unfold getKeys. by rewrite Hc. Qed.

Lemma removeIds_keysCache (ids : list N) (g : ObjectGraph) :
  keysCache (removeIds ids g) = keysCache g.
Proof. by rewrite removeIds_fields. Qed.

(** X23: [getKeys] answers from the cache: a second call returns the
    same keys and changes nothing, an entry of the cache is never
    replaced, and since [removeIds] keeps the cache the keys of an
    identity are still returned after the identity has been removed. *)
Theorem getKeys_cached (g : ObjectGraph) (id : N) :
  ∃ ks g', getKeys g id = Ret (ks, g')
    ∧ getKeys g' id = Ret (ks, g')
    ∧ (∀ ids, getKeys (removeIds ids g') id = Ret (ks, removeIds ids g'))
    ∧ (∀ id' ks', keysCache g !! id' = Some ks' →
                  keysCache g' !! id' = Some ks')
    ∧ data g' = data g ∧ protos g' = protos g.
Proof.
  destruct (getKeys_returns g id) as (ks & g' & Hk). exists ks, g'.
  split; [done|].
  assert (Hc' : keysCache g' !! id = Some ks
                ∧ (∀ id' ks', keysCache g !! id' = Some ks' →
                              keysCache g' !! id' = Some ks')
                ∧ data g' = data g ∧ protos g' = protos g).
  { unfold getKeys in Hk. destruct (keysCache g !! id) as [c|] eqn:Hc.
    - by injection Hk as <- <-.
    - destruct (getKeys_ (getKeys_fuel g) g id ∅) as [r | e |]; simpl in Hk;
        try discriminate.
      injection Hk as <- <-. simpl. rewrite lookup_insert_eq.
      split; [done|]. split; [|done].
      intros id' ks' Hid'. rewrite lookup_insert_ne; [done|]. congruence. }
  destruct Hc' as (Hhit & Hkeep & Hd & Hp).
  split; [by apply getKeys_hit|]. split; [|done].
  intros ids. apply getKeys_hit. by rewrite removeIds_keysCache.
Qed.

(** ** All identities *)

Lemma filter_all {A} (P : A → Prop) `{∀ x, Decision (P x)} (l : list A) :
  Forall P l → filter P l = l.
Proof.
  induction 1 as [|x l Hx _ IH]; [done|].
  by rewrite filter_cons_True, IH.
Qed.

Lemma toString_not_blacklisted (n : N) :
  existsb (String.eqb (toString n)) default_blacklistedKeys = false.
Proof.
  unfold toString. destruct (N.to_uint n) as [|d|d|d|d|d|d|d|d|d|d]; reflexivity.
Qed.

(** X24: with the blacklisted keys of the prototype, [getAllIds_]
    returns every key of [data] exactly once, in the order of their
    decimal strings. *)
Theorem getAllIds__lists_identities (g : ObjectGraph) :
  blacklistedKeys g = default_blacklistedKeys →
  getAllIds_ g ≡ₚ elements (dom (data g))
  ∧ NoDup (getAllIds_ g)
  ∧ (∀ id, id ∈ getAllIds_ g ↔ is_Some (data g !! id))
  ∧ Sorted (λ a b : N, String.leb (toString a) (toString b)) (getAllIds_ g).
Proof.
  intros Hk.
  assert (Hp : getAllIds_ g ≡ₚ elements (dom (data g))).
  { rewrite getAllIds__permutation. rewrite filter_all; [done|].
    apply Forall_forall. intros i _. unfold isKeyBlacklisted. rewrite Hk.
    apply toString_not_blacklisted. }
  split; [done|]. split; [|split].
  - rewrite Hp. apply NoDup_elements.
  - intros id. by rewrite Hp, elem_of_elements, elem_of_dom.
  - assert (Htotal : Total (λ a b : N, String.leb (toString a) (toString b))).
    { intros a b.
      destruct (String.leb_total (toString a) (toString b)) as [H|H];
        [left | right]; by rewrite H. }
    unfold getAllIds_, sort_default.
    apply (Sorted_merge_sort (λ a b : N, String.leb (toString a) (toString b))).
Qed.

Lemma getAllIds__lists_identities_witness :
  getAllIds_ diamond_graph ≡ₚ elements (dom (data diamond_graph))
  ∧ NoDup (getAllIds_ diamond_graph)
  ∧ (∀ id, id ∈ getAllIds_ diamond_graph ↔ is_Some (data diamond_graph !! id))
  ∧ Sorted (λ a b : N, String.leb (toString a) (toString b))
           (getAllIds_ diamond_graph).
Proof.
  apply (getAllIds__lists_identities diamond_graph). vm_compute. reflexivity.
Defined.

(** ** Lookups past a value that is no object *)

(** X25: a lookup cannot go on from a sentinel: [lookup_] of a path
    that is not empty from a type sentinel returns null, and so does
    the lookup of a path that goes on after a prefix that resolves to a
    sentinel. *)
Theorem lookup_past_sentinel (fuel : nat) (g : ObjectGraph) (id : N) :
  isType id = true →
  (∀ name rest, lookup_ (S fuel) g (name :: rest) (Num id) = Ret None)
  ∧ (∀ key, lookup (S fuel) g key (Some id) = Ret None)
  ∧ (∀ pre r name rest, lookup_ (S fuel) g pre r = Ret (Some (Num id)) →
       lookup_ (S fuel) g (pre ++ name :: rest) r = Ret None).
Proof.
  intros Hid.
  assert (Hstep : ∀ name rest,
            lookup_ (S fuel) g (name :: rest) (Num id) = Ret None).
  { intros name rest. cbn [lookup_ lookup_while]. rewrite Hid.
    by destruct (String.eqb name "__proto__"). }
  split; [done|]. split.
  - intros key. unfold lookup.
    assert (truthy id = true) as ->.
    { apply truthy_ne0. intros ->. done. }
    pose proof (split_dot_nonempty key) as Hne.
    destruct (split_dot key) as [|name rest]; [done | apply Hstep].
  - intros pre r name rest Hpre.
    rewrite (lookup__app _ _ _ _ _ _ Hpre). apply Hstep.
Qed.

Lemma lookup_past_sentinel_witness :
  (∀ name rest, lookup_ 1 diamond_graph (name :: rest) (Num 4) = Ret None)
  ∧ (∀ key, lookup 1 diamond_graph key (Some 4%N) = Ret None)
  ∧ (∀ pre r name rest, lookup_ 1 diamond_graph pre r = Ret (Some (Num 4)) →
       lookup_ 1 diamond_graph (pre ++ name :: rest) r = Ret None).
Proof. apply (lookup_past_sentinel 0 diamond_graph 4). reflexivity. Defined.

(** *** Completion *)

(** What the tasks leave as it is of the completion. *)
Lemma visitObject_completion (h : heap) (o : value) (g : ObjectGraph) :
  timestamp (visitObject h o g).2 = timestamp g
  ∧ callbacks (trace (visitObject h o g).2) = callbacks (trace g).
Proof.
  unfold visitObject. destruct (maybeSkip h g o) as [id|a]; [done|].
  unfold storeObject, storeMetadata, console_assert.
  destruct (callable (h a)); cbn -[visitedNames];
    repeat case_bool_decide; by repeat split.
Qed.

Lemma run_task_completion (rewriteName : string → string) (h : heap) (t : task)
  (g : ObjectGraph) :
  timestamp (run_task rewriteName h t g) = timestamp g
  ∧ callbacks (trace (run_task rewriteName h t g)) = callbacks (trace g).
Proof.
  destruct t as [a|a|a name]; simpl.
  - unfold visitPrototype.
    pose proof (visitObject_completion h (proto (h a)) g) as [Ht Hc].
    destruct (visitObject h (proto (h a)) g) as [pid g1]. simpl in Ht, Hc.
    rewrite <- Ht, <- Hc. unfold storeProto, console_assert.
    by destruct (negb _).
  - unfold visitPropertyDescriptors.
    apply (visitPropertyDescriptors_loop_invariant h a
             (λ g', timestamp g' = timestamp g
                    ∧ callbacks (trace g') = callbacks (trace g))); [done|].
    intros acc name d _ [Ht Hc].
    by destruct d.
  - unfold visitProperty. destruct (getProperty h a name) as [v|]; [|done].
    pose proof (visitObject_completion h v g) as [Ht Hc].
    by destruct (visitObject h v g) as [id g1].
Qed.

Lemma dequeue_completion (rewriteName : string → string) (h : heap) (n : nat)
  (g : ObjectGraph) :
  timestamp (dequeue rewriteName h n g) = timestamp g
  ∧ callbacks (trace (dequeue rewriteName h n g)) = callbacks (trace g).
Proof.
  revert g. induction n as [|n IH]; intros g; simpl; [done|].
  destruct (q g) as [|t rest]; [done|].
  destruct (IH (run_task rewriteName h t (with_queue (λ _, rest) g)))
    as [-> ->].
  apply (run_task_completion rewriteName h t (with_queue (λ _, rest) g)).
Qed.

(** Running a completion callback sets the timestamp and calls the user
    callbacks: the ones of the captures before, then the one of the
    options. *)
Lemma call_fired (rewriteName : string → string) (h : heap) (cb : callback) :
  no_recapture cb = true →
  ∀ fuel g g', call rewriteName h fuel cb g = Ret g' →
    callbacks (trace g') = fired cb ++ callbacks (trace g)
    ∧ (is_Some (timestamp g) → is_Some (timestamp g'))
    ∧ match cb with
      | CbCaptureDone _ _ => is_Some (timestamp g')
      | _ => True
      end.
Proof.
  induction cb as [|c|prev IH user|prev IH o opts]; intros Hcb fuel g g' Hcall;
    simpl in Hcb; try discriminate;
    (destruct fuel as [|fuel]; [discriminate|]); rewrite call_eq in Hcall.
  - by injection Hcall as <-.
  - by injection Hcall as <-.
  - destruct (call rewriteName h fuel prev (stamp g)) as [g1 | e |] eqn:Hprev;
      simpl in Hcall; try discriminate.
    injection Hcall as <-.
    destruct (IH Hcb _ _ _ Hprev) as (Hc & Ht & _).
    assert (Hs : is_Some (timestamp g1)) by (apply Ht; by eexists).
    destruct user as [c|]; simpl; rewrite Hc; done.
Qed.

Section Completed.

Variable h : heap.
Variable objs : list addr.
Hypothesis Hok : heap_ok h objs = true.
Variable rewriteName : string → string.
Variable o : value.
Variable opts : captureOpts.
Variable g0 : ObjectGraph.
Hypothesis Hidle : idle g0.
Hypothesis Htimers : timers g0 = 0.
Hypothesis Hlive : live_value objs o = true.
Hypothesis Hbl : o ∉ blacklistedObjects g0.

Lemma completion_flush (fuel : nat) (g g' : ObjectGraph) :
  capture_inv h objs [] g → busy g = true → timers g = 0 →
  timestamp g = None → callbacks (trace g) = [] →
  onDone g = CbCaptureDone (onDone g0) (optOnDone opts) →
  flush rewriteName h fuel g = Ret g' →
  if busy g'
  then timestamp g' = None ∧ callbacks (trace g') = [] ∧ q g' ≠ []
       ∧ timers g' = 1
  else is_Some (timestamp g')
       ∧ callbacks (trace g')
         = fired (CbCaptureDone (onDone g0) (optOnDone opts))
       ∧ q g' = [] ∧ timers g' = 0.
Proof.
  intros Hinv Hb Ht Hts Hcs HonDone. destruct fuel as [|fuel]; [done|].
  rewrite flush_eq. cbv zeta.
  pose proof (dequeue_frame rewriteName h (maxDequeueSize g) (log EvTick g))
    as (_ & Hbusy & Htm & _ & HonDone2 & _).
  pose proof (dequeue_completion rewriteName h (maxDequeueSize g) (log EvTick g))
    as [Hts2 Hcs2].
  simpl in Hbusy, Htm, HonDone2, Hts2, Hcs2. simpl maxDequeueSize.
  set (g1 := dequeue rewriteName h (maxDequeueSize g) (log EvTick g)) in *.
  destruct (q g1) as [|t rest] eqn:Hq1.
  - intros Hcall.
    assert (Hcb : no_recapture (onDone g1) = true).
    { rewrite HonDone2, HonDone. simpl. apply (idle_onDone _ Hidle). }
    destruct (call_same rewriteName h _ Hcb _ _ _ Hcall)
      as ((_&_&_&_&_&_&Hq&Ht'&_) & _ & _ & Hdone).
    destruct (call_fired rewriteName h _ Hcb _ _ _ Hcall) as (Hc & _ & Hst).
    rewrite HonDone2, HonDone in Hdone, Hst, Hc. rewrite Hdone.
    split; [done|]. split; [by rewrite Hc, Hcs2, Hcs, app_nil_r|].
    split; congruence.
  - intros [= <-]. simpl. rewrite Hbusy, Hb, Hq1, Htm, Ht.
    split; [congruence|]. split; [congruence|]. done.
Qed.

(** X26: the protocol of a capture: while the graph is busy the
    timestamp is null, no completion callback has been called, tasks
    are queued and exactly one flush is scheduled; once it is not, the
    timestamp is set, the queue is empty, no flush is scheduled, and
    the completion callbacks have been called once each, those of the
    queue before the one of the options. *)
Theorem capture_protocol (g : ObjectGraph) :
  capturing rewriteName h g0 o opts g →
  if busy g
  then timestamp g = None ∧ callbacks (trace g) = [] ∧ q g ≠ []
       ∧ timers g = 1
  else is_Some (timestamp g)
       ∧ callbacks (trace g)
         = fired (CbCaptureDone (onDone g0) (optOnDone opts))
       ∧ q g = [] ∧ timers g = 0.
Proof.
  induction 1 as [fuel g Hc | fuel g g' Hg IH Hto].
  - pose proof Hidle as [Hbusy Hq Hcb]. destruct fuel as [|fuel]; [done|].
    rewrite capture_eq, Hbusy in Hc. cbv zeta in Hc.
    rewrite bool_decide_eq_false_2 in Hc by done.
    set (g1 := with_onDone (CbCaptureDone (onDone g0) (optOnDone opts))
                 (log EvCapture (reset (rootKey opts) (rootOf h o) g0))) in *.
    assert (Hinv1 : capture_inv h objs [] g1) by (by apply inv_reset).
    destruct (inv_visitObject h objs Hok [] g1 o Hinv1 Hlive) as (Hinv2 & _).
    pose proof (visitObject_frame h o g1) as (_ & Hb2 & Ht2 & _ & Hd2 & _).
    pose proof (visitObject_completion h o g1) as [Hts2 Hcs2].
    apply (completion_flush fuel (visitObject h o g1).2 g).
    + exact Hinv2.
    + by rewrite Hb2.
    + rewrite Ht2. exact Htimers.
    + by rewrite Hts2.
    + by rewrite Hcs2.
    + by rewrite Hd2.
    + exact Hc.
  - pose proof (capturing_run_ok h objs Hok rewriteName o opts g0 g
                  Hidle Htimers Hlive Hbl Hg)
      as (Hinv & _ & _ & _ & _ & HonDone & _).
    unfold timeout in Hto. destruct (timers g) as [|n] eqn:Ht.
    { injection Hto as <-. by rewrite Ht. }
    destruct (busy g) eqn:Hb; [|by destruct IH as (_ & _ & _ & ?)].
    destruct IH as (Hts & Hcs & _ & Hn). injection Hn as ->.
    apply (completion_flush fuel (with_timers 0 g) g'); try done.
    apply (inv_same h objs g); try done. apply (inv_onDone _ _ _ _ Hinv).
Qed.

End Completed.

Lemma capture_protocol_witness :
  is_Some (timestamp diamond_again)
  ∧ callbacks (trace diamond_again)
    = fired (CbCaptureDone (onDone diamond_graph) (optOnDone with_callback))
  ∧ q diamond_again = [] ∧ timers diamond_again = 0.
Proof.
  pose proof (capture_protocol diamond [0; 1; 2; 3; 4; 5; 6] diamond_heap_ok id
                (VObj 0) with_callback diamond_graph diamond_graph_idle
                ltac:(vm_compute; reflexivity) diamond_root_live
                ltac:(vm_compute; intros H; inversion H as [|? ? ? H']; subst;
                      inversion H')
                diamond_again diamond_captured_again) as H.
  replace (busy diamond_again) with false in H by (vm_compute; reflexivity).
  exact H.
Defined.

(** *** The blacklist *)

Lemma visitedNames_not_blacklisted (h : heap) (g : ObjectGraph) (a b : addr)
  (name : string) :
  name ∈ visitedNames h g a → getProperty h a name = Reads (VObj b) →
  VObj b ∉ blacklistedObjects g.
Proof.
  unfold visitedNames. intros [Hf _]%list_elem_of_filter Hget.
  apply orb_false_iff in Hf as [_ Hp].
  unfold isPropertyBlacklisted in Hp. rewrite Hget in Hp.
  by apply bool_decide_eq_false in Hp.
Qed.

Section Blacklist.

Variable h : heap.
Variable objs : list addr.
Hypothesis Hok : heap_ok h objs = true.
Variable rewriteName : string → string.
Variable o : value.
Variable opts : captureOpts.
Variable g0 : ObjectGraph.
Hypothesis Hidle : idle g0.
Hypothesis Htimers : timers g0 = 0.
Hypothesis Hlive : live_value objs o = true.
Hypothesis Hbl : o ∉ blacklistedObjects g0.

(** X27: a capture keeps away from the blacklisted objects as far as
    the properties go: in every state of a capture no entry of [data]
    holds the identity of a blacklisted object; but the delegation
    links are followed without a look at the blacklist, so that a
    blacklisted object is stored when, and only when, it is the
    delegation parent of a stored object. *)
Theorem capture_respects_blacklist (g : ObjectGraph) (a : addr) :
  capturing rewriteName h g0 o opts g →
  a ∈ objs → VObj a ∈ blacklistedObjects g0 →
  (∀ id m k, data g !! id = Some m → m !! k ≠ Some (UID (h a)))
  ∧ (stored h g a →
     ∃ b, b ∈ objs ∧ stored h g b ∧ proto (h b) = VObj a)
  ∧ (busy g = false →
     ∀ b, b ∈ objs → stored h g b → proto (h b) = VObj a → stored h g a).
Proof.
  intros Hg Ha Hin.
  pose proof (capturing_run_ok h objs Hok rewriteName o opts g0 g
                Hidle Htimers Hlive Hbl Hg) as Hrun.
  pose proof Hrun as (Hinv & _ & Hk & Ho & _).
  pose proof (capturing_record h objs Hok rewriteName o opts g0 g
                Hidle Htimers Hlive Hbl Hg) as Hrec.
  pose proof (capturing_reachable h objs Hok o rewriteName opts g0
                Hidle Htimers Hlive Hbl g Hg) as Hr.
  split; [|split].
  - intros id m k Hm Hv.
    destruct (rec_entries _ _ _ _ _ Hrec id m k _ Hm Hv)
      as (b & name & Hb & _ & Hname & _ & Heq).
    pose proof (getProperty_live h objs Hok b name Hb) as Hl.
    destruct (getProperty h b name) as [v|] eqn:Hget.
    + destruct v as [| |x|n|s| |c]; simpl in Heq;
        try (destruct (heap_ok_object h objs Hok a Ha) as (Hid & _);
             unfold identity in Hid; lia).
      simpl in Hl. apply bool_decide_eq_true in Hl.
      apply (heap_ok_inj h objs Hok) in Heq as ->; [|done..].
      apply (visitedNames_not_blacklisted h g b c name Hname Hget).
      by rewrite Ho.
    + simpl in Heq. destruct (heap_ok_object h objs Hok a Ha) as (Hid & _).
      unfold identity in Hid. lia.
  - intros Hst. pose proof (Hr a Ha Hst) as Hreach.
    destruct Hreach as [a Hroot | b a _ Hbo Hsb Hp
                        | b name a _ Hbo Hsb Hname Hget].
    + by subst o.
    + by exists b.
    + destruct (visitedNames_not_blacklisted h g b a name Hname Hget).
      by rewrite Ho.
  - intros Hb b Hbo Hsb Hp. destruct Hrun as (_ & _ & _ & _ & _ & _ & Hs).
    rewrite Hb in Hs. destruct Hs as [_ Hq].
    destruct (inv_closed _ _ _ _ Hinv b Hbo Hsb) as [[Hpend | Hv] _].
    + rewrite Hq in Hpend. by apply elem_of_nil in Hpend.
    + by rewrite Hp in Hv.
Qed.

End Blacklist.

Lemma guarded_heap_ok : heap_ok guarded_heap [0; 1; 2] = true.
Proof. vm_compute. reflexivity. Qed.

(** The blacklisted parent 301 is stored, and the root has no entry
    for the property that refers to it. *)
Lemma capture_respects_blacklist_witness :
  (∀ id m k, data guarded_graph !! id = Some m →
             m !! k ≠ Some (UID (guarded_heap 1)))
  ∧ (stored guarded_heap guarded_graph 1 →
     ∃ b, b ∈ [0; 1; 2] ∧ stored guarded_heap guarded_graph b
          ∧ proto (guarded_heap b) = VObj 1)
  ∧ (busy guarded_graph = false →
     ∀ b, b ∈ [0; 1; 2] → stored guarded_heap guarded_graph b →
          proto (guarded_heap b) = VObj 1 →
          stored guarded_heap guarded_graph 1).
Proof.
  apply (capture_respects_blacklist guarded_heap [0; 1; 2] guarded_heap_ok id
           (VObj 0) no_opts (blacklistObject (VObj 1) fresh_graph)).
  - split; reflexivity.
  - reflexivity.
  - vm_compute. reflexivity.
  - vm_compute. intros H. inversion H as [|? ? ? H']; subst.
    inversion H' as [|? ? ? H'']; subst. inversion H''.
  - apply (capturing_call id guarded_heap
             (blacklistObject (VObj 1) fresh_graph) (VObj 0) no_opts 8).
    vm_compute. reflexivity.
  - apply (proj1 (bool_decide_eq_true _)). vm_compute. reflexivity.
  - vm_compute. right. left.
Defined.

(** *** Lookups stay within the stores *)

Section Safe.

Variable g : ObjectGraph.
Hypothesis Hvalues : ∀ id m k v, data g !! id = Some m → m !! k = Some v →
                                 isType v = true ∨ v ∈ dom (data g).
Hypothesis Hparents : ∀ id p, protos g !! id = Some p →
                              isType p = true ∨ p ∈ dom (data g).




End Safe.


Section SafeCapture.

Variable h : heap.
Variable objs : list addr.
Hypothesis Hok : heap_ok h objs = true.
Variable rewriteName : string → string.
Variable o : value.
Variable opts : captureOpts.
Variable g0 : ObjectGraph.
Hypothesis Hidle : idle g0.
Hypothesis Htimers : timers g0 = 0.
Hypothesis Hlive : live_value objs o = true.
Hypothesis Hbl : o ∉ blacklistedObjects g0.


End SafeCapture.


(** ** Identities that have a key *)

Lemma foldl_reaches {A B} (Q : A → Prop) (f : A → B → A) (l : list B) (x : B)
  (acc : A) :
  x ∈ l → (∀ acc, Q (f acc x)) → (∀ acc y, Q acc → Q (f acc y)) →
  Q (foldl f acc l).
Proof.
  intros Hx Hnew Hkeep. revert acc.
  induction l as [|y l IH]; intros acc; [by apply elem_of_nil in Hx|].
  apply elem_of_cons in Hx as [<-|Hx]; simpl.
  - apply foldl_invariant; [apply Hnew | intros; by apply Hkeep].
  - by apply IH.
Qed.

Lemma remap_push_keeps (acc : gmap N (gmap string (list N))) (a c a' c' : N)
  (b b' : string) :
  (∃ m l, acc !! c = Some m ∧ m !! b = Some l ∧ a ∈ l) →
  ∃ m l, remap_push c' b' a' acc !! c = Some m ∧ m !! b = Some l ∧ a ∈ l.
Proof.
  intros (m & l & Hm & Hl & Ha). unfold remap_push.
  destruct (decide (c' = c)) as [->|Hc].
  - rewrite lookup_insert_eq, Hm. simpl.
    destruct (decide (b' = b)) as [->|Hb].
    + eexists _, _. split; [done|]. rewrite lookup_insert_eq, Hl. simpl.
      split; [done|]. rewrite elem_of_app. by left.
    + eexists _, _. split; [done|]. by rewrite lookup_insert_ne.
  - exists m, l. by rewrite lookup_insert_ne.
Qed.

Lemma remap_push_adds (acc : gmap N (gmap string (list N))) (a c : N)
  (b : string) :
  ∃ m l, remap_push c b a acc !! c = Some m ∧ m !! b = Some l ∧ a ∈ l.
Proof.
  unfold remap_push. eexists _, _. rewrite !lookup_insert_eq.
  split; [done|]. split; [done|]. rewrite elem_of_app. right. by left.
Qed.

(** The inverse index has every reference. *)
Lemma remap_abc_complete (d : gmap N (gmap string N)) (a c : N) (b : string) :
  refers_by_data d a b c →
  ∃ m l, remap_abc d !! c = Some m ∧ m !! b = Some l ∧ a ∈ l.
Proof.
  intros (ma & Hma & Hb). unfold remap_abc.
  apply (foldl_reaches
           (λ acc : gmap N (gmap string (list N)),
              ∃ m l, acc !! c = Some m ∧ m !! b = Some l ∧ a ∈ l)
           _ (ownIds d) a).
  - apply ownIds_elem, elem_of_dom. eauto.
  - intros acc. rewrite Hma. simpl.
    apply (foldl_reaches
             (λ acc : gmap N (gmap string (list N)),
                ∃ m l, acc !! c = Some m ∧ m !! b = Some l ∧ a ∈ l)
             _ (map_to_list ma) (b, c)).
    + by apply elem_of_map_to_list.
    + intros acc'. apply remap_push_adds.
    + intros acc' [b' c'] Hacc'. by apply remap_push_keeps.
  - intros acc y Hacc. apply foldl_invariant; [done|].
    intros acc' [b' c'] _ Hacc'. by apply remap_push_keeps.
Qed.

Lemma referrers_seen_trans (g : ObjectGraph) (s0 s1 s2 : gset N) :
  referrers_seen g s0 s1 → s1 ⊆ s2 → referrers_seen g s1 s2 →
  referrers_seen g s0 s2.
Proof.
  intros H01 Hsub H12 y Hy Hy0 Hroot z name Href Hname.
  destruct (decide (y ∈ s1)) as [Hy1|Hy1].
  - apply Hsub. by eapply H01.
  - by eapply H12.
Qed.

(** The loop over the referrers under one name. *)
Lemma getKeys_via_searches (g : ObjectGraph)
  (rec : N → gset N → res keys_result) (name : string) (s0 : gset N)
  (ids : list N) (allKeys : list string) (seen : gset N) (r : keys_result) :
  rec_searches g rec →
  referrers_seen g s0 seen →
  (∀ rt, root g = VNumber rt → rt ∈ seen → rt ∉ s0 → allKeys ≠ []) →
  getKeys_via rec name ids allKeys seen = Ret r →
  seen ⊆ r.2 ∧ (∀ i, i ∈ ids → i ∈ r.2) ∧ referrers_seen g s0 r.2
  ∧ (∀ rt, root g = VNumber rt → rt ∈ r.2 → rt ∉ s0 → r.1 ≠ []).
Proof.
  intros Hrec. revert allKeys seen.
  induction ids as [|invId ids IH]; intros allKeys seen Hclosed Hfound; simpl.
  - intros [= <-]. simpl. split; [done|]. split; [|done].
    by intros i ?%elem_of_nil.
  - destruct (decide (invId ∈ seen)) as [Hin|Hnew].
    + intros Hr. destruct (IH _ _ Hclosed Hfound Hr) as (Hsub & Hids & Hc & Hf).
      split; [done|]. split; [|done].
      intros i [->|Hi]%elem_of_cons; [by apply Hsub | by apply Hids].
    + destruct (rec invId seen) as [r1 | e |] eqn:Hr1; simpl; try discriminate.
      destruct (Hrec _ _ _ Hnew Hr1) as (Hsub1 & Hc1 & Hf1).
      intros Hr.
      destruct (IH (allKeys ++ map (λ prefix, prefix +:+ "." +:+ name) r1.1)
                  r1.2) as (Hsub & Hids & Hc & Hf); [| |exact Hr|].
      * apply (referrers_seen_trans g s0 seen); [done | set_solver | done].
      * intros rt Hrt Hin Hn0. destruct (decide (rt ∈ seen)) as [Hs|Hs].
        -- specialize (Hfound rt Hrt Hs Hn0). by destruct allKeys.
        -- specialize (Hf1 rt Hrt Hs Hin).
           destruct r1.1; [done|]. by destruct allKeys.
      * split; [set_solver|]. split; [|done].
        intros i [->|Hi]%elem_of_cons; [|by apply Hids].
        apply Hsub. set_solver.
Qed.

(** The loop over the names. *)
Lemma getKeys_names_searches (g : ObjectGraph)
  (rec : N → gset N → res keys_result) (m : gmap string (list N))
  (s0 : gset N) (keys : list string) (allKeys : list string) (seen : gset N)
  (r : keys_result) :
  rec_searches g rec →
  referrers_seen g s0 seen →
  (∀ rt, root g = VNumber rt → rt ∈ seen → rt ∉ s0 → allKeys ≠ []) →
  getKeys_names rec g m keys allKeys seen = Ret r →
  seen ⊆ r.2
  ∧ (∀ k l i, k ∈ keys → isKeyBlacklisted g k = false → m !! k = Some l →
              i ∈ l → i ∈ r.2)
  ∧ referrers_seen g s0 r.2
  ∧ (∀ rt, root g = VNumber rt → rt ∈ r.2 → rt ∉ s0 → r.1 ≠ []).
Proof.
  intros Hrec. revert allKeys seen.
  induction keys as [|k keys IH]; intros allKeys seen Hclosed Hfound; simpl.
  - intros [= <-]. simpl. split; [done|]. split; [|done].
    by intros k l i ?%elem_of_nil.
  - destruct (isKeyBlacklisted g k) eqn:Hk.
    + intros Hr. destruct (IH _ _ Hclosed Hfound Hr) as (Hsub & Hall & Hc & Hf).
      split; [done|]. split; [|done].
      intros k' l i [->|Hk']%elem_of_cons Hbl; [congruence | by apply Hall].
    + destruct (getKeys_via rec k (default [] (m !! k)) allKeys seen)
        as [r1 | e |] eqn:Hr1; simpl; try discriminate.
      destruct (getKeys_via_searches g _ _ s0 _ _ _ _ Hrec Hclosed Hfound Hr1)
        as (Hsub1 & Hids1 & Hc1 & Hf1).
      intros Hr. destruct (IH _ _ Hc1 Hf1 Hr) as (Hsub & Hall & Hc & Hf).
      split; [set_solver|]. split; [|done].
      intros k' l i [->|Hk']%elem_of_cons Hbl Hl Hi; [|by eapply Hall].
      apply Hsub, Hids1. by rewrite Hl.
Qed.

Lemma getKeys__searches (g : ObjectGraph) (fuel : nat) :
  rec_searches g (getKeys_ fuel g).
Proof.
  induction fuel as [|fuel IH]; intros id s r Hnew; simpl; [done|].
  destruct (decide (VNumber id = root g)) as [Hroot|Hroot].
  - intros [= <-]. simpl. split; [done|]. split; [|done].
    intros y Hy Hys Hyr. apply elem_of_union in Hy as [->%elem_of_singleton|?];
      done.
  - assert (H0 : referrers_seen g ({[id]} ∪ s) ({[id]} ∪ s)).
    { intros y Hy Hy'. done. }
    assert (Hf0 : ∀ rt, root g = VNumber rt → rt ∈ {[id]} ∪ s →
                        rt ∉ {[id]} ∪ s → ([] : list string) ≠ []).
    { intros rt _ Hin Hnin. done. }
    assert (Hfinish : ∀ r' : keys_result,
      {[id]} ∪ s ⊆ r'.2 → referrers_seen g ({[id]} ∪ s) r'.2 →
      (∀ rt, root g = VNumber rt → rt ∈ r'.2 → rt ∉ {[id]} ∪ s → r'.1 ≠ []) →
      (∀ z name, refers_by_data (data g) z name id →
                 isKeyBlacklisted g name = false → z ∈ r'.2) →
      {[id]} ∪ s ⊆ r'.2 ∧ referrers_seen g s r'.2
      ∧ ∀ rt, root g = VNumber rt → rt ∉ s → rt ∈ r'.2 → r'.1 ≠ []).
    { intros r' Hsub Hc Hf Hid. split; [done|]. split.
      - intros y Hy Hys Hyr z name Href Hname.
        destruct (decide (y = id)) as [->|Hne]; [by eapply Hid|].
        eapply Hc; try done. set_solver.
      - intros rt Hrt Hs Hin. apply (Hf rt Hrt Hin).
        intros [->%elem_of_singleton|?]%elem_of_union; [congruence | done]. }
    destruct (invData g !! id) as [m|] eqn:Hm.
    2:{ intros [= <-]. apply Hfinish; simpl; [done | done | |].
        - intros rt _ Hin Hnin. done.
        - intros z name Href _.
          destruct (remap_abc_complete _ _ _ _ Href) as (m & l & Hm' & _).
          unfold invData in Hm. congruence. }
    destruct (getKeys_names _ g m _ [] _) as [r1 | e |] eqn:Hr1; simpl;
      try discriminate.
    destruct (getKeys_names_searches g _ _ _ _ _ _ _ IH H0 Hf0 Hr1)
      as (Hsub1 & Hall1 & Hc1 & Hf1).
    assert (Hid1 : ∀ z name, refers_by_data (data g) z name id →
                     isKeyBlacklisted g name = false → z ∈ r1.2).
    { intros z name Href Hname.
      destruct (remap_abc_complete _ _ _ _ Href) as (m' & l & Hm' & Hl & Hz).
      unfold invData in Hm. rewrite Hm in Hm'. injection Hm' as <-.
      apply (Hall1 name l z); try done.
      rewrite sort_strings_permutation. apply ownNames_elem. eauto. }
    destruct (invProtos g !! id) as [invs|].
    + intros Hr.
      destruct (getKeys_via_searches g _ _ _ _ _ _ _ IH Hc1 Hf1 Hr)
        as (Hsub2 & _ & Hc2 & Hf2).
      apply Hfinish; [set_solver | done | done |].
      intros z name Href Hname. apply Hsub2. by eapply Hid1.
    + intros [= <-]. by apply Hfinish.
Qed.

(** The search from an identity that is referred to from the root finds
    the root. *)
Lemma getKeys__finds (g : ObjectGraph) (rt id : N) (r : keys_result) :
  root g = VNumber rt → refers_from g rt id →
  getKeys_ (getKeys_fuel g) g id ∅ = Ret r → r.1 ≠ [].
Proof.
  intros Hroot Hpath Hr.
  destruct (getKeys__searches g _ id ∅ r (not_elem_of_empty id) Hr)
    as (Hsub & Hclosed & Hfound).
  assert (Hwalk : ∀ c, refers_from g rt c → c ∈ r.2 → rt ∈ r.2).
  { clear Hpath. induction 1 as [|a b c _ IH Href Hname]; [done|]. intros Hc2.
    destruct (decide (VNumber c = root g)) as [Heq|Hne].
    - rewrite Hroot in Heq. by injection Heq as <-.
    - apply IH. by eapply (Hclosed c). }
  assert (Hrt : rt ∈ r.2) by (apply (Hwalk id Hpath); set_solver).
  apply (Hfound rt Hroot (not_elem_of_empty rt) Hrt).
Qed.

(** X29: every identity that is referred to from the root through
    entries of [data] (under names that are not blacklisted) has a key:
    on a graph whose root is an identity and whose cache is right,
    [getKeys] returns exactly one key for it. *)
Theorem getKeys_complete (g : ObjectGraph) (rt id : N) :
  cache_ok g → root g = VNumber rt → refers_from g rt id →
  ∃ k g', getKeys g id = Ret ([k], g')
          ∧ getShortestKey g id
            = Ret (if String.eqb k "" then None else Some k, g').
Proof.
  intros Hc Hroot Hpath.
  destruct (getKeys_computes g id Hc) as (r & g' & Hk & Hr & Hlen).
  pose proof (getKeys__finds g rt id r Hroot Hpath Hr) as Hfound.
  destruct r.1 as [|k [|k' ks]] eqn:Hks; [done| |simpl in Hlen; lia].
  exists k, g'. split; [done|]. unfold getShortestKey. by rewrite Hk.
Qed.

Lemma getKeys_complete_witness :
  ∃ k g', getKeys diamond_graph 104 = Ret ([k], g')
          ∧ getShortestKey diamond_graph 104
            = Ret (if String.eqb k "" then None else Some k, g').
Proof.
  apply (getKeys_complete diamond_graph 100 104).
  - apply cache_ok_empty. vm_compute. reflexivity.
  - vm_compute. reflexivity.
  - apply (refers_step diamond_graph 100 102 "d" 104).
    + apply (refers_step diamond_graph 100 100 "l" 102).
      * apply refers_here.
      * vm_compute. eexists. split; reflexivity.
      * vm_compute. reflexivity.
    + vm_compute. eexists. split; reflexivity.
    + vm_compute. reflexivity.
Defined.

(** *** Every owned object has a key *)

Section OwnedKeys.

Variable h : heap.
Variable objs : list addr.
Hypothesis Hok : heap_ok h objs = true.
Variable rewriteName : string → string.
Variable a : addr.
Variable opts : captureOpts.
Variable g0 : ObjectGraph.
Hypothesis Hidle : idle g0.
Hypothesis Htimers : timers g0 = 0.
Hypothesis Ha : a ∈ objs.
Hypothesis Hbl : VObj a ∉ blacklistedObjects g0.

(** X30: from the heap to a key and back: after the capture of an
    object that is no function (the visited names being rewritten to
    distinct names that are not blacklisted, and "__proto__" being a
    blacklisted key), every object that a path of visited properties
    leads to from the root has exactly one key, and [lookup_] resolves
    the segments of the key from the root to the identity of the
    object. *)
Theorem capture_keys_complete (g : ObjectGraph) (b : addr) :
  callable (h a) = false → isKeyBlacklisted g0 "__proto__" = true →
  (∀ c n1 n2, c ∈ objs → n1 ∈ visitedNames h g0 c →
              n2 ∈ visitedNames h g0 c →
              rewriteName n1 = rewriteName n2 → n1 = n2) →
  (∀ c name, c ∈ objs → name ∈ visitedNames h g0 c →
             isKeyBlacklisted g0 (rewriteName name) = false) →
  capturing rewriteName h g0 (VObj a) opts g → busy g = false →
  owns h g0 a b →
  ∃ k g' segs,
    getKeys g (UID (h b)) = Ret ([k], g')
    ∧ k = path_of (rootKey opts) segs
    ∧ ∀ f, lookup_ (S f) g segs (Num (UID (h a)))
           = Ret (Some (Num (UID (h b)))).
Proof.
  intros Hfn Hproto Hdistinct Hnames Hg Hb Howns.
  assert (Hlive : live_value objs (VObj a) = true)
    by (by apply bool_decide_eq_true).
  destruct (capturing_well_formed h objs Hok rewriteName a opts g0 g
              Hidle Htimers Ha Hbl Hfn Hproto Hg) as (Hwf & Hc & Hroot & Hkey).
  pose proof (capturing_run_ok h objs Hok rewriteName _ opts g0 g
                Hidle Htimers Hlive Hbl Hg) as Hrun.
  pose proof Hrun as (Hinv & Hrootv & Hk & Ho & _ & _ & Hs).
  pose proof (capturing_record h objs Hok rewriteName _ opts g0 g
                Hidle Htimers Hlive Hbl Hg) as Hrec.
  rewrite Hb in Hs. destruct Hs as [_ Hq].
  assert (Hvn : ∀ c, visitedNames h g c = visitedNames h g0 c).
  { intros c. by apply visitedNames_blacklists. }
  assert (Hpath : b ∈ objs ∧ stored h g b
                  ∧ refers_from g (UID (h a)) (UID (h b))).
  { induction Howns as [|c name d _ (Hco & Hcs & IH) Hname Hget].
    - split; [done|]. split; [done | apply refers_here].
    - pose proof (getProperty_live h objs Hok c name Hco) as Hl.
      rewrite Hget in Hl. simpl in Hl. apply bool_decide_eq_true in Hl.
      rewrite <- Hvn in Hname.
      destruct (inv_closed _ _ _ _ Hinv c Hco Hcs) as [_ Hn].
      destruct (Hn name Hname) as [Hin | Hv].
      { rewrite Hq in Hin. by apply elem_of_nil in Hin. }
      rewrite Hget in Hv. split; [done|]. split; [done|].
      destruct (rec_property _ _ _ _ _ Hrec c name Hco Hcs Hname)
        as [Hin | (name' & Hn' & Heq & Hp)].
      { rewrite Hq in Hin. by apply elem_of_nil in Hin. }
      rewrite Hvn in Hname, Hn'.
      assert (name' = name) as -> by (by apply (Hdistinct c)).
      rewrite Hget in Hp. simpl in Hp.
      apply (refers_step g (UID (h a)) (UID (h c)) (rewriteName name)
               (UID (h d))); [done| |].
      + destruct (data g !! UID (h c)) as [m|] eqn:Hm; [|done].
        by exists m.
      + unfold isKeyBlacklisted. rewrite Hk. exact (Hnames c name Hco Hname). }
  destruct Hpath as (Hbo & Hbs & Hrefers).
  destruct (getKeys_computes g (UID (h b)) Hc) as (r & g' & Hkeys & Hr & Hlen).
  pose proof (getKeys__finds g _ _ r Hroot Hrefers Hr) as Hfound.
  destruct r.1 as [|k [|k' ks]] eqn:Hks; [done| |simpl in Hlen; lia].
  destruct (getKeys__sound g (UID (h a)) _ _ ∅ r Hwf Hroot Hr k)
    as (segs & -> & _ & Hres); [rewrite Hks; by left|].
  exists (path_of (key g) segs), g', segs.
  split; [done|]. split; [by rewrite Hkey | done].
Qed.

End OwnedKeys.

Lemma capture_keys_complete_witness :
  ∃ k g' segs,
    getKeys diamond_graph (UID (diamond 4)) = Ret ([k], g')
    ∧ k = path_of (rootKey no_opts) segs
    ∧ ∀ f, lookup_ (S f) diamond_graph segs (Num (UID (diamond 0)))
           = Ret (Some (Num (UID (diamond 4)))).
Proof.
  apply (capture_keys_complete diamond [0; 1; 2; 3; 4; 5; 6] diamond_heap_ok id
           0 no_opts fresh_graph fresh_graph_idle eq_refl).
  - apply (proj1 (bool_decide_eq_true _)). vm_compute. reflexivity.
  - exact diamond_root_visited.
  - reflexivity.
  - vm_compute. reflexivity.
  - intros c n1 n2 _ _ _ H. exact H.
  - assert (H : Forall (λ c, Forall (λ name,
                                isKeyBlacklisted fresh_graph name = false)
                             (visitedNames diamond fresh_graph c))
                       [0; 1; 2; 3; 4; 5; 6]).
    { apply (proj1 (bool_decide_eq_true _)). vm_compute. reflexivity. }
    intros c name Hc Hname. rewrite Forall_forall in H.
    specialize (H c Hc). rewrite Forall_forall in H. by apply H.
  - exact diamond_captured.
  - exact diamond_done.
  - apply (owns_step diamond fresh_graph 0 2 "d" 4).
    + apply (owns_step diamond fresh_graph 0 0 "l" 2).
      * apply owns_self.
      * apply (proj1 (bool_decide_eq_true _)). vm_compute. reflexivity.
      * vm_compute. reflexivity.
    + apply (proj1 (bool_decide_eq_true _)). vm_compute. reflexivity.
    + vm_compute. reflexivity.
Defined.
